(** * GoAWK: the lexer and the command-line driver

    A shallow embedding of [lexer/lexer.go] (the lexer with [ScanRegex],
    [HadSpace] and [lastTok]) and of the control flow of [main] in
    [goawk.go], followed by the properties of the specification that
    concern them.

    Conventions of the embedding:
    - the source text [src] is a list of bytes; [utf8.DecodeRune] is the
      decoder of Go's [unicode/utf8];
    - a [rune] is an integer, [-1] being the lexer's end marker;
    - Go's [int] is the 64-bit two's complement integer, and [Line] and
      [Column] wrap around as it does;
    - the lexer is a mutable object; its methods are state transformers
      in a small monad with early [return] and with fuel for the loops;
    - Go strings are kept symbolic: a literal, the conversion
      [string(runes)], or a call of [fmt.Sprintf] with its arguments. *)

From Stdlib Require Import Strings.String Strings.Ascii Strings.Byte.
From Stdlib Require Import ZArith List Bool Lia.
Import ListNotations.
Local Open Scope Z_scope.

(* ================================================================= *)
(** ** Tokens *)

(** Modelled from the spec: the [Token] constants are declared in
    [lexer/token.go], which is not among the sources; the constructors
    are the token kinds the specification lists (section 3) and the ones
    [lexer.go] names. *)
Inductive Token : Set :=
  | ILLEGAL | EOF | NEWLINE
  | ADD | ADD_ASSIGN | AND | APPEND | ASSIGN | COLON | COMMA | DECR
  | DIV | DIV_ASSIGN | DOLLAR | EQUALS | GTE | GREATER | INCR
  | LBRACE | LBRACKET | LESS | LPAREN | LTE | MATCH | MOD | MOD_ASSIGN
  | MUL | MUL_ASSIGN | NOT_MATCH | NOT | NOT_EQUALS | OR | PIPE
  | POW | POW_ASSIGN | QUESTION | RBRACE | RBRACKET | RPAREN
  | SEMICOLON | SUB | SUB_ASSIGN
  | BEGIN | BREAK | CONTINUE | DELETE | DO | ELSE | END | EXIT | FOR
  | FUNCTION | GETLINE | IF | IN | NEXT | PRINT | PRINTF | RETURN | WHILE
  | F_ATAN2 | F_CLOSE | F_COS | F_EXP | F_FFLUSH | F_GSUB | F_INDEX
  | F_INT | F_LENGTH | F_LOG | F_MATCH | F_RAND | F_SIN | F_SPLIT
  | F_SPRINTF | F_SQRT | F_SRAND | F_SUB | F_SUBSTR | F_SYSTEM
  | F_TOLOWER | F_TOUPPER
  | NAME | NUMBER | STRING | REGEX.

Scheme Equality for Token.

(** Modelled from the spec: the zero value of [Token], which a fresh
    [Lexer] has in [lastTok]; [token.go] is not among the sources, and
    the first constant is taken to be [ILLEGAL]. *)
Definition zeroToken : Token := ILLEGAL.

(* ================================================================= *)
(** ** Runes, bytes and strings *)

Definition rune := Z.

Definition byteZ (b : byte) : Z := Z.of_N (Byte.to_N b).

(** The characters the lexer names. *)
Abbreviation c_tab := 9 (only parsing).
Abbreviation c_nl := 10 (only parsing).
Abbreviation c_cr := 13 (only parsing).
Abbreviation c_space := 32 (only parsing).
Abbreviation c_bang := 33 (only parsing).
Abbreviation c_dquote := 34 (only parsing).
Abbreviation c_hash := 35 (only parsing).
Abbreviation c_dollar := 36 (only parsing).
Abbreviation c_percent := 37 (only parsing).
Abbreviation c_amp := 38 (only parsing).
Abbreviation c_squote := 39 (only parsing).
Abbreviation c_lparen := 40 (only parsing).
Abbreviation c_rparen := 41 (only parsing).
Abbreviation c_star := 42 (only parsing).
Abbreviation c_plus := 43 (only parsing).
Abbreviation c_comma := 44 (only parsing).
Abbreviation c_minus := 45 (only parsing).
Abbreviation c_dot := 46 (only parsing).
Abbreviation c_slash := 47 (only parsing).
Abbreviation c_0 := 48 (only parsing).
Abbreviation c_9 := 57 (only parsing).
Abbreviation c_colon := 58 (only parsing).
Abbreviation c_semi := 59 (only parsing).
Abbreviation c_lt := 60 (only parsing).
Abbreviation c_eq := 61 (only parsing).
Abbreviation c_gt := 62 (only parsing).
Abbreviation c_question := 63 (only parsing).
Abbreviation c_A := 65 (only parsing).
Abbreviation c_E := 69 (only parsing).
Abbreviation c_Z := 90 (only parsing).
Abbreviation c_lbracket := 91 (only parsing).
Abbreviation c_backslash := 92 (only parsing).
Abbreviation c_rbracket := 93 (only parsing).
Abbreviation c_caret := 94 (only parsing).
Abbreviation c_underscore := 95 (only parsing).
Abbreviation c_a := 97 (only parsing).
Abbreviation c_e := 101 (only parsing).
Abbreviation c_n := 110 (only parsing).
Abbreviation c_r := 114 (only parsing).
Abbreviation c_t := 116 (only parsing).
Abbreviation c_z := 122 (only parsing).
Abbreviation c_lbrace := 123 (only parsing).
Abbreviation c_bar := 124 (only parsing).
Abbreviation c_rbrace := 125 (only parsing).
Abbreviation c_tilde := 126 (only parsing).

(** An argument of [fmt.Sprintf]. *)
Inductive FmtArg : Set :=
  | ArgRune (r : rune)
  | ArgByte (b : byte)
  | ArgToken (t : Token).

(** A Go string as the lexer builds it. *)
Inductive GoString : Set :=
  | Str (s : string)                            (* a string literal *)
  | StringOfRunes (rs : list rune)              (* string(runes) *)
  | Sprintf (format : string) (args : list FmtArg).

(** [s != ""] is decided on the symbolic form; every format of this
    file starts with literal text, so that no [Sprintf] is empty. *)
Definition isEmpty (s : GoString) : bool :=
  match s with
  | Str s => match s with EmptyString => true | _ => false end
  | StringOfRunes rs => match rs with [] => true | _ => false end
  | Sprintf _ _ => false
  end.

(** The runes of an ASCII literal. *)
Definition runes_of_string (s : string) : list rune :=
  map byteZ (list_byte_of_string s).

(* ----------------------------------------------------------------- *)
(** *** utf8.DecodeRune *)

Definition RuneError : rune := 0xFFFD.

(** The table [first] of [unicode/utf8]: the class of a first byte. *)
Definition first (p0 : Z) : Z :=
  if p0 <? 0x80 then 0xF0        (* as: ASCII *)
  else if p0 <? 0xC2 then 0xF1   (* xx: invalid *)
  else if p0 <? 0xE0 then 0x02   (* s1 *)
  else if p0 =? 0xE0 then 0x13   (* s2 *)
  else if p0 <? 0xED then 0x03   (* s3 *)
  else if p0 =? 0xED then 0x23   (* s4 *)
  else if p0 <? 0xF0 then 0x03   (* s3 *)
  else if p0 =? 0xF0 then 0x34   (* s5 *)
  else if p0 <? 0xF4 then 0x04   (* s6 *)
  else if p0 =? 0xF4 then 0x44   (* s7 *)
  else 0xF1.                     (* xx *)

(** The table [acceptRanges]: the bounds of the second byte. *)
Definition acceptRanges (i : Z) : Z * Z :=
  if i =? 1 then (0xA0, 0xBF)
  else if i =? 2 then (0x80, 0x9F)
  else if i =? 3 then (0x90, 0xBF)
  else if i =? 4 then (0x80, 0x8F)
  else (0x80, 0xBF).

Definition DecodeRune (p : list byte) : rune * nat :=
  match p with
  | [] => (RuneError, 0%nat)
  | b0 :: _ =>
    let p0 := byteZ b0 in
    let x := first p0 in
    if 0xF0 <=? x then
      ((if x =? 0xF1 then RuneError else p0), 1%nat)
    else
      let sz := Z.land x 7 in
      let accept := acceptRanges (Z.shiftr x 4) in
      if Z.of_nat (length p) <? sz then (RuneError, 1%nat) else
      let b1 := byteZ (nth 1 p x00) in
      if (b1 <? fst accept) || (snd accept <? b1) then (RuneError, 1%nat) else
      if sz <=? 2 then
        (Z.lor (Z.shiftl (Z.land p0 0x1F) 6) (Z.land b1 0x3F), 2%nat)
      else
      let b2 := byteZ (nth 2 p x00) in
      if (b2 <? 0x80) || (0xBF <? b2) then (RuneError, 1%nat) else
      if sz <=? 3 then
        (Z.lor (Z.lor (Z.shiftl (Z.land p0 0x0F) 12)
                      (Z.shiftl (Z.land b1 0x3F) 6))
               (Z.land b2 0x3F), 3%nat)
      else
      let b3 := byteZ (nth 3 p x00) in
      if (b3 <? 0x80) || (0xBF <? b3) then (RuneError, 1%nat) else
      (Z.lor (Z.lor (Z.lor (Z.shiftl (Z.land p0 0x07) 18)
                           (Z.shiftl (Z.land b1 0x3F) 12))
                    (Z.shiftl (Z.land b2 0x3F) 6))
             (Z.land b3 0x3F), 4%nat)
  end.

(* ================================================================= *)
(** ** The lexer state *)

(** Go's [int], taken as the 64-bit signed integer. *)
Definition wrap64 (z : Z) : Z := (z + 2 ^ 63) mod 2 ^ 64 - 2 ^ 63.

Record Position : Set := mkPosition { Line : Z; Column : Z }.

Record Lexer : Set := mkLexer {
  src : list byte;
  offset : nat;
  ch : rune;
  errorMsg : GoString;
  pos : Position;
  nextPos : Position;
  hadSpace : bool;
  lastTok : Token
}.

Definition set_ch (l : Lexer) (c : rune) : Lexer :=
  mkLexer (src l) (offset l) c (errorMsg l) (pos l) (nextPos l)
          (hadSpace l) (lastTok l).
Definition set_offset (l : Lexer) (o : nat) : Lexer :=
  mkLexer (src l) o (ch l) (errorMsg l) (pos l) (nextPos l)
          (hadSpace l) (lastTok l).
Definition set_errorMsg (l : Lexer) (e : GoString) : Lexer :=
  mkLexer (src l) (offset l) (ch l) e (pos l) (nextPos l)
          (hadSpace l) (lastTok l).
Definition set_pos (l : Lexer) (p : Position) : Lexer :=
  mkLexer (src l) (offset l) (ch l) (errorMsg l) p (nextPos l)
          (hadSpace l) (lastTok l).
Definition set_nextPos (l : Lexer) (p : Position) : Lexer :=
  mkLexer (src l) (offset l) (ch l) (errorMsg l) (pos l) p
          (hadSpace l) (lastTok l).
Definition set_hadSpace (l : Lexer) (b : bool) : Lexer :=
  mkLexer (src l) (offset l) (ch l) (errorMsg l) (pos l) (nextPos l)
          b (lastTok l).
Definition set_lastTok (l : Lexer) (t : Token) : Lexer :=
  mkLexer (src l) (offset l) (ch l) (errorMsg l) (pos l) (nextPos l)
          (hadSpace l) t.

(** [func (l *Lexer) next()] *)
Definition next (l : Lexer) : Lexer :=
  let l := set_pos l (nextPos l) in
  let '(r, size) := DecodeRune (skipn (offset l) (src l)) in
  if (size =? 0)%nat then set_ch l (-1)
  else if r =? RuneError then
    set_errorMsg (set_ch l (-1))
      (Sprintf "invalid UTF-8 byte 0x%02x"
               [ArgByte (nth (offset l) (src l) x00)])
  else
    let l :=
      if r =? c_nl then
        set_nextPos l (mkPosition (wrap64 (Line (nextPos l) + 1)) 1)
      else
        set_nextPos l (mkPosition (Line (nextPos l))
                                  (wrap64 (Column (nextPos l) + 1))) in
    set_offset (set_ch l r) (offset l + size).

(** [func NewLexer(src []byte) *Lexer] *)
Definition NewLexer (s : list byte) : Lexer :=
  next (mkLexer s 0 0 (Str "") (mkPosition 0 0) (mkPosition 1 1)
                false zeroToken).

(** [func (l *Lexer) HadSpace() bool] *)
Definition HadSpace (l : Lexer) : bool := hadSpace l.

(** [func isNameStart(ch rune) bool] *)
Definition isNameStart (c : rune) : bool :=
  (c =? c_underscore) || ((c_a <=? c) && (c <=? c_z))
  || ((c_A <=? c) && (c <=? c_Z)).

Definition isDigit (c : rune) : bool := (c_0 <=? c) && (c <=? c_9).

(** Modelled from the spec: the map [keywordTokens] of [token.go], which
    is not among the sources; its keys are the keywords and built-in
    function names the specification lists (section 3). *)
Definition keywordTable : list (string * Token) :=
  [ ("BEGIN", BEGIN); ("END", END); ("if", IF); ("else", ELSE);
    ("while", WHILE); ("for", FOR); ("do", DO); ("break", BREAK);
    ("continue", CONTINUE); ("next", NEXT); ("exit", EXIT);
    ("return", RETURN); ("function", FUNCTION); ("in", IN);
    ("delete", DELETE); ("getline", GETLINE); ("print", PRINT);
    ("printf", PRINTF); ("sub", F_SUB); ("gsub", F_GSUB);
    ("split", F_SPLIT); ("sprintf", F_SPRINTF); ("length", F_LENGTH);
    ("substr", F_SUBSTR); ("index", F_INDEX); ("match", F_MATCH);
    ("tolower", F_TOLOWER); ("toupper", F_TOUPPER); ("sin", F_SIN);
    ("cos", F_COS); ("atan2", F_ATAN2); ("exp", F_EXP); ("log", F_LOG);
    ("sqrt", F_SQRT); ("int", F_INT); ("rand", F_RAND);
    ("srand", F_SRAND); ("system", F_SYSTEM); ("close", F_CLOSE);
    ("fflush", F_FFLUSH) ]%string.

Definition runes_eqb (a b : list rune) : bool :=
  if list_eq_dec Z.eq_dec a b then true else false.

(** [keywordTokens[string(runes)]] *)
Definition keywordTokens (name : list rune) : option Token :=
  match find (fun kv => runes_eqb (runes_of_string (fst kv)) name)
             keywordTable with
  | Some kv => Some (snd kv)
  | None => None
  end.

(* ================================================================= *)
(** ** The monad of the lexer's methods *)

Definition Result : Set := Position * Token * GoString.

Definition tokOf (r : Result) : Token := snd (fst r).
Definition posOf (r : Result) : Position := fst (fst r).
Definition valOf (r : Result) : GoString := snd r.

(** A statement either goes on with a value or leaves the method by
    [return]. *)
Inductive Flow (A : Type) : Type :=
  | Go (a : A)
  | Return (r : Result).
Arguments Go {A} a.
Arguments Return {A} r.

(** [None] stands for a loop that ran out of fuel. *)
Definition M (A : Type) : Type := Lexer -> option (Flow A * Lexer).

Definition ret {A} (a : A) : M A := fun l => Some (Go a, l).
Definition return_ {A} (r : Result) : M A := fun l => Some (Return r, l).
Definition bind {A B} (m : M A) (f : A -> M B) : M B :=
  fun l =>
    match m l with
    | Some (Go a, l') => f a l'
    | Some (Return r, l') => Some (Return r, l')
    | None => None
    end.

Notation "x <- m ;; k" := (bind m (fun x => k))
  (at level 61, m at next level, right associativity).
Notation "m ;; k" := (bind m (fun _ => k))
  (at level 61, right associativity).

Definition getCh : M rune := fun l => Some (Go (ch l), l).
Definition getPos : M Position := fun l => Some (Go (pos l), l).
Definition getErrorMsg : M GoString := fun l => Some (Go (errorMsg l), l).
Definition getLastTok : M Token := fun l => Some (Go (lastTok l), l).
Definition setHadSpace (b : bool) : M unit :=
  fun l => Some (Go tt, set_hadSpace l b).
Definition next_ : M unit := fun l => Some (Go tt, next l).

(** A [for cond { body }] loop; [s] holds the local variables the body
    assigns. *)
Fixpoint while {S : Type} (fuel : nat) (cond : S -> Lexer -> bool)
         (body : S -> M S) (s : S) : M S :=
  match fuel with
  | O => fun _ => None
  | Datatypes.S fuel' =>
    fun l => if cond s l
             then (s' <- body s ;; while fuel' cond body s') l
             else ret s l
  end.

(** The end of a method: its value is the [return]ed one. *)
Definition runMethod (m : M Result) (l : Lexer) : option (Result * Lexer) :=
  match m l with
  | Some (Go r, l') => Some (r, l')
  | Some (Return r, l') => Some (r, l')
  | None => None
  end.

(** [func (l *Lexer) choice(ch rune, one, two Token) Token] *)
Definition choice (c : rune) (one two : Token) : M Token :=
  c' <- getCh ;;
  if c' =? c then next_ ;; ret two else ret one.

(** [runes = append(runes, l.ch); l.next()] *)
Definition appendCh (runes : list rune) : M (list rune) :=
  c <- getCh ;; next_ ;; ret (runes ++ [c]).

(* ================================================================= *)
(** ** scan *)

Definition isSpaceStart (c : rune) : bool :=
  (c =? c_space) || (c =? c_tab) || (c =? c_cr) || (c =? c_backslash).

(** The first loop of [scan]: spaces, tabs, carriage returns and line
    continuations. *)
Definition skipSpaceBody : M unit :=
  setHadSpace true ;;
  c <- getCh ;;
  (if c =? c_backslash then
     next_ ;;
     c1 <- getCh ;;
     (if c1 =? c_cr then next_ else ret tt) ;;
     c2 <- getCh ;;
     if negb (c2 =? c_nl) then
       p <- getPos ;;
       return_ (p, ILLEGAL, Str "expected \n after \ line continuation")
     else ret tt
   else ret tt) ;;
  next_.

Definition skipSpace (fuel : nat) : M unit :=
  while fuel (fun _ l => isSpaceStart (ch l)) (fun _ => skipSpaceBody) tt.

(** [if l.ch == '#' { ... }]: a comment runs to the end of the line. *)
Definition skipComment (fuel : nat) : M unit :=
  c <- getCh ;;
  if c =? c_hash then
    next_ ;;
    while fuel (fun _ l => negb (ch l =? c_nl) && (0 <=? ch l))
          (fun _ => next_) tt
  else ret tt.

(** Names: keywords and functions. *)
Definition scanName (fuel : nat) (p : Position) (c : rune) : M Result :=
  runes <- while fuel (fun _ l => isNameStart (ch l) || isDigit (ch l))
                 appendCh [c] ;;
  match keywordTokens runes with
  | Some tok => return_ (p, tok, Str "")
  | None => return_ (p, NAME, StringOfRunes runes)
  end.

Definition digits (fuel : nat) (runes : list rune) : M (list rune) :=
  while fuel (fun _ l => isDigit (ch l)) appendCh runes.

(** The digits before the point and the point: what [case '0', ...,
    '9', '.'] does when [ch != '.'], with the initial values of [runes]
    and [gotDigit]. *)
Definition scanIntPart (fuel : nat) (c : rune) : M (list rune * bool) :=
  let runes := [c] in
  if negb (c =? c_dot) then
    runes <- digits fuel runes ;;
    c1 <- getCh ;;
    runes <- (if c1 =? c_dot then appendCh runes else ret runes) ;;
    ret (runes, true)
  else ret (runes, false).

(** The loop of the digits after the point, which sets [gotDigit]. *)
Definition scanFracDigits (fuel : nat) (st : list rune * bool)
  : M (list rune * bool) :=
  while fuel (fun _ l => isDigit (ch l))
        (fun st => runes <- appendCh (fst st) ;; ret (runes, true)) st.

(** The exponent: [if l.ch == 'e' || l.ch == 'E' { ... }]. *)
Definition scanExponent (fuel : nat) (runes : list rune) : M (list rune) :=
  c2 <- getCh ;;
  if (c2 =? c_e) || (c2 =? c_E) then
    runes <- appendCh runes ;;
    c3 <- getCh ;;
    runes <- (if (c3 =? c_plus) || (c3 =? c_minus)
              then appendCh runes else ret runes) ;;
    digits fuel runes
  else ret runes.

(** [case '0', ..., '9', '.'] *)
Definition scanNumber (fuel : nat) (c : rune) : M (Token * GoString) :=
  st <- scanIntPart fuel c ;;
  st <- scanFracDigits fuel st ;;
  let '(runes, gotDigit) := st in
  (if negb gotDigit then
     p <- getPos ;; return_ (p, ILLEGAL, Str "expected digits")
   else ret tt) ;;
  runes <- scanExponent fuel runes ;;
  ret (NUMBER, StringOfRunes runes).

(** The body of the loop of a string literal opened by [q]. *)
Definition scanStringBody (runes : list rune) : M (list rune) :=
  c <- getCh ;;
  (if c <? 0 then
     p <- getPos ;;
     return_ (p, ILLEGAL, Str "didn't find end quote in string")
   else ret tt) ;;
  (if (c =? c_cr) || (c =? c_nl) then
     p <- getPos ;;
     return_ (p, ILLEGAL, Str "can't have newline in string")
   else ret tt) ;;
  c <- (if c =? c_backslash then
          next_ ;;
          c1 <- getCh ;;
          if c1 =? c_t then ret c_tab
          else if c1 =? c_r then ret c_cr
          else if c1 =? c_n then ret c_nl
          else ret c1
        else ret c) ;;
  next_ ;;
  ret (runes ++ [c]).

(** The case of a double or single quote. *)
Definition scanString (fuel : nat) (q : rune) : M (Token * GoString) :=
  runes <- while fuel (fun _ l => negb (ch l =? q)) scanStringBody [] ;;
  next_ ;;
  ret (STRING, StringOfRunes runes).

(** [switch ch { ... }] *)
Definition scanSwitch (fuel : nat) (c : rune) : M (Token * GoString) :=
  let tok (m : M Token) : M (Token * GoString) :=
      t <- m ;; ret (t, Str "") in
  if c =? c_nl then ret (NEWLINE, Str "")
  else if c =? c_colon then ret (COLON, Str "")
  else if c =? c_comma then ret (COMMA, Str "")
  else if c =? c_slash then tok (choice c_eq DIV DIV_ASSIGN)
  else if c =? c_lbrace then ret (LBRACE, Str "")
  else if c =? c_lbracket then ret (LBRACKET, Str "")
  else if c =? c_lparen then ret (LPAREN, Str "")
  else if c =? c_minus then
    c1 <- getCh ;;
    if c1 =? c_minus then next_ ;; ret (DECR, Str "")
    else if c1 =? c_eq then next_ ;; ret (SUB_ASSIGN, Str "")
    else ret (SUB, Str "")
  else if c =? c_percent then tok (choice c_eq MOD MOD_ASSIGN)
  else if c =? c_plus then
    c1 <- getCh ;;
    if c1 =? c_plus then next_ ;; ret (INCR, Str "")
    else if c1 =? c_eq then next_ ;; ret (ADD_ASSIGN, Str "")
    else ret (ADD, Str "")
  else if c =? c_rbrace then ret (RBRACE, Str "")
  else if c =? c_rbracket then ret (RBRACKET, Str "")
  else if c =? c_rparen then ret (RPAREN, Str "")
  else if c =? c_star then
    c1 <- getCh ;;
    if c1 =? c_star then next_ ;; tok (choice c_eq POW POW_ASSIGN)
    else if c1 =? c_eq then next_ ;; ret (MUL_ASSIGN, Str "")
    else ret (MUL, Str "")
  else if c =? c_eq then tok (choice c_eq ASSIGN EQUALS)
  else if c =? c_caret then tok (choice c_eq POW POW_ASSIGN)
  else if c =? c_bang then
    c1 <- getCh ;;
    if c1 =? c_eq then next_ ;; ret (NOT_EQUALS, Str "")
    else if c1 =? c_tilde then next_ ;; ret (NOT_MATCH, Str "")
    else ret (NOT, Str "")
  else if c =? c_lt then tok (choice c_eq LESS LTE)
  else if c =? c_gt then
    c1 <- getCh ;;
    if c1 =? c_eq then next_ ;; ret (GTE, Str "")
    else if c1 =? c_gt then next_ ;; ret (APPEND, Str "")
    else ret (GREATER, Str "")
  else if c =? c_tilde then ret (MATCH, Str "")
  else if c =? c_question then ret (QUESTION, Str "")
  else if c =? c_semi then ret (SEMICOLON, Str "")
  else if c =? c_dollar then ret (DOLLAR, Str "")
  else if c =? c_amp then
    t <- choice c_amp ILLEGAL AND ;;
    if Token_beq t ILLEGAL then
      p <- getPos ;; c1 <- getCh ;;
      return_ (p, ILLEGAL, Sprintf "unexpected %q after '&'" [ArgRune c1])
    else ret (t, Str "")
  else if c =? c_bar then tok (choice c_bar PIPE OR)
  else if isDigit c || (c =? c_dot) then scanNumber fuel c
  else if (c =? c_dquote) || (c =? c_squote) then scanString fuel c
  else ret (ILLEGAL, Sprintf "unexpected %q" [ArgRune c]).

(** What [scan] does once the blanks are skipped: the comment, the end
    of the input, and the token. *)
Definition scanToken (fuel : nat) : M Result :=
  skipComment fuel ;;
  c <- getCh ;;
  (if c <? 0 then
     e <- getErrorMsg ;;
     p <- getPos ;;
     if negb (isEmpty e) then return_ (p, ILLEGAL, e)
     else return_ (p, EOF, Str "")
   else ret tt) ;;
  p <- getPos ;;
  c <- getCh ;;
  next_ ;;
  if isNameStart c then scanName fuel p c
  else
    tv <- scanSwitch fuel c ;;
    return_ (p, fst tv, snd tv).

(** [func (l *Lexer) scan() (Position, Token, string)] *)
Definition scan (fuel : nat) : M Result :=
  setHadSpace false ;;
  skipSpace fuel ;;
  scanToken fuel.

(** Enough fuel for every loop of a method: each turn of a loop reads a
    character, and there are no more of them than bytes. *)
Definition fuelOf (l : Lexer) : nat := S (S (length (src l))).

(** Assigning [l.lastTok = tok] on the way out. *)
Definition recordTok (o : option (Result * Lexer)) : option (Result * Lexer) :=
  match o with
  | Some (r, l') => Some (r, set_lastTok l' (tokOf r))
  | None => None
  end.

(** [func (l *Lexer) Scan() (Position, Token, string)] *)
Definition Scan (l : Lexer) : option (Result * Lexer) :=
  recordTok (runMethod (scan (fuelOf l)) l).

(* ================================================================= *)
(** ** scanRegex *)

(** The body of the loop of a regex literal. *)
Definition scanRegexBody (runes : list rune) : M (list rune) :=
  c <- getCh ;;
  (if c <? 0 then
     p <- getPos ;;
     return_ (p, ILLEGAL, Str "didn't find end slash in regex")
   else ret tt) ;;
  (if (c =? c_cr) || (c =? c_nl) then
     p <- getPos ;;
     return_ (p, ILLEGAL, Str "can't have newline in regex")
   else ret tt) ;;
  rc <- (if c =? c_backslash then
           next_ ;;
           c1 <- getCh ;;
           ret ((if negb (c1 =? c_slash) then runes ++ [c_backslash]
                 else runes), c1)
         else ret (runes, c)) ;;
  next_ ;;
  ret (fst rc ++ [snd rc]).

(** [func (l *Lexer) scanRegex() (Position, Token, string)] *)
Definition scanRegex (fuel : nat) : M Result :=
  p <- getPos ;;
  t <- getLastTok ;;
  st <- (match t with
         | DIV =>
           ret (mkPosition (Line p) (wrap64 (Column p - 1)), [])
         | DIV_ASSIGN =>
           ret (mkPosition (Line p) (wrap64 (Column p - 2)), [c_eq])
         | _ =>
           p' <- getPos ;;
           return_ (p', ILLEGAL,
                    Sprintf "unexpected %s preceding regex" [ArgToken t])
         end) ;;
  runes <- while fuel (fun _ l => negb (ch l =? c_slash))
                 scanRegexBody (snd st) ;;
  next_ ;;
  return_ (fst st, REGEX, StringOfRunes runes).

(** [func (l *Lexer) ScanRegex() (Position, Token, string)] *)
Definition ScanRegex (l : Lexer) : option (Result * Lexer) :=
  recordTok (runMethod (scanRegex (fuelOf l)) l).

(* ================================================================= *)
(** ** Running the lexer on examples *)

(** [n] calls of [Scan] from a fresh lexer: the tokens and the values of
    [HadSpace] after each call. *)
Fixpoint scanN (n : nat) (l : Lexer) : list (Result * bool) :=
  match n with
  | O => []
  | S n' =>
    match Scan l with
    | Some (r, l') => (r, HadSpace l') :: scanN n' l'
    | None => []
    end
  end.

Definition bytes (s : string) : list byte := list_byte_of_string s.

(* ================================================================= *)
(** ** Basic facts about [next] *)

Lemma first_cases (z : Z) :
  In (first z) [0xF0; 0xF1; 0x02; 0x13; 0x03; 0x23; 0x34; 0x04; 0x44].
Proof.
  unfold first.
  repeat match goal with
         | |- context [if ?c then _ else _] => destruct c
         end; simpl; tauto.
Qed.

Lemma DecodeRune_size (p : list byte) :
  (snd (DecodeRune p) <= length p)%nat /\
  (snd (DecodeRune p) = 0%nat <-> p = []).
Proof.
  destruct p as [|b0 p]; [simpl; split; [lia | tauto]|].
  assert (Hne : b0 :: p <> []) by discriminate.
  unfold DecodeRune.
  set (n := length (b0 :: p)).
  assert (Hn : (1 <= n)%nat) by (subst n; simpl; lia).
  pose proof (first_cases (byteZ b0)) as Hf.
  set (x := first (byteZ b0)) in *.
  simpl in Hf.
  repeat (destruct Hf as [Hf|Hf]; [rewrite <- Hf; clear Hf|]);
    try contradiction;
    cbn [Z.leb Z.compare Pos.compare Pos.compare_cont Z.eqb Pos.eqb
         Z.land Pos.land Z.shiftr Z.shiftl Pos.iter Z.div2 Pos.div2
         Z.of_N Pos.Nsucc_double Pos.Ndouble];
    repeat match goal with
           | |- context [if ?c then _ else _] => destruct c eqn:?
           end;
    cbn [snd fst];
    (split; [lia | split; [discriminate | intros; contradiction]]).
Qed.

(** What is left to read: the bytes after [offset], and the character
    in [ch] when there is one. *)
Definition mu (l : Lexer) : nat :=
  ((length (src l) - offset l) + (if (0 <=? ch l)%Z then 1 else 0))%nat.

Lemma next_src l : src (next l) = src l.
Proof.
  unfold next. destruct (DecodeRune _) as [r size]. cbn.
  repeat match goal with
         | |- context [if ?c then _ else _] => destruct c
         end; reflexivity.
Qed.

Lemma next_hadSpace l : hadSpace (next l) = hadSpace l.
Proof.
  unfold next. destruct (DecodeRune _) as [r size]. cbn.
  repeat match goal with
         | |- context [if ?c then _ else _] => destruct c
         end; reflexivity.
Qed.

Lemma next_lastTok l : lastTok (next l) = lastTok l.
Proof.
  unfold next. destruct (DecodeRune _) as [r size]. cbn.
  repeat match goal with
         | |- context [if ?c then _ else _] => destruct c
         end; reflexivity.
Qed.

Lemma next_pos l : pos (next l) = nextPos l.
Proof.
  unfold next. destruct (DecodeRune _) as [r size]. cbn.
  repeat match goal with
         | |- context [if ?c then _ else _] => destruct c
         end; reflexivity.
Qed.

Lemma next_set_hadSpace l b :
  next (set_hadSpace l b) = set_hadSpace (next l) b.
Proof.
  unfold next. cbn. destruct (DecodeRune _) as [r size].
  repeat match goal with
         | |- context [if ?c then _ else _] => destruct c
         end; reflexivity.
Qed.

Lemma next_mu_le l : (mu (next l) <= mu l)%nat.
Proof.
  unfold mu, next.
  pose proof (DecodeRune_size (skipn (offset l) (src l))) as [Hle Hz].
  rewrite length_skipn in Hle.
  destruct (DecodeRune _) as [r size]. cbn [snd] in *. cbn.
  destruct (Nat.eqb_spec size 0); [cbn; destruct (0 <=? ch l); lia|].
  destruct (r =? RuneError); [cbn; destruct (0 <=? ch l); lia|].
  destruct (r =? 10); cbn; destruct (0 <=? r), (0 <=? ch l); lia.
Qed.

Lemma next_mu_lt l : 0 <= ch l -> (mu (next l) < mu l)%nat.
Proof.
  intros Hch. unfold mu, next.
  pose proof (DecodeRune_size (skipn (offset l) (src l))) as [Hle Hz].
  rewrite length_skipn in Hle.
  destruct (DecodeRune _) as [r size]. cbn [snd] in *. cbn.
  destruct (Z.leb_spec 0 (ch l)); [|lia].
  destruct (Nat.eqb_spec size 0); [cbn; lia|].
  destruct (r =? RuneError); [cbn; lia|].
  destruct (r =? 10); cbn; destruct (0 <=? r); lia.
Qed.

Lemma mu_fuelOf l : (mu l < fuelOf l)%nat.
Proof. unfold mu, fuelOf. destruct (0 <=? ch l); lia. Qed.

Lemma set_hadSpace_same l : set_hadSpace l (hadSpace l) = l.
Proof. destruct l; reflexivity. Qed.

Arguments next : simpl never.
Arguments wrap64 : simpl never.
Arguments while : simpl never.

(* ================================================================= *)
(** ** Reasoning about the methods *)

Lemma bind_Go {A B} (m : M A) (f : A -> M B) l a l' :
  m l = Some (Go a, l') -> bind m f l = f a l'.
Proof. intros H. unfold bind. rewrite H. reflexivity. Qed.

Lemma bind_Return {A B} (m : M A) (f : A -> M B) l r l' :
  m l = Some (Return r, l') -> bind m f l = Some (Return r, l').
Proof. intros H. unfold bind. rewrite H. reflexivity. Qed.

Lemma bind_assoc {A B C} (m : M A) (f : A -> M B) (g : B -> M C) l :
  bind (bind m f) g l = bind m (fun x => bind (f x) g) l.
Proof.
  unfold bind. destruct (m l) as [[[a|r] l']|]; reflexivity.
Qed.

Lemma bind_cong {A B} (m m' : M A) (f : A -> M B) l l' :
  m l = m' l' -> bind m f l = bind m' f l'.
Proof. unfold bind. intros ->. reflexivity. Qed.

Lemma while_S {S : Type} fuel cond (body : S -> M S) s l :
  while (Datatypes.S fuel) cond body s l =
  if cond s l then bind (body s) (while fuel cond body) l else Some (Go s, l).
Proof. reflexivity. Qed.

Lemma while_exit {S : Type} fuel cond (body : S -> M S) s l :
  cond s l = false ->
  while (Datatypes.S fuel) cond body s l = Some (Go s, l).
Proof. intros H. rewrite while_S, H. reflexivity. Qed.

Lemma while_step {S : Type} fuel cond (body : S -> M S) s l s' l' :
  cond s l = true -> body s l = Some (Go s', l') ->
  while (Datatypes.S fuel) cond body s l = while fuel cond body s' l'.
Proof. intros H Hb. rewrite while_S, H. apply bind_Go, Hb. Qed.

Lemma while_return {S : Type} fuel cond (body : S -> M S) s l r l' :
  cond s l = true -> body s l = Some (Return r, l') ->
  while (Datatypes.S fuel) cond body s l = Some (Return r, l').
Proof. intros H Hb. rewrite while_S, H. apply bind_Return, Hb. Qed.

(** The part of a method that reads characters carries any property
    that is stable under [next] through. *)
Section Reads.
Variable Inv : Lexer -> Prop.
Hypothesis Inv_next : forall l, Inv l -> Inv (next l).

(** A position read from the lexer in some state of the run. *)
Definition seen (p : Position) : Prop := exists y, Inv y /\ p = pos y.

(** The early [return]s of the loops are all errors, with a message. *)
Definition early (r : Result) : Prop :=
  seen (posOf r) /\ tokOf r = ILLEGAL /\ isEmpty (valOf r) = false.

(** [m] ends; it has only read characters; it goes on with a value
    that satisfies [Q] or [return]s an error. *)
Definition reads {A} (m : M A) (l : Lexer) (Q : A -> Lexer -> Prop) : Prop :=
  exists x l',
    m l = Some (x, l') /\ Inv l' /\ (mu l' <= mu l)%nat /\
    match x with Go a => Q a l' | Return r => early r end.

Lemma reads_bind {A B} (m : M A) (f : A -> M B) l Q Q' :
  reads m l Q ->
  (forall a l', Q a l' -> Inv l' -> (mu l' <= mu l)%nat ->
                reads (f a) l' Q') ->
  reads (bind m f) l Q'.
Proof.
  intros (x & l1 & Hm & Hi & Hmu & Hx) Hf.
  destruct x as [a|r].
  - destruct (Hf a l1 Hx Hi Hmu) as (x' & l2 & Hf' & Hi' & Hmu' & Hx').
    exists x', l2. rewrite (bind_Go _ _ _ _ _ Hm).
    split; [exact Hf'|]. split; [exact Hi'|]. split; [lia | exact Hx'].
  - exists (Return r), l1. rewrite (bind_Return _ _ _ _ _ Hm).
    split; [reflexivity|]. split; [exact Hi|]. split; [exact Hmu | exact Hx].
Qed.

Lemma reads_assoc {A B C} (m : M A) (f : A -> M B) (g : B -> M C) l Q :
  reads (bind m (fun x => bind (f x) g)) l Q ->
  reads (bind (bind m f) g) l Q.
Proof. unfold reads. rewrite bind_assoc. auto. Qed.

Lemma reads_weaken {A} (m : M A) l (Q Q' : A -> Lexer -> Prop) :
  reads m l Q -> (forall a l', Q a l' -> Q' a l') -> reads m l Q'.
Proof.
  intros (x & l1 & Hm & Hi & Hmu & Hx) HQ.
  exists x, l1. split; [exact Hm|]. split; [exact Hi|].
  split; [exact Hmu|]. destruct x; auto.
Qed.

Lemma reads_ret {A} (a : A) l (Q : A -> Lexer -> Prop) :
  Inv l -> Q a l -> reads (ret a) l Q.
Proof. intros. exists (Go a), l. repeat split; auto. Qed.

Lemma reads_ret_bind {A B} (a : A) (f : A -> M B) l Q :
  reads (f a) l Q -> reads (bind (ret a) f) l Q.
Proof. exact (fun H => H). Qed.

Lemma reads_getCh {B} (f : rune -> M B) l Q :
  reads (f (ch l)) l Q -> reads (bind getCh f) l Q.
Proof. exact (fun H => H). Qed.

Lemma reads_getPos {B} (f : Position -> M B) l Q :
  reads (f (pos l)) l Q -> reads (bind getPos f) l Q.
Proof. exact (fun H => H). Qed.

Lemma reads_getErrorMsg {B} (f : GoString -> M B) l Q :
  reads (f (errorMsg l)) l Q -> reads (bind getErrorMsg f) l Q.
Proof. exact (fun H => H). Qed.

Lemma reads_next_bind {B} (f : unit -> M B) l Q :
  Inv l -> reads (f tt) (next l) Q -> reads (bind next_ f) l Q.
Proof.
  intros Hi (x & l1 & Hm & Hi1 & Hmu & Hx).
  exists x, l1. split; [exact Hm|]. split; [exact Hi1|].
  pose proof (next_mu_le l). split; [lia | exact Hx].
Qed.

Lemma reads_next l (Q : unit -> Lexer -> Prop) :
  Inv l -> Q tt (next l) -> reads next_ l Q.
Proof.
  intros. exists (Go tt), (next l).
  repeat split; auto using next_mu_le.
Qed.

Lemma reads_return_error {A} y (v : GoString) l (Q : A -> Lexer -> Prop) :
  Inv l -> Inv y -> isEmpty v = false ->
  reads (return_ (pos y, ILLEGAL, v)) l Q.
Proof.
  intros. exists (Return (pos y, ILLEGAL, v)), l.
  repeat split; auto. exists y. auto.
Qed.

Lemma reads_return_error_bind {A B} y (v : GoString) (f : A -> M B) l Q :
  Inv l -> Inv y -> isEmpty v = false ->
  reads (bind (return_ (pos y, ILLEGAL, v)) f) l Q.
Proof.
  intros. exists (Return (pos y, ILLEGAL, v)), l.
  repeat split; auto. exists y. auto.
Qed.

Lemma while_reads {S : Type} (P : S -> Lexer -> Prop) cond (body : S -> M S) :
  (forall s l, P s l -> Inv l -> cond s l = true ->
     reads (body s) l (fun s' l' => P s' l' /\ (mu l' < mu l)%nat)) ->
  forall fuel s l, P s l -> Inv l -> (mu l < fuel)%nat ->
    reads (while fuel cond body s) l
          (fun s' l' => P s' l' /\ cond s' l' = false).
Proof.
  intros Hbody. induction fuel as [|fuel IH]; intros s l HP Hi Hfuel; [lia|].
  destruct (cond s l) eqn:Hc.
  - assert (R : reads (bind (body s) (while fuel cond body)) l
                      (fun s' l' => P s' l' /\ cond s' l' = false)).
    { eapply reads_bind; [apply Hbody; auto|].
      intros s' l' [HP' Hlt] Hi' _.
      apply IH; auto; lia. }
    unfold reads in *. rewrite while_S, Hc. exact R.
  - unfold reads. rewrite while_exit by exact Hc.
    exists (Go s), l. repeat split; auto.
Qed.

Lemma appendCh_reads runes l :
  Inv l ->
  reads (appendCh runes) l
        (fun rs l' => rs = runes ++ [ch l] /\ l' = next l).
Proof.
  intros Hi. exists (Go (runes ++ [ch l])), (next l).
  repeat split; auto using next_mu_le.
Qed.

Lemma appendCh_progress runes l :
  Inv l -> 0 <= ch l ->
  reads (appendCh runes) l (fun _ l' => True /\ (mu l' < mu l)%nat).
Proof.
  intros Hi Hch. exists (Go (runes ++ [ch l])), (next l).
  repeat split; auto using next_mu_le, next_mu_lt.
Qed.

Lemma isDigit_nonneg c : isDigit c = true -> 0 <= c.
Proof. unfold isDigit. lia. Qed.

Lemma isNameStart_nonneg c : isNameStart c = true -> 0 <= c.
Proof. unfold isNameStart. lia. Qed.

Lemma digits_reads fuel runes l :
  Inv l -> (mu l < fuel)%nat ->
  reads (digits fuel runes) l (fun _ l' => True).
Proof.
  intros Hi Hf. unfold digits.
  eapply reads_weaken.
  - apply (while_reads (fun _ _ => True)); auto.
    intros s l0 _ Hi0 Hc. apply appendCh_progress; auto using isDigit_nonneg.
  - cbn beta. tauto.
Qed.

Lemma choice_reads c one two l :
  Inv l ->
  reads (choice c one two) l
        (fun t l' => (ch l = c /\ t = two /\ l' = next l) \/
                     (ch l <> c /\ t = one /\ l' = l)).
Proof.
  intros Hi. unfold reads, choice, bind, getCh. cbn beta iota.
  destruct (Z.eqb_spec (ch l) c).
  - exists (Go two), (next l).
    split; [reflexivity|]. split; [auto|]. split; [apply next_mu_le|].
    left; auto.
  - exists (Go one), l.
    split; [reflexivity|]. split; [auto|]. split; [lia|].
    right; auto.
Qed.

(** One step of a proof that a block [reads]. *)
Ltac rd_step :=
  lazymatch goal with
  | |- reads (bind (bind _ _) _) _ _ => apply reads_assoc
  | |- reads (bind getCh _) _ _ => apply reads_getCh; cbn beta
  | |- reads (bind getPos _) _ _ => apply reads_getPos; cbn beta
  | |- reads (bind getErrorMsg _) _ _ => apply reads_getErrorMsg; cbn beta
  | |- reads (bind (ret _) _) _ _ => apply reads_ret_bind; cbn beta
  | |- reads (bind next_ _) _ _ =>
    apply reads_next_bind; [auto | cbn beta]
  | |- reads (bind (appendCh _) _) _ _ =>
    eapply reads_bind;
    [apply appendCh_reads; auto | intros ? ? [? ?] ? ?; subst; cbn beta]
  | |- reads (bind (digits _ _) _) _ _ =>
    eapply reads_bind;
    [apply digits_reads; [auto | lia] | intros ? ? _ ? ?; cbn beta]
  | |- reads (bind (if ?c then _ else _) _) _ _ => destruct c eqn:?
  | |- reads (if ?c then _ else _) _ _ => destruct c eqn:?
  | |- reads (return_ (pos _, ILLEGAL, _)) _ _ =>
    apply reads_return_error; auto
  | |- reads (bind (return_ (pos _, ILLEGAL, _)) _) _ _ =>
    apply reads_return_error_bind; auto
  | |- reads (ret _) _ _ => apply reads_ret; [auto | cbn beta]
  end.

Lemma scanNumber_reads fuel c l :
  Inv l -> (mu l < fuel)%nat ->
  reads (scanNumber fuel c) l (fun tv _ => fst tv = NUMBER).
Proof.
  intros Hi Hf. unfold scanNumber, scanIntPart, scanFracDigits, scanExponent.
  cbv zeta.
  assert (Hloop : forall st l0, Inv l0 -> (mu l0 < fuel)%nat ->
            reads (while fuel (fun _ l => isDigit (ch l))
                     (fun st => runes <- appendCh (fst st) ;; ret (runes, true))
                     st) l0 (fun st' _ => snd st' = true \/ st' = st)).
  { intros st l0 Hi0 Hf0. eapply reads_weaken.
    - apply (while_reads (fun st' _ => snd st' = true \/ st' = st)); auto.
      intros s l1 _ Hi1 Hc. cbn beta in Hc.
      eapply reads_bind; [apply appendCh_progress; auto using isDigit_nonneg|].
      intros a l2 [_ Hlt] Hi2 _. apply reads_ret; auto.
    - cbn beta. tauto. }
  repeat rd_step;
    try (eapply reads_bind; [apply Hloop; [auto | lia]|];
         intros [runes gotDigit] ? ? ? ?; cbn beta iota;
         repeat rd_step; reflexivity).
Qed.

Lemma scanStringBody_reads runes l :
  Inv l ->
  reads (scanStringBody runes) l (fun _ l' => True /\ (mu l' < mu l)%nat).
Proof.
  intros Hi. unfold scanStringBody.
  pose proof (next_mu_le (next l)).
  repeat rd_step;
    (split; [exact I | pose proof (next_mu_lt l); lia]).
Qed.

Lemma scanString_reads fuel q l :
  Inv l -> (mu l < fuel)%nat ->
  reads (scanString fuel q) l (fun tv _ => fst tv = STRING).
Proof.
  intros Hi Hf. unfold scanString.
  eapply reads_bind.
  - apply (while_reads (fun _ _ => True)); auto.
    intros s l0 _ Hi0 _. apply scanStringBody_reads; auto.
  - intros runes l1 _ Hi1 Hmu1. cbn beta.
    repeat rd_step. reflexivity.
Qed.

Lemma scanRegexBody_reads runes l :
  Inv l ->
  reads (scanRegexBody runes) l (fun _ l' => True /\ (mu l' < mu l)%nat).
Proof.
  intros Hi. unfold scanRegexBody.
  pose proof (next_mu_le (next l)).
  repeat rd_step;
    (split; [exact I | pose proof (next_mu_lt l); lia]).
Qed.

Lemma skipComment_reads fuel l :
  Inv l -> (mu l < fuel)%nat ->
  reads (skipComment fuel) l (fun _ _ => True).
Proof.
  intros Hi Hf. unfold skipComment.
  repeat rd_step; auto.
  eapply reads_weaken.
  - apply (while_reads (fun _ _ => True)); auto.
    + intros s l0 _ Hi0 Hc. apply reads_next; auto.
      split; [exact I | apply next_mu_lt; lia].
    + pose proof (next_mu_le l). lia.
  - auto.
Qed.

Lemma nameLoop_reads fuel runes l :
  Inv l -> (mu l < fuel)%nat ->
  reads (while fuel (fun _ l => isNameStart (ch l) || isDigit (ch l))
               appendCh runes) l (fun _ _ => True).
Proof.
  intros Hi Hf. eapply reads_weaken.
  - apply (while_reads (fun _ _ => True)); auto.
    intros s l0 _ Hi0 Hc. apply appendCh_progress; auto.
    apply orb_true_iff in Hc.
    destruct Hc; auto using isDigit_nonneg, isNameStart_nonneg.
  - auto.
Qed.

(** What the [switch] of [scan] knows of the token it chose. *)
Definition switchFacts (c : rune) (l : Lexer) (tv : Token * GoString)
           (l' : Lexer) : Prop :=
  fst tv <> REGEX /\ fst tv <> EOF /\
  (fst tv = ILLEGAL -> isEmpty (snd tv) = false) /\
  (fst tv = DIV -> c = c_slash /\ l' = l) /\
  (fst tv = DIV_ASSIGN -> c = c_slash /\ ch l = c_eq /\ l' = next l).

Ltac rd_choice :=
  lazymatch goal with
  | |- reads (bind (choice _ _ _) _) _ _ =>
    eapply reads_bind;
    [apply choice_reads; auto
    | intros ? ? [(? & ? & ?)|(? & ? & ?)] ? ?; subst; cbn beta]
  end.

Lemma scanSwitch_reads fuel c l :
  Inv l -> (mu l < fuel)%nat ->
  reads (scanSwitch fuel c) l (switchFacts c l).
Proof.
  intros Hi Hf. unfold scanSwitch. cbv zeta.
  repeat match goal with
         | |- reads (if ?b then _ else _) _ _ => destruct b eqn:?
         end;
    try (eapply reads_weaken;
         [first [apply scanNumber_reads | apply scanString_reads]; auto
         | intros [t v] l1 Ht; cbn in Ht; subst t; unfold switchFacts; cbn;
           repeat split; intros; discriminate]);
    repeat first [rd_step | rd_choice];
    unfold switchFacts; cbn [fst snd];
    repeat split; intros; try discriminate; try lia; auto.
Qed.

(** A method ends with a result. *)
Definition finishes (m : M Result) (l : Lexer)
           (R : Result -> Lexer -> Prop) : Prop :=
  exists r l',
    runMethod m l = Some (r, l') /\ Inv l' /\ (mu l' <= mu l)%nat /\ R r l'.

Section Finishes.
Variable R : Result -> Lexer -> Prop.
Hypothesis R_early : forall r l, early r -> R r l.

Lemma finishes_bind {A} (m : M A) (f : A -> M Result) l Q :
  reads m l Q ->
  (forall a l', Q a l' -> Inv l' -> (mu l' <= mu l)%nat ->
                finishes (f a) l' R) ->
  finishes (bind m f) l R.
Proof.
  intros (x & l1 & Hm & Hi & Hmu & Hx) Hf. unfold finishes, runMethod.
  destruct x as [a|r].
  - destruct (Hf a l1 Hx Hi Hmu) as (r & l2 & Hf' & Hi' & Hmu' & Hr).
    exists r, l2. rewrite (bind_Go _ _ _ _ _ Hm).
    split; [exact Hf'|]. split; [exact Hi'|]. split; [lia | exact Hr].
  - exists r, l1. rewrite (bind_Return _ _ _ _ _ Hm).
    split; [reflexivity|]. split; [exact Hi|]. split; [exact Hmu | auto].
Qed.

Lemma finishes_assoc {A B} (m : M A) (f : A -> M B) (g : B -> M Result) l :
  finishes (bind m (fun x => bind (f x) g)) l R ->
  finishes (bind (bind m f) g) l R.
Proof. unfold finishes, runMethod. rewrite bind_assoc. auto. Qed.

Lemma finishes_return r l :
  Inv l -> R r l -> finishes (return_ r) l R.
Proof. intros. exists r, l. repeat split; auto. Qed.

Lemma finishes_return_bind {A} r (f : A -> M Result) l :
  Inv l -> R r l -> finishes (bind (return_ r) f) l R.
Proof. intros. exists r, l. repeat split; auto. Qed.

Lemma finishes_ret_bind {A} (a : A) (f : A -> M Result) l :
  finishes (f a) l R -> finishes (bind (ret a) f) l R.
Proof. exact (fun H => H). Qed.

Lemma finishes_getCh (f : rune -> M Result) l :
  finishes (f (ch l)) l R -> finishes (bind getCh f) l R.
Proof. exact (fun H => H). Qed.

Lemma finishes_getPos (f : Position -> M Result) l :
  finishes (f (pos l)) l R -> finishes (bind getPos f) l R.
Proof. exact (fun H => H). Qed.

Lemma finishes_getErrorMsg (f : GoString -> M Result) l :
  finishes (f (errorMsg l)) l R -> finishes (bind getErrorMsg f) l R.
Proof. exact (fun H => H). Qed.

Lemma finishes_getLastTok (f : Token -> M Result) l :
  finishes (f (lastTok l)) l R -> finishes (bind getLastTok f) l R.
Proof. exact (fun H => H). Qed.

Lemma finishes_next_bind (f : unit -> M Result) l :
  Inv l -> finishes (f tt) (next l) R -> finishes (bind next_ f) l R.
Proof.
  intros Hi (r & l1 & Hm & Hi1 & Hmu & Hr).
  exists r, l1. split; [exact Hm|]. split; [exact Hi1|].
  pose proof (next_mu_le l). split; [lia | exact Hr].
Qed.
End Finishes.

Lemma keywordTokens_kind name t :
  keywordTokens name = Some t ->
  t <> REGEX /\ t <> DIV /\ t <> DIV_ASSIGN /\ t <> EOF /\ t <> ILLEGAL.
Proof.
  unfold keywordTokens. destruct (find _ _) as [kv|] eqn:E; [|discriminate].
  intros H. injection H as <-. apply find_some in E. destruct E as [Hin _].
  simpl in Hin.
  repeat (destruct Hin as [Hin|Hin];
          [subst kv; cbn; repeat split; discriminate|]).
  contradiction.
Qed.

(** What a call of [scan] tells of its result: [n] bounds what was
    left to read when the call began. *)
Definition tokenFacts (n : nat) (r : Result) (l' : Lexer) : Prop :=
  seen (posOf r) /\ tokOf r <> REGEX /\
  (tokOf r = DIV ->
   exists x, Inv x /\ ch x = c_slash /\ posOf r = pos x /\ l' = next x) /\
  (tokOf r = DIV_ASSIGN ->
   exists x, Inv x /\ ch x = c_slash /\ ch (next x) = c_eq /\
             posOf r = pos x /\ l' = next (next x)) /\
  (tokOf r = EOF -> ch l' < 0 /\ isEmpty (errorMsg l') = true) /\
  (tokOf r = ILLEGAL -> isEmpty (valOf r) = false) /\
  (tokOf r = ILLEGAL \/ tokOf r = EOF \/ (mu l' < n)%nat).

Lemma early_tokenFacts n r l : early r -> tokenFacts n r l.
Proof.
  intros (Hs & Ht & Hv). unfold tokenFacts. rewrite Ht.
  repeat split; auto; try discriminate.
Qed.

Ltac fin_step :=
  lazymatch goal with
  | |- finishes (bind (bind _ _) _) _ _ => apply finishes_assoc
  | |- finishes (bind getCh _) _ _ => apply finishes_getCh; cbn beta
  | |- finishes (bind getPos _) _ _ => apply finishes_getPos; cbn beta
  | |- finishes (bind getErrorMsg _) _ _ =>
    apply finishes_getErrorMsg; cbn beta
  | |- finishes (bind getLastTok _) _ _ =>
    apply finishes_getLastTok; cbn beta
  | |- finishes (bind (ret _) _) _ _ => apply finishes_ret_bind; cbn beta
  | |- finishes (bind next_ _) _ _ =>
    apply finishes_next_bind; [auto | cbn beta]
  | |- finishes (bind (if ?c then _ else _) _) _ _ => destruct c eqn:?
  | |- finishes (if ?c then _ else _) _ _ => destruct c eqn:?
  end.

Lemma scanToken_frame fuel l :
  Inv l -> (mu l < fuel)%nat ->
  finishes (scanToken fuel) l (tokenFacts (mu l)).
Proof.
  intros Hi Hf. unfold scanToken.
  eapply finishes_bind;
    [apply early_tokenFacts | apply skipComment_reads; auto|].
  intros _ l1 _ Hi1 Hmu1. cbn beta.
  fin_step. fin_step.
  - (* the end of the input *)
    repeat fin_step.
    + apply finishes_return_bind; auto.
      apply early_tokenFacts. split; [exists l1; auto|].
      split; [reflexivity | apply negb_true_iff; auto].
    + apply finishes_return_bind; auto.
      unfold tokenFacts; cbn.
      split; [exists l1; auto|]. split; [discriminate|].
      split; [discriminate|]. split; [discriminate|].
      split; [intros _; split; [lia | apply negb_false_iff; auto]|].
      split; [discriminate | auto].
  - (* a token *)
    assert (Hlt : (mu (next l1) < mu l)%nat)
      by (pose proof (next_mu_lt l1); lia).
    repeat fin_step.
    + (* a name *)
      unfold scanName.
      eapply finishes_bind;
        [apply early_tokenFacts | apply nameLoop_reads; auto; lia|].
      intros runes l2 _ Hi2 Hmu2. cbn beta.
      destruct (keywordTokens runes) as [t|] eqn:Hk.
      * destruct (keywordTokens_kind _ _ Hk) as (? & ? & ? & ? & ?).
        apply finishes_return; auto. unfold tokenFacts; cbn.
        split; [exists l1; auto|].
        repeat split; try contradiction; auto.
        right; right; lia.
      * apply finishes_return; auto. unfold tokenFacts; cbn.
        split; [exists l1; auto|].
        repeat split; try discriminate.
        right; right; lia.
    + (* the switch *)
      eapply finishes_bind;
        [apply early_tokenFacts | apply scanSwitch_reads; auto; lia|].
      intros [t v] l2 (Hre & Heof & Hill & Hdiv & Hdiva) Hi2 Hmu2. cbn in *.
      apply finishes_return; auto. unfold tokenFacts; cbn.
      split; [exists l1; auto|]. split; [exact Hre|].
      split; [|split; [|split; [|split]]].
      * intros Ht. destruct (Hdiv Ht) as [Hc ->].
        exists l1. auto.
      * intros Ht. destruct (Hdiva Ht) as (Hc & Hc' & ->).
        exists l1. auto.
      * intros Ht. contradiction.
      * exact Hill.
      * right; right; lia.
Qed.

(** The position [scanRegex] gives to a regex. *)
Definition regexPos (l : Lexer) : Position :=
  match lastTok l with
  | DIV_ASSIGN => mkPosition (Line (pos l)) (wrap64 (Column (pos l) - 2))
  | _ => mkPosition (Line (pos l)) (wrap64 (Column (pos l) - 1))
  end.

Definition regexFacts (l : Lexer) (r : Result) (l' : Lexer) : Prop :=
  early r \/
  (tokOf r = REGEX /\ (lastTok l = DIV \/ lastTok l = DIV_ASSIGN) /\
   posOf r = regexPos l).

Lemma finishes_weaken (m : M Result) l (R R' : Result -> Lexer -> Prop) :
  finishes m l R -> (forall r l', R r l' -> R' r l') -> finishes m l R'.
Proof.
  intros (r & l1 & Hm & Hi & Hmu & Hr) HR.
  exists r, l1. repeat split; auto.
Qed.

Lemma scanRegex_frame fuel l :
  Inv l -> (mu l < fuel)%nat ->
  finishes (scanRegex fuel) l (regexFacts l).
Proof.
  intros Hi Hf. unfold scanRegex.
  assert (Hloop : forall p runes,
    finishes (runes <- while fuel (fun _ l => negb (ch l =? c_slash))
                             scanRegexBody runes ;;
              next_ ;; return_ (p, REGEX, StringOfRunes runes)) l
             (fun r _ => early r \/ (tokOf r = REGEX /\ posOf r = p))).
  { intros p runes.
    eapply finishes_bind; [intros; left; auto| |].
    - apply (while_reads (fun _ _ => True)); auto.
      intros s l0 _ Hi0 _. apply scanRegexBody_reads; auto.
    - intros rs l1 _ Hi1 Hmu1. cbn beta.
      apply finishes_next_bind; [auto|].
      apply finishes_return; [auto|]. right. cbn. auto. }
  do 2 fin_step.
  assert (Hdef : forall t (K : Position * list rune -> M Result),
    finishes (bind (p' <- getPos ;;
                    return_ (p', ILLEGAL,
                             Sprintf "unexpected %s preceding regex"
                                     [ArgToken t])) K) l (regexFacts l)).
  { intros t K. repeat fin_step.
    apply finishes_return_bind; [auto|].
    left; split; [exists l; auto | split; reflexivity]. }
  destruct (lastTok l) eqn:Ht; try apply Hdef.
  - apply finishes_ret_bind. cbn [fst snd].
    eapply finishes_weaken; [apply Hloop|].
    intros r l' [He|[Hr Hp]]; [left; auto|right].
    unfold regexPos. rewrite Ht. auto.
  - apply finishes_ret_bind. cbn [fst snd].
    eapply finishes_weaken; [apply Hloop|].
    intros r l' [He|[Hr Hp]]; [left; auto|right].
    unfold regexPos. rewrite Ht. auto.
Qed.
End Reads.

(** One step of a proof that a block [reads]. *)
Ltac reads_step :=
  lazymatch goal with
  | |- reads _ (bind (bind _ _) _) _ _ => apply reads_assoc
  | |- reads _ (bind getCh _) _ _ => apply reads_getCh; cbn beta
  | |- reads _ (bind getPos _) _ _ => apply reads_getPos; cbn beta
  | |- reads _ (bind (ret _) _) _ _ => apply reads_ret_bind; cbn beta
  | |- reads _ (bind next_ _) _ _ =>
    apply reads_next_bind; [auto | cbn beta]
  | |- reads _ (bind (if ?c then _ else _) _) _ _ => destruct c eqn:?
  | |- reads _ (if ?c then _ else _) _ _ => destruct c eqn:?
  | |- reads _ (return_ (pos _, ILLEGAL, _)) _ _ =>
    apply reads_return_error; auto
  | |- reads _ (bind (return_ (pos _, ILLEGAL, _)) _) _ _ =>
    apply reads_return_error_bind; auto
  | |- reads _ (ret _) _ _ => apply reads_ret; [auto | cbn beta]
  end.

Lemma seen_weaken (I1 I2 : Lexer -> Prop) p :
  (forall x, I1 x -> I2 x) -> seen I1 p -> seen I2 p.
Proof. intros H (y & Hy & E). exists y. auto. Qed.

Lemma tokenFacts_weaken (I1 I2 : Lexer -> Prop) n r l :
  (forall x, I1 x -> I2 x) -> tokenFacts I1 n r l -> tokenFacts I2 n r l.
Proof.
  intros H (Hs & Hre & Hd & Hda & Heof & Hmu).
  split; [eapply seen_weaken; eauto|]. split; [exact Hre|].
  split; [|split; [|exact (conj Heof Hmu)]].
  - intros Ht. destruct (Hd Ht) as (x & Hx & ?). exists x. auto.
  - intros Ht. destruct (Hda Ht) as (x & Hx & ?). exists x. auto.
Qed.

Lemma regexFacts_weaken (I1 I2 : Lexer -> Prop) l r l' :
  (forall x, I1 x -> I2 x) -> regexFacts I1 l r l' -> regexFacts I2 l r l'.
Proof.
  intros H [[Hs Ht]|Hr]; [left|right; exact Hr].
  split; [eapply seen_weaken; eauto | exact Ht].
Qed.

Lemma isSpaceStart_nonneg c : isSpaceStart c = true -> 0 <= c.
Proof. unfold isSpaceStart. lia. Qed.

(** Once the loop is entered, [hadSpace] is [true] whatever it was. *)
Lemma skipSpace_entered fuel l b :
  isSpaceStart (ch l) = true ->
  skipSpace fuel (set_hadSpace l b) = skipSpace fuel (set_hadSpace l true).
Proof.
  intros Hc. unfold skipSpace. destruct fuel as [|fuel]; [reflexivity|].
  rewrite !while_S. cbn [ch set_hadSpace]. rewrite Hc. reflexivity.
Qed.

(** The whole of [scan] and of [scanRegex]. *)
Section Frame.
Variable Inv : Lexer -> Prop.
Hypothesis Inv_next : forall l, Inv l -> Inv (next l).
Hypothesis Inv_hadSpace : forall l b, Inv l -> Inv (set_hadSpace l b).

Let InvB (b : bool) : Lexer -> Prop := fun x => Inv x /\ hadSpace x = b.

Lemma InvB_next b l : InvB b l -> InvB b (next l).
Proof.
  intros [Hi Hb]. split; [auto | rewrite next_hadSpace; exact Hb].
Qed.

Lemma skipSpaceBody_reads l :
  InvB true l -> isSpaceStart (ch l) = true ->
  reads (InvB true) skipSpaceBody l
        (fun _ l' => True /\ (mu l' < mu l)%nat).
Proof.
  intros Hi Hc. unfold skipSpaceBody.
  change (reads (InvB true)
    ((c <- getCh ;;
      (if c =? c_backslash then
         next_ ;;
         c1 <- getCh ;;
         (if c1 =? c_cr then next_ else ret tt) ;;
         c2 <- getCh ;;
         if negb (c2 =? c_nl) then
           p <- getPos ;;
           return_ (p, ILLEGAL, Str "expected \n after \ line continuation")
         else ret tt
       else ret tt) ;;
      next_)) (set_hadSpace l true)
    (fun _ l' => True /\ (mu l' < mu l)%nat)).
  replace (set_hadSpace l true) with l
    by (destruct Hi as [_ <-]; symmetry; apply set_hadSpace_same).
  apply isSpaceStart_nonneg in Hc.
  pose proof (next_mu_lt l Hc).
  pose proof (next_mu_le (next l)).
  pose proof (next_mu_le (next (next l))).
  pose proof (next_mu_le (next (next (next l)))).
  pose proof InvB_next.
  repeat reads_step;
    (apply reads_next; [.. | split; [exact I | lia]]; auto).
Qed.

Lemma skipSpace_reads fuel l :
  Inv l -> (mu l < fuel)%nat ->
  reads (InvB (isSpaceStart (ch l))) (skipSpace fuel)
        (set_hadSpace l (isSpaceStart (ch l))) (fun _ _ => True).
Proof.
  intros Hi Hf. destruct (isSpaceStart (ch l)) eqn:Hc.
  - eapply reads_weaken.
    + apply (while_reads (InvB true) (fun _ _ => True)); auto.
      * intros [] l0 _ Hi0 Hc0. apply skipSpaceBody_reads; auto.
      * split; [auto | reflexivity].
    + auto.
  - destruct fuel as [|fuel]; [lia|].
    unfold reads, skipSpace. rewrite while_exit by exact Hc.
    exists (Go tt), (set_hadSpace l false).
    repeat split; auto.
Qed.

Lemma scan_frame l :
  Inv l ->
  exists r l',
    runMethod (scan (fuelOf l)) l = Some (r, l') /\ Inv l' /\
    (mu l' <= mu l)%nat /\
    hadSpace l' = isSpaceStart (ch l) /\
    tokenFacts Inv (mu l) r l'.
Proof.
  intros Hi. pose proof (mu_fuelOf l) as Hf.
  set (b := isSpaceStart (ch l)).
  assert (E : scan (fuelOf l) l =
              bind (skipSpace (fuelOf l)) (fun _ => scanToken (fuelOf l))
                   (set_hadSpace l b)).
  { assert (E0 : skipSpace (fuelOf l) (set_hadSpace l false) =
                 skipSpace (fuelOf l) (set_hadSpace l b)).
    { subst b. destruct (isSpaceStart (ch l)) eqn:Hc;
        [apply skipSpace_entered; auto | reflexivity]. }
    change (scan (fuelOf l) l)
      with (bind (skipSpace (fuelOf l)) (fun _ => scanToken (fuelOf l))
                 (set_hadSpace l false)).
    unfold bind. rewrite E0. reflexivity. }
  assert (F : finishes (InvB b)
                (bind (skipSpace (fuelOf l)) (fun _ => scanToken (fuelOf l)))
                (set_hadSpace l b) (tokenFacts (InvB b) (mu l))).
  { eapply finishes_bind;
      [apply early_tokenFacts | apply skipSpace_reads; auto|].
    intros _ l1 _ Hi1 Hmu1. cbn beta.
    eapply finishes_weaken.
    - apply scanToken_frame; [apply InvB_next | auto|].
      change (mu (set_hadSpace l b)) with (mu l) in Hmu1. lia.
    - intros r l' (Hs & Hre & Hd & Hda & Heof & Hill & Hmu).
      change (mu (set_hadSpace l b)) with (mu l) in Hmu1.
      split; [exact Hs|]. split; [exact Hre|]. split; [exact Hd|].
      split; [exact Hda|]. split; [exact Heof|]. split; [exact Hill|].
      destruct Hmu as [?|[?|?]]; auto. right; right; lia. }
  destruct F as (r & l' & Hm & [Hi' Hb] & Hmu & Hfacts).
  exists r, l'. unfold runMethod in *. rewrite E.
  split; [exact Hm|]. split; [exact Hi'|]. split; [exact Hmu|].
  split; [exact Hb|].
  eapply tokenFacts_weaken; [|exact Hfacts]. intros x [Hx _]. exact Hx.
Qed.

Lemma scanRegex_total l :
  Inv l ->
  exists r l',
    runMethod (scanRegex (fuelOf l)) l = Some (r, l') /\ Inv l' /\
    (mu l' <= mu l)%nat /\ hadSpace l' = hadSpace l /\
    regexFacts Inv l r l'.
Proof.
  intros Hi.
  destruct (scanRegex_frame (InvB (hadSpace l)) (InvB_next _) (fuelOf l) l)
    as (r & l' & Hm & [Hi' Hb] & Hmu & Hfacts).
  - split; auto.
  - apply mu_fuelOf.
  - exists r, l'. repeat split; auto.
    eapply regexFacts_weaken; [|exact Hfacts]. intros x [Hx _]. exact Hx.
Qed.
End Frame.

(* ================================================================= *)
(** ** [scan] at the start of a token *)

Lemma skipSpace_none fuel l :
  isSpaceStart (ch l) = false ->
  skipSpace (S fuel) l = Some (Go tt, l).
Proof. intros H. unfold skipSpace. apply while_exit. exact H. Qed.

Lemma skipComment_none fuel l :
  ch l <> c_hash -> skipComment fuel l = Some (Go tt, l).
Proof.
  intros H. unfold skipComment, bind, getCh.
  destruct (Z.eqb_spec (ch l) 35); [contradiction | reflexivity].
Qed.

(** The token that starts at the character [c] read at position [p]. *)
Definition tokenAt (fuel : nat) (p : Position) (c : rune) : M Result :=
  if isNameStart c then scanName fuel p c
  else tv <- scanSwitch fuel c ;; return_ (p, fst tv, snd tv).

Lemma scanToken_at fuel l :
  0 <= ch l -> ch l <> c_hash ->
  scanToken fuel l = tokenAt fuel (pos l) (ch l) (next l).
Proof.
  intros H0 Hh. unfold scanToken.
  rewrite (bind_Go _ _ _ _ _ (skipComment_none fuel l Hh)).
  unfold tokenAt, bind, getCh, getPos, next_, ret.
  destruct (Z.ltb_spec (ch l) 0); [lia | reflexivity].
Qed.

Lemma scan_at fuel l :
  isSpaceStart (ch l) = false -> 0 <= ch l -> ch l <> c_hash ->
  scan (S fuel) l =
  tokenAt (S fuel) (pos l) (ch l) (next (set_hadSpace l false)).
Proof.
  intros Hs H0 Hh.
  change (scan (S fuel) l)
    with (bind (skipSpace (S fuel)) (fun _ => scanToken (S fuel))
               (set_hadSpace l false)).
  rewrite (bind_Go _ _ _ _ _ (skipSpace_none fuel (set_hadSpace l false) Hs)).
  apply (scanToken_at (S fuel) (set_hadSpace l false)); assumption.
Qed.

Lemma Scan_at l :
  isSpaceStart (ch l) = false -> 0 <= ch l -> ch l <> c_hash ->
  Scan l =
  recordTok (runMethod (tokenAt (fuelOf l) (pos l) (ch l))
                       (next (set_hadSpace l false))).
Proof.
  intros. unfold Scan, runMethod, fuelOf. rewrite scan_at by assumption.
  reflexivity.
Qed.

(** The two entry points of the lexer. *)
Inductive Call : Set := CallScan | CallScanRegex.

Definition call (c : Call) (l : Lexer) : option (Result * Lexer) :=
  match c with
  | CallScan => Scan l
  | CallScanRegex => ScanRegex l
  end.

(** [Scan] always returns, and what it returns. *)
Lemma Scan_facts (Inv : Lexer -> Prop) :
  (forall l, Inv l -> Inv (next l)) ->
  (forall l b, Inv l -> Inv (set_hadSpace l b)) ->
  forall l, Inv l ->
  exists r l',
    Scan l = Some (r, set_lastTok l' (tokOf r)) /\ Inv l' /\
    (mu l' <= mu l)%nat /\ hadSpace l' = isSpaceStart (ch l) /\
    tokenFacts Inv (mu l) r l'.
Proof.
  intros Hn Hh l Hi.
  destruct (scan_frame Inv Hn Hh l Hi) as (r & l' & Hm & H).
  exists r, l'. unfold Scan. rewrite Hm. split; [reflexivity | exact H].
Qed.

Lemma ScanRegex_facts (Inv : Lexer -> Prop) :
  (forall l, Inv l -> Inv (next l)) ->
  forall l, Inv l ->
  exists r l',
    ScanRegex l = Some (r, set_lastTok l' (tokOf r)) /\ Inv l' /\
    (mu l' <= mu l)%nat /\ hadSpace l' = hadSpace l /\
    regexFacts Inv l r l'.
Proof.
  intros Hn l Hi.
  destruct (scanRegex_total Inv Hn l Hi) as (r & l' & Hm & H).
  exists r, l'. unfold ScanRegex. rewrite Hm. split; [reflexivity | exact H].
Qed.

(* ================================================================= *)
(** ** Positions *)

Definition maxInt : Z := Eval compute in 2 ^ 63 - 1.

Lemma wrap64_small z : - maxInt - 1 <= z <= maxInt -> wrap64 z = z.
Proof.
  unfold wrap64, maxInt. intros H.
  change (2 ^ 63) with 9223372036854775808.
  change (2 ^ 64) with 18446744073709551616.
  rewrite Z.mod_small; lia.
Qed.

(** What holds of [nextPos]: both coordinates are at least 1 and have
    not been incremented more often than bytes were read. *)
Definition nextInv (l : Lexer) : Prop :=
  Z.of_nat (length (src l)) < maxInt /\
  (offset l <= length (src l))%nat /\
  1 <= Line (nextPos l) <= Z.of_nat (offset l) + 1 /\
  1 <= Column (nextPos l) <= Z.of_nat (offset l) + 1.

(** What holds of a lexer once [next] has been called: [pos] is the
    position of the character in [ch], and [nextPos] is the column
    after it unless the character is a newline. *)
Definition posInv (l : Lexer) : Prop :=
  nextInv l /\
  1 <= Line (pos l) <= Z.of_nat (offset l) + 1 /\
  1 <= Column (pos l) <= Z.of_nat (offset l) + 1 /\
  (0 <= ch l -> ch l <> c_nl ->
   nextPos l = mkPosition (Line (pos l)) (Column (pos l) + 1)).

Lemma next_nextInv l : nextInv l -> posInv (next l).
Proof.
  intros (Hlen & Hoff & HL & HC). unfold posInv, nextInv, next.
  pose proof (DecodeRune_size (skipn (offset l) (src l))) as [Hle Hz].
  rewrite length_skipn in Hle.
  destruct (DecodeRune _) as [r size]. cbn [snd] in *. cbn.
  destruct (Nat.eqb_spec size 0); [cbn; repeat split; auto; lia|].
  destruct (r =? RuneError); [cbn; repeat split; auto; lia|].
  destruct (Z.eqb_spec r 10); cbn.
  - rewrite wrap64_small by (unfold maxInt in *; lia).
    repeat split; auto; try lia.
  - rewrite wrap64_small by (unfold maxInt in *; lia).
    repeat split; auto; try lia.
Qed.

Lemma posInv_next l : posInv l -> posInv (next l).
Proof. intros [H _]. apply next_nextInv, H. Qed.

Lemma posInv_set_hadSpace l b : posInv l -> posInv (set_hadSpace l b).
Proof. exact (fun H => H). Qed.

Lemma posInv_NewLexer s :
  Z.of_nat (length s) < maxInt -> posInv (NewLexer s).
Proof.
  intros H. apply next_nextInv. unfold nextInv. cbn. lia.
Qed.

Lemma posInv_seen p : seen posInv p -> 1 <= Line p /\ 1 <= Column p.
Proof.
  intros (y & (_ & HL & HC & _) & ->). lia.
Qed.

(** After a character that is not a newline, [next] moves one column
    to the right on the same line. *)
Lemma posInv_step x :
  posInv x -> 0 <= ch x -> ch x <> c_nl ->
  pos (next x) = mkPosition (Line (pos x)) (Column (pos x) + 1).
Proof.
  intros (_ & _ & _ & H) H0 Hn. rewrite next_pos. auto.
Qed.

(** The states of a lexer made by [NewLexer] and driven by calls of
    [Scan] and [ScanRegex] in any order. *)
Inductive reachable (s : list byte) : Lexer -> Prop :=
  | reach_new : reachable s (NewLexer s)
  | reach_call l c r l' :
      reachable s l -> call c l = Some (r, l') -> reachable s l'.

(** The invariant of the driven lexer: after [DIV] the lexer stands at
    least at column 2, after [DIV_ASSIGN] at least at column 3. *)
Definition lexerInv (l : Lexer) : Prop :=
  posInv l /\
  (lastTok l = DIV -> 2 <= Column (pos l)) /\
  (lastTok l = DIV_ASSIGN -> 3 <= Column (pos l)).

Lemma Scan_lexerInv l r l' :
  posInv l -> Scan l = Some (r, l') ->
  lexerInv l' /\ 1 <= Line (posOf r) /\ 1 <= Column (posOf r).
Proof.
  intros Hi HS.
  destruct (Scan_facts posInv posInv_next posInv_set_hadSpace l Hi)
    as (r0 & l0 & HS0 & Hi0 & _ & _ & Hseen & _ & Hd & Hda & _).
  rewrite HS in HS0. injection HS0 as <- ->.
  split; [|apply posInv_seen, Hseen].
  split; [exact Hi0|]. cbn [lastTok pos set_lastTok]. split.
  - intros Ht. destruct (Hd Ht) as (x & Hx & Hc & _ & ->).
    rewrite (posInv_step x Hx) by lia. cbn.
    destruct Hx as (_ & _ & ? & _). lia.
  - intros Ht. destruct (Hda Ht) as (x & Hx & Hc & Hc' & _ & ->).
    rewrite (posInv_step (next x)) by (auto using posInv_next; lia).
    rewrite (posInv_step x Hx) by lia. cbn.
    destruct Hx as (_ & _ & ? & _). lia.
Qed.

Lemma ScanRegex_lexerInv l r l' :
  lexerInv l -> ScanRegex l = Some (r, l') ->
  lexerInv l' /\ 1 <= Line (posOf r) /\ 1 <= Column (posOf r).
Proof.
  intros (Hi & Hd & Hda) HS.
  destruct (ScanRegex_facts posInv posInv_next l Hi)
    as (r0 & l0 & HS0 & Hi0 & _ & _ & Hfacts).
  rewrite HS in HS0. injection HS0 as <- ->.
  assert (Ht : tokOf r = ILLEGAL \/ tokOf r = REGEX)
    by (destruct Hfacts as [(_ & ? & _)|(? & _)]; auto).
  split.
  - split; [exact Hi0|]. cbn [lastTok set_lastTok].
    split; intros E; rewrite E in Ht; destruct Ht; discriminate.
  - destruct Hfacts as [(Hs & _)|(_ & Hl & ->)];
      [apply posInv_seen, Hs|].
    destruct Hi as ((Hlen & Hoff & _) & HL & HC & _).
    unfold regexPos.
    destruct Hl as [E|E]; rewrite E; cbn [Line Column];
      rewrite wrap64_small; unfold maxInt in *;
      specialize (Hd E) || specialize (Hda E); lia.
Qed.

Lemma reachable_lexerInv s l :
  Z.of_nat (length s) < maxInt -> reachable s l -> lexerInv l.
Proof.
  intros Hlen H. induction H as [|l c r l' _ IH Hc].
  - split; [apply posInv_NewLexer, Hlen|].
    unfold NewLexer. rewrite next_lastTok. cbn. split; discriminate.
  - destruct c; cbn in Hc.
    + eapply Scan_lexerInv; [apply IH | exact Hc].
    + eapply ScanRegex_lexerInv; [exact IH | exact Hc].
Qed.

(* ================================================================= *)
(** ** C9: positions are 1-based *)

(** C9. For every source (shorter than the largest [int], as every Go
    slice is) and every state the lexer reaches by calls of [Scan] and
    [ScanRegex], each of the two returns, and the position it returns
    has [Line >= 1] and [Column >= 1]; this includes the position that
    [ScanRegex] rewinds after [DIV] or [DIV_ASSIGN]. *)
Theorem C9_positions_one_based :
  forall (s : list byte) (l : Lexer) (c : Call),
    Z.of_nat (length s) < maxInt ->
    reachable s l ->
    exists r l', call c l = Some (r, l') /\
                 1 <= Line (posOf r) /\ 1 <= Column (posOf r).
Proof.
  intros s l c Hlen Hr.
  pose proof (reachable_lexerInv s l Hlen Hr) as Hinv.
  destruct c; cbn.
  - destruct (Scan_facts posInv posInv_next posInv_set_hadSpace l (proj1 Hinv))
      as (r & l' & HS & _).
    exists r, (set_lastTok l' (tokOf r)). split; [exact HS|].
    eapply Scan_lexerInv; [exact (proj1 Hinv) | exact HS].
  - destruct (ScanRegex_facts posInv posInv_next l (proj1 Hinv))
      as (r & l' & HS & _).
    exists r, (set_lastTok l' (tokOf r)). split; [exact HS|].
    eapply ScanRegex_lexerInv; [exact Hinv | exact HS].
Qed.

(** A lexer that [Scan] has advanced to a regex, for the examples. *)
Definition afterScan (l : Lexer) : Lexer :=
  match Scan l with
  | Some (_, l') => l'
  | None => l
  end.

Lemma C9_positions_one_based_witness :
  let s := bytes "/=x/ { print }" in
  let l := afterScan (NewLexer s) in
  Z.of_nat (length s) < maxInt /\ reachable s l /\
  exists r l', call CallScanRegex l = Some (r, l') /\
               1 <= Line (posOf r) /\ 1 <= Column (posOf r).
Proof.
  intros s l.
  assert (Hlen : Z.of_nat (length s) < maxInt) by (vm_compute; reflexivity).
  assert (Hr : reachable s l).
  { apply (reach_call s (NewLexer s) CallScan
                      (mkPosition 1 1, DIV_ASSIGN, Str "") l);
      [apply reach_new | vm_compute; reflexivity]. }
  split; [exact Hlen|]. split; [exact Hr|].
  exact (C9_positions_one_based s l CallScanRegex Hlen Hr).
Defined.

(* ================================================================= *)
(** ** The characters ahead of the lexer *)

(** [ahead rs l]: the lexer is at the first character of [rs] and the
    calls of [next] bring the others. *)
Fixpoint ahead (rs : list rune) (l : Lexer) : bool :=
  match rs with
  | [] => true
  | r :: rs' => (ch l =? r) && ahead rs' (next l)
  end.

Fixpoint nextN (n : nat) (l : Lexer) : Lexer :=
  match n with
  | O => l
  | S n' => nextN n' (next l)
  end.

Lemma ahead_app rs1 rs2 l :
  ahead (rs1 ++ rs2) l = ahead rs1 l && ahead rs2 (nextN (length rs1) l).
Proof.
  revert l. induction rs1 as [|r rs1 IH]; intros l; simpl; [reflexivity|].
  rewrite IH, andb_assoc. reflexivity.
Qed.

Lemma ahead_set_hadSpace rs l b : ahead rs (set_hadSpace l b) = ahead rs l.
Proof.
  revert l. induction rs as [|r rs IH]; intros l; simpl; [reflexivity|].
  rewrite next_set_hadSpace, IH. reflexivity.
Qed.

Lemma nextN_set_hadSpace n l b :
  nextN n (set_hadSpace l b) = set_hadSpace (nextN n l) b.
Proof.
  revert l. induction n as [|n IH]; intros l; simpl; [reflexivity|].
  rewrite next_set_hadSpace, IH. reflexivity.
Qed.

Lemma nextN_add n m l : nextN (n + m) l = nextN m (nextN n l).
Proof.
  revert l. induction n as [|n IH]; intros l; simpl; [reflexivity|].
  apply IH.
Qed.

Lemma nextN_mu_le n l : (mu (nextN n l) <= mu l)%nat.
Proof.
  revert l. induction n as [|n IH]; intros l; simpl; [lia|].
  pose proof (IH (next l)). pose proof (next_mu_le l). lia.
Qed.

Lemma ahead_mu rs l :
  ahead rs l = true -> Forall (fun r => 0 <= r) rs ->
  (length rs + mu (nextN (length rs) l) <= mu l)%nat.
Proof.
  revert l. induction rs as [|r rs IH]; intros l Ha Hf; simpl in *; [lia|].
  apply andb_true_iff in Ha. destruct Ha as [Hc Ha].
  apply Z.eqb_eq in Hc. inversion Hf; subst.
  pose proof (IH (next l) Ha H2). pose proof (next_mu_lt l). lia.
Qed.

(* ================================================================= *)
(** ** C1: [Scan] never returns [REGEX] *)

(** The blanks that a line continuation is not: the space, the tab and
    the carriage return. *)
Definition isBlank (c : rune) : bool :=
  (c =? c_space) || (c =? c_tab) || (c =? c_cr).

Lemma skipSpaceBody_blank l :
  isBlank (ch l) = true ->
  skipSpaceBody l = Some (Go tt, next (set_hadSpace l true)).
Proof.
  intros H. unfold skipSpaceBody, bind, setHadSpace, getCh, next_, ret.
  cbn [ch set_hadSpace].
  destruct (Z.eqb_spec (ch l) 92); [unfold isBlank in H; lia | reflexivity].
Qed.

(** The first loop of [scan] over a run of blanks. *)
Lemma skipSpace_blanks blanks :
  forall l fuel,
    forallb isBlank blanks = true -> ahead blanks l = true ->
    skipSpace (length blanks + fuel) l =
    skipSpace fuel
      (match blanks with
       | [] => l
       | _ => set_hadSpace (nextN (length blanks) l) true
       end).
Proof.
  unfold skipSpace.
  induction blanks as [|c blanks IH]; intros l fuel Hb Ha; [reflexivity|].
  simpl in Hb, Ha. apply andb_true_iff in Hb. apply andb_true_iff in Ha.
  destruct Hb as [Hc Hb]. destruct Ha as [Hl Ha]. apply Z.eqb_eq in Hl.
  subst c. change (length (ch l :: blanks) + fuel)%nat
    with (S (length blanks + fuel)).
  rewrite (while_step _ _ _ _ _ tt (next (set_hadSpace l true)));
    [| unfold isBlank, isSpaceStart in *; lia
     | apply skipSpaceBody_blank; exact Hc].
  rewrite IH by (rewrite ?next_set_hadSpace, ?ahead_set_hadSpace; assumption).
  rewrite next_set_hadSpace. simpl nextN.
  destruct blanks; [reflexivity|].
  rewrite nextN_set_hadSpace. reflexivity.
Qed.

(** [Scan] at a slash that blanks precede. *)
Lemma Scan_blanks_slash blanks l :
  forallb isBlank blanks = true ->
  ahead (blanks ++ [c_slash]) l = true ->
  let x := nextN (length blanks) l in
  exists l',
    Scan l =
    Some ((pos x, (if ch (next x) =? c_eq then DIV_ASSIGN else DIV), Str ""),
          l').
Proof.
  intros Hb Ha x.
  rewrite ahead_app in Ha. apply andb_true_iff in Ha.
  destruct Ha as [Ha Hx]. simpl in Hx. fold x in Hx.
  apply andb_true_iff in Hx. destruct Hx as [Hx _]. apply Z.eqb_eq in Hx.
  assert (Hlen : (length blanks <= length (src l))%nat).
  { assert (Hnn : Forall (fun r => 0 <= r) blanks).
    { apply Forall_forall. intros c Hc.
      rewrite forallb_forall in Hb. specialize (Hb c Hc).
      unfold isBlank in Hb. lia. }
    pose proof (ahead_mu _ _ Ha Hnn) as Hmu. fold x in Hmu.
    unfold mu in Hmu. rewrite Hx in Hmu. simpl in Hmu.
    destruct (0 <=? ch l); lia. }
  set (y := match blanks with
            | [] => set_hadSpace l false
            | _ => set_hadSpace x true
            end).
  assert (Hy : ch y = 47 /\ pos y = pos x /\ ch (next y) = ch (next x)).
  { subst y x. destruct blanks; rewrite next_set_hadSpace; auto. }
  destruct Hy as (Hc & Hp & Hn).
  assert (E : scan (fuelOf l) l = tokenAt (fuelOf l) (pos x) 47 (next y)).
  { change (scan (fuelOf l) l)
      with (bind (skipSpace (fuelOf l)) (fun _ => scanToken (fuelOf l))
                 (set_hadSpace l false)).
    replace (fuelOf l)
      with (length blanks + S (S (length (src l) - length blanks)))%nat at 1
      by (unfold fuelOf; lia).
    unfold bind at 1.
    rewrite skipSpace_blanks by (rewrite ?ahead_set_hadSpace; assumption).
    rewrite nextN_set_hadSpace. fold x.
    replace (match blanks with
             | [] => set_hadSpace l false
             | _ :: _ => set_hadSpace (set_hadSpace x false) true
             end) with y by (subst y; destruct blanks; reflexivity).
    rewrite skipSpace_none by (rewrite Hc; reflexivity).
    rewrite scanToken_at by (rewrite Hc; lia).
    rewrite Hc, Hp. reflexivity. }
  unfold Scan, runMethod. rewrite E. unfold tokenAt.
  cbn [isNameStart Z.eqb Z.leb Z.compare Pos.compare Pos.compare_cont
       Pos.eqb andb orb scanSwitch isDigit negb].
  unfold choice, bind, getCh, next_, ret, return_. rewrite Hn.
  destruct (ch (next x) =? 61); eexists; reflexivity.
Qed.

(** C1. For every state of the lexer, hence for every source, [Scan]
    returns, and its token is not [REGEX]; when the lexer is at a slash,
    or at blanks that a slash follows, the token is [DIV], or
    [DIV_ASSIGN] when an equals sign follows the slash; and of the two
    entry points only [ScanRegex] can return a [REGEX] token. *)
Theorem C1_scan_never_regex :
  forall l : Lexer,
    (exists r l', Scan l = Some (r, l') /\ tokOf r <> REGEX) /\
    (forall blanks,
        forallb isBlank blanks = true ->
        ahead (blanks ++ [c_slash]) l = true ->
        let x := nextN (length blanks) l in
        exists l', Scan l =
          Some ((pos x, (if ch (next x) =? c_eq then DIV_ASSIGN else DIV),
                 Str ""), l')) /\
    (forall c r l', call c l = Some (r, l') -> tokOf r = REGEX ->
                    c = CallScanRegex).
Proof.
  intros l.
  destruct (Scan_facts (fun _ => True)) with (l := l)
    as (r & l' & HS & _ & _ & _ & _ & Hre & _); auto.
  split; [|split].
  - exists r, (set_lastTok l' (tokOf r)). auto.
  - intros blanks Hb Ha. apply Scan_blanks_slash; assumption.
  - intros [|] r0 l0 Hc Ht; [|reflexivity].
    cbn in Hc. rewrite HS in Hc. injection Hc as <- <-. contradiction.
Qed.

(** The source [x /= 2]: after the name, the slash that a space
    precedes comes out as [DIV_ASSIGN]. *)
Lemma C1_scan_never_regex_witness :
  let l := afterScan (NewLexer (bytes "x /= 2")) in
  forallb isBlank [c_space] = true /\
  ahead ([c_space] ++ [c_slash]) l = true /\
  exists l', Scan l = Some ((mkPosition 1 3, DIV_ASSIGN, Str ""), l').
Proof.
  intros l.
  assert (Hb : forallb isBlank [c_space] = true) by reflexivity.
  assert (Ha : ahead ([c_space] ++ [c_slash]) l = true)
    by (vm_compute; reflexivity).
  split; [exact Hb|]. split; [exact Ha|].
  exact (proj1 (proj2 (C1_scan_never_regex l)) [c_space] Hb Ha).
Defined.

(* ================================================================= *)
(** ** String and regex literals *)

(** What stands between the delimiters of a literal: characters, and
    escapes made of a backslash and a character. *)
Inductive Item : Set :=
  | Plain (c : rune)
  | Escaped (x : rune).

(** The characters of the source. *)
Definition itemSrc (i : Item) : list rune :=
  match i with
  | Plain c => [c]
  | Escaped x => [c_backslash; x]
  end.

(** In a literal closed by [q], a plain character is any character but
    [q], the backslash, the carriage return and the newline; after a
    backslash any character stands. *)
Definition itemOk (q : rune) (i : Item) : Prop :=
  match i with
  | Plain c => 0 <= c /\ c <> q /\ c <> c_backslash /\ c <> c_cr /\ c <> c_nl
  | Escaped x => 0 <= x
  end.

Definition srcOf (items : list Item) : list rune := flat_map itemSrc items.

Lemma itemOk_nonneg q items :
  Forall (itemOk q) items -> Forall (fun r => 0 <= r) (srcOf items).
Proof.
  induction 1 as [|i items Hi _ IH]; simpl; [constructor|].
  destruct i; simpl in *; repeat constructor; try lia; auto.
Qed.

Lemma length_srcOf items : (length items <= length (srcOf items))%nat.
Proof.
  induction items as [|i items IH]; simpl; [lia|].
  rewrite length_app. destruct i; simpl; lia.
Qed.

(** The character an escape of a string literal stands for. *)
Definition unescape (x : rune) : rune :=
  if x =? c_t then c_tab
  else if x =? c_r then c_cr
  else if x =? c_n then c_nl
  else x.

(** The character an item of a string literal contributes. *)
Definition strVal (i : Item) : rune :=
  match i with
  | Plain c => c
  | Escaped x => unescape x
  end.

Lemma scanStringBody_plain runes l :
  0 <= ch l -> ch l <> c_backslash -> ch l <> c_cr -> ch l <> c_nl ->
  scanStringBody runes l = Some (Go (runes ++ [ch l]), next l).
Proof.
  intros H0 Hb Hr Hn. unfold scanStringBody, bind, getCh, next_, ret.
  destruct (Z.ltb_spec (ch l) 0); [lia|].
  destruct (Z.eqb_spec (ch l) 13); [lia|].
  destruct (Z.eqb_spec (ch l) 10); [lia|].
  destruct (Z.eqb_spec (ch l) 92); [lia|]. reflexivity.
Qed.

Lemma scanStringBody_escaped runes l :
  ch l = c_backslash ->
  scanStringBody runes l =
  Some (Go (runes ++ [unescape (ch (next l))]), next (next l)).
Proof.
  intros H. unfold scanStringBody, bind, getCh, next_, ret, unescape.
  rewrite H. cbn.
  destruct (ch (next l) =? 116); [reflexivity|].
  destruct (ch (next l) =? 114); [reflexivity|].
  destruct (ch (next l) =? 110); reflexivity.
Qed.

Lemma scanStringBody_end runes l :
  ch l < 0 ->
  scanStringBody runes l =
  Some (Return (pos l, ILLEGAL, Str "didn't find end quote in string"), l).
Proof.
  intros H. unfold scanStringBody, bind, getCh, getPos, return_.
  destruct (Z.ltb_spec (ch l) 0); [reflexivity | lia].
Qed.

Lemma scanStringBody_newline runes l :
  ch l = c_cr \/ ch l = c_nl ->
  scanStringBody runes l =
  Some (Return (pos l, ILLEGAL, Str "can't have newline in string"), l).
Proof.
  intros H. unfold scanStringBody, bind, getCh, getPos, return_, ret.
  destruct (Z.ltb_spec (ch l) 0); [lia|].
  destruct H as [-> | ->]; reflexivity.
Qed.

(** The loop of a string literal over a run of items. *)
Lemma stringLoop_items q items :
  q <> c_backslash ->
  forall runes l fuel,
    Forall (itemOk q) items ->
    ahead (srcOf items) l = true ->
    while (length items + fuel) (fun _ l => negb (ch l =? q))
          scanStringBody runes l =
    while fuel (fun _ l => negb (ch l =? q)) scanStringBody
          (runes ++ map strVal items) (nextN (length (srcOf items)) l).
Proof.
  intros Hq. induction items as [|i items IH]; intros runes l fuel Hok Ha.
  - simpl. rewrite app_nil_r. reflexivity.
  - inversion Hok as [|? ? Hi Hok']; subst.
    unfold srcOf in Ha. simpl in Ha. rewrite ahead_app in Ha.
    apply andb_true_iff in Ha. destruct Ha as [Hsrc Ha].
    change (length (i :: items) + fuel)%nat
      with (S (length items + fuel)).
    unfold srcOf. simpl flat_map. rewrite length_app, nextN_add.
    change (map strVal (i :: items)) with ([strVal i] ++ map strVal items).
    rewrite app_assoc.
    destruct i as [c|x]; simpl in Hsrc, Hi |- *.
    + apply andb_true_iff in Hsrc. destruct Hsrc as [Hc _].
      apply Z.eqb_eq in Hc. subst c.
      rewrite (while_step _ _ _ _ _ (runes ++ [ch l]) (next l)).
      * apply IH; auto.
      * apply negb_true_iff, Z.eqb_neq. tauto.
      * apply scanStringBody_plain; tauto.
    + apply andb_true_iff in Hsrc. destruct Hsrc as [Hc Hx].
      apply andb_true_iff in Hx. destruct Hx as [Hx _].
      apply Z.eqb_eq in Hc. apply Z.eqb_eq in Hx. subst x.
      rewrite (while_step _ _ _ _ _ (runes ++ [unescape (ch (next l))])
                          (next (next l))).
      * apply IH; auto.
      * apply negb_true_iff, Z.eqb_neq. lia.
      * apply scanStringBody_escaped; auto.
Qed.

(** [Scan] at a quote: the rest of the call is the loop of the string
    literal, with fuel for two more turns than there are items. *)
Lemma Scan_quote q l :
  q = c_dquote \/ q = c_squote -> ch l = q ->
  Scan l =
  recordTok (runMethod (tv <- scanString (fuelOf l) q ;;
                        return_ (pos l, fst tv, snd tv))
                       (set_hadSpace (next l) false)).
Proof.
  intros Hq H.
  rewrite Scan_at by (destruct Hq; subst q; rewrite H; (reflexivity || lia)).
  rewrite H, next_set_hadSpace. unfold tokenAt.
  destruct Hq; subst q; reflexivity.
Qed.

Lemma Scan_string_prefix q items l :
  q = c_dquote \/ q = c_squote -> ch l = q ->
  Forall (itemOk q) items ->
  ahead (srcOf items) (next l) = true ->
  exists fuel,
    Scan l =
    recordTok
      (runMethod
         (tv <- (runes <- while (S (S fuel)) (fun _ l => negb (ch l =? q))
                                scanStringBody (map strVal items) ;;
                 next_ ;; ret (STRING, StringOfRunes runes)) ;;
          return_ (pos l, fst tv, snd tv))
         (set_hadSpace (nextN (length (srcOf items)) (next l)) false)).
Proof.
  intros Hq H Hok Ha.
  assert (Hq' : q <> 92) by (destruct Hq; lia).
  pose proof (ahead_mu _ _ Ha (itemOk_nonneg _ _ Hok)) as Hmu.
  pose proof (length_srcOf items) as Hlen.
  assert (H0 : 0 <= ch l) by (destruct Hq; lia).
  pose proof (next_mu_lt l H0) as Hlt.
  pose proof (mu_fuelOf l) as Hf.
  assert (Hfuel : (mu l <= S (length (src l)))%nat)
    by (unfold mu; destruct (0 <=? ch l); lia).
  exists (length (src l) - length items)%nat.
  rewrite (Scan_quote q l Hq H). unfold scanString, runMethod.
  assert (E : while (fuelOf l) (fun _ l => negb (ch l =? q)) scanStringBody
                    [] (set_hadSpace (next l) false) =
              while (S (S (length (src l) - length items)))
                    (fun _ l => negb (ch l =? q)) scanStringBody
                    (map strVal items)
                    (set_hadSpace (nextN (length (srcOf items)) (next l))
                                  false)).
  { replace (fuelOf l)
      with (length items + S (S (length (src l) - length items)))%nat
      by (unfold fuelOf; lia).
    rewrite (stringLoop_items q items Hq') by
      (auto; rewrite ahead_set_hadSpace; exact Ha).
    rewrite nextN_set_hadSpace. reflexivity. }
  rewrite (bind_cong _ _ _ _ _ (bind_cong _ _ _ _ _ E)). reflexivity.
Qed.

Lemma Scan_string q items l :
  q = c_dquote \/ q = c_squote -> ch l = q ->
  Forall (itemOk q) items ->
  ahead (srcOf items) (next l) = true ->
  ch (nextN (length (srcOf items)) (next l)) = q ->
  Scan l =
  Some ((pos l, STRING, StringOfRunes (map strVal items)),
        set_lastTok
          (set_hadSpace (next (nextN (length (srcOf items)) (next l))) false)
          STRING).
Proof.
  intros Hq H Hok Ha Hx.
  destruct (Scan_string_prefix q items l Hq H Hok Ha) as (fuel & ->).
  unfold runMethod, bind.
  rewrite while_exit
    by (cbn [ch set_hadSpace]; rewrite Hx, Z.eqb_refl; reflexivity).
  unfold next_, ret, return_, recordTok. rewrite next_set_hadSpace.
  reflexivity.
Qed.

Lemma Scan_string_newline q items l :
  q = c_dquote \/ q = c_squote -> ch l = q ->
  Forall (itemOk q) items ->
  ahead (srcOf items) (next l) = true ->
  ch (nextN (length (srcOf items)) (next l)) = c_cr \/
  ch (nextN (length (srcOf items)) (next l)) = c_nl ->
  Scan l =
  Some ((pos (nextN (length (srcOf items)) (next l)), ILLEGAL,
         Str "can't have newline in string"),
        set_lastTok
          (set_hadSpace (nextN (length (srcOf items)) (next l)) false)
          ILLEGAL).
Proof.
  intros Hq H Hok Ha Hx.
  destruct (Scan_string_prefix q items l Hq H Hok Ha) as (fuel & ->).
  unfold runMethod, bind.
  assert (Hc : negb (ch (set_hadSpace (nextN (length (srcOf items)) (next l))
                                     false) =? q) = true)
    by (cbn [ch set_hadSpace]; apply negb_true_iff, Z.eqb_neq;
        destruct Hq, Hx; lia).
  rewrite (while_return _ (fun _ l => negb (ch l =? q)) _ _ _ _ _ Hc
             (scanStringBody_newline _ (set_hadSpace _ false) Hx)).
  reflexivity.
Qed.

Lemma Scan_string_end q items l :
  q = c_dquote \/ q = c_squote -> ch l = q ->
  Forall (itemOk q) items ->
  ahead (srcOf items) (next l) = true ->
  ch (nextN (length (srcOf items)) (next l)) < 0 ->
  Scan l =
  Some ((pos (nextN (length (srcOf items)) (next l)), ILLEGAL,
         Str "didn't find end quote in string"),
        set_lastTok
          (set_hadSpace (nextN (length (srcOf items)) (next l)) false)
          ILLEGAL).
Proof.
  intros Hq H Hok Ha Hx.
  destruct (Scan_string_prefix q items l Hq H Hok Ha) as (fuel & ->).
  unfold runMethod, bind.
  assert (Hc : negb (ch (set_hadSpace (nextN (length (srcOf items)) (next l))
                                     false) =? q) = true)
    by (cbn [ch set_hadSpace]; apply negb_true_iff, Z.eqb_neq;
        destruct Hq; lia).
  rewrite (while_return _ (fun _ l => negb (ch l =? q)) _ _ _ _ _ Hc
             (scanStringBody_end _ (set_hadSpace _ false) Hx)).
  reflexivity.
Qed.

Lemma Scan_string_end_escape q items l :
  q = c_dquote \/ q = c_squote -> ch l = q ->
  Forall (itemOk q) items ->
  ahead (srcOf items) (next l) = true ->
  ch (nextN (length (srcOf items)) (next l)) = c_backslash ->
  ch (next (next (nextN (length (srcOf items)) (next l)))) < 0 ->
  Scan l =
  Some ((pos (next (next (nextN (length (srcOf items)) (next l)))), ILLEGAL,
         Str "didn't find end quote in string"),
        set_lastTok
          (set_hadSpace
             (next (next (nextN (length (srcOf items)) (next l)))) false)
          ILLEGAL).
Proof.
  intros Hq H Hok Ha Hx Hend.
  destruct (Scan_string_prefix q items l Hq H Hok Ha) as (fuel & ->).
  unfold runMethod, bind.
  assert (Hc : negb (ch (set_hadSpace (nextN (length (srcOf items)) (next l))
                                     false) =? q) = true)
    by (cbn [ch set_hadSpace]; apply negb_true_iff, Z.eqb_neq;
        destruct Hq; lia).
  rewrite (while_step _ (fun _ l => negb (ch l =? q)) _ _ _ _ _ Hc
             (scanStringBody_escaped _ (set_hadSpace _ false) Hx)).
  rewrite !next_set_hadSpace.
  assert (Hc' : negb (ch (set_hadSpace
                 (next (next (nextN (length (srcOf items)) (next l))))
                 false) =? q) = true)
    by (cbn [ch set_hadSpace]; apply negb_true_iff, Z.eqb_neq;
        destruct Hq; lia).
  rewrite (while_return _ (fun _ l => negb (ch l =? q)) _ _ _ _ _ Hc'
             (scanStringBody_end _ (set_hadSpace _ false) Hend)).
  reflexivity.
Qed.

(* ----------------------------------------------------------------- *)
(** *** Regex literals *)

(** The characters an item of a regex literal contributes. *)
Definition reVal (i : Item) : list rune :=
  match i with
  | Plain c => [c]
  | Escaped x => if x =? c_slash then [c_slash] else [c_backslash; x]
  end.

Definition reValOf (items : list Item) : list rune := flat_map reVal items.

(** The characters [scanRegex] starts the text with. *)
Definition regexStart (l : Lexer) : list rune :=
  match lastTok l with
  | DIV_ASSIGN => [c_eq]
  | _ => []
  end.

Lemma scanRegexBody_plain runes l :
  0 <= ch l -> ch l <> c_backslash -> ch l <> c_cr -> ch l <> c_nl ->
  scanRegexBody runes l = Some (Go (runes ++ [ch l]), next l).
Proof.
  intros H0 Hb Hr Hn. unfold scanRegexBody, bind, getCh, next_, ret.
  destruct (Z.ltb_spec (ch l) 0); [lia|].
  destruct (Z.eqb_spec (ch l) 13); [lia|].
  destruct (Z.eqb_spec (ch l) 10); [lia|].
  destruct (Z.eqb_spec (ch l) 92); [lia|]. reflexivity.
Qed.

Lemma scanRegexBody_escaped runes l :
  ch l = c_backslash ->
  scanRegexBody runes l =
  Some (Go (runes ++ reVal (Escaped (ch (next l)))), next (next l)).
Proof.
  intros H. unfold scanRegexBody, bind, getCh, next_, ret, reVal.
  rewrite H. cbn.
  destruct (Z.eqb_spec (ch (next l)) 47) as [E|E]; cbn.
  - rewrite E. reflexivity.
  - rewrite <- app_assoc. reflexivity.
Qed.

Lemma scanRegexBody_end runes l :
  ch l < 0 ->
  scanRegexBody runes l =
  Some (Return (pos l, ILLEGAL, Str "didn't find end slash in regex"), l).
Proof.
  intros H. unfold scanRegexBody, bind, getCh, getPos, return_.
  destruct (Z.ltb_spec (ch l) 0); [reflexivity | lia].
Qed.

Lemma scanRegexBody_newline runes l :
  ch l = c_cr \/ ch l = c_nl ->
  scanRegexBody runes l =
  Some (Return (pos l, ILLEGAL, Str "can't have newline in regex"), l).
Proof.
  intros H. unfold scanRegexBody, bind, getCh, getPos, return_, ret.
  destruct (Z.ltb_spec (ch l) 0); [lia|].
  destruct H as [-> | ->]; reflexivity.
Qed.

(** The loop of a regex literal over a run of items. *)
Lemma regexLoop_items items :
  forall runes l fuel,
    Forall (itemOk c_slash) items ->
    ahead (srcOf items) l = true ->
    while (length items + fuel) (fun _ l => negb (ch l =? c_slash))
          scanRegexBody runes l =
    while fuel (fun _ l => negb (ch l =? c_slash)) scanRegexBody
          (runes ++ reValOf items) (nextN (length (srcOf items)) l).
Proof.
  induction items as [|i items IH]; intros runes l fuel Hok Ha.
  - simpl. rewrite app_nil_r. reflexivity.
  - inversion Hok as [|? ? Hi Hok']; subst.
    unfold srcOf in Ha. simpl in Ha. rewrite ahead_app in Ha.
    apply andb_true_iff in Ha. destruct Ha as [Hsrc Ha].
    change (length (i :: items) + fuel)%nat
      with (S (length items + fuel)).
    unfold srcOf, reValOf. simpl flat_map. rewrite length_app, nextN_add.
    rewrite app_assoc.
    destruct i as [c|x]; simpl in Hsrc, Hi |- *.
    + apply andb_true_iff in Hsrc. destruct Hsrc as [Hc _].
      apply Z.eqb_eq in Hc. subst c.
      rewrite (while_step _ _ _ _ _ (runes ++ [ch l]) (next l)).
      * apply IH; auto.
      * apply negb_true_iff, Z.eqb_neq. tauto.
      * apply scanRegexBody_plain; tauto.
    + apply andb_true_iff in Hsrc. destruct Hsrc as [Hc Hx].
      apply andb_true_iff in Hx. destruct Hx as [Hx _].
      apply Z.eqb_eq in Hc. apply Z.eqb_eq in Hx. subst x.
      rewrite (while_step _ _ _ _ _
                 (runes ++ reVal (Escaped (ch (next l)))) (next (next l))).
      * apply IH; auto.
      * apply negb_true_iff, Z.eqb_neq. lia.
      * apply scanRegexBody_escaped; auto.
Qed.

(** [ScanRegex] when the last token is neither [DIV] nor [DIV_ASSIGN]. *)
Lemma ScanRegex_misplaced l :
  lastTok l <> DIV -> lastTok l <> DIV_ASSIGN ->
  ScanRegex l =
  Some ((pos l, ILLEGAL,
         Sprintf "unexpected %s preceding regex" [ArgToken (lastTok l)]),
        set_lastTok l ILLEGAL).
Proof.
  intros Hd Hda. unfold ScanRegex, scanRegex, runMethod, bind, getPos,
                 getLastTok, return_, recordTok.
  destruct (lastTok l); try reflexivity; contradiction.
Qed.

(** [ScanRegex] after [DIV] or [DIV_ASSIGN]: the rest of the call is
    the loop. *)
Lemma ScanRegex_prefix items l :
  lastTok l = DIV \/ lastTok l = DIV_ASSIGN ->
  Forall (itemOk c_slash) items ->
  ahead (srcOf items) l = true ->
  exists fuel,
    (0 <= ch (nextN (length (srcOf items)) l) -> (1 <= fuel)%nat) /\
    ScanRegex l =
    recordTok
      (runMethod
         (runes <- while (S fuel) (fun _ l => negb (ch l =? c_slash))
                         scanRegexBody (regexStart l ++ reValOf items) ;;
          next_ ;; return_ (regexPos l, REGEX, StringOfRunes runes))
         (nextN (length (srcOf items)) l)).
Proof.
  intros Ht Hok Ha.
  pose proof (ahead_mu _ _ Ha (itemOk_nonneg _ _ Hok)) as Hmu.
  pose proof (length_srcOf items) as Hlen.
  assert (Hfuel : (mu l <= S (length (src l)))%nat)
    by (unfold mu; destruct (0 <=? ch l); lia).
  exists (S (length (src l)) - length items)%nat. split.
  - intros H0. unfold mu at 1 in Hmu.
    destruct (Z.leb_spec 0 (ch (nextN (length (srcOf items)) l))); lia.
  - assert (E : forall runes,
        while (fuelOf l) (fun _ l => negb (ch l =? c_slash)) scanRegexBody
              runes l =
        while (S (S (length (src l)) - length items))
              (fun _ l => negb (ch l =? c_slash)) scanRegexBody
              (runes ++ reValOf items) (nextN (length (srcOf items)) l)).
    { intros runes.
      replace (fuelOf l)
        with (length items + S (S (length (src l)) - length items))%nat
        by (unfold fuelOf; lia).
      apply regexLoop_items; auto. }
    unfold ScanRegex, scanRegex, runMethod, regexStart, regexPos.
    unfold bind at 1 2 3, getPos, getLastTok.
    destruct Ht as [Ht|Ht]; rewrite Ht; unfold ret;
      cbn [fst snd]; rewrite (bind_cong _ _ _ _ _ (E _)); reflexivity.
Qed.

Lemma ScanRegex_literal items l :
  lastTok l = DIV \/ lastTok l = DIV_ASSIGN ->
  Forall (itemOk c_slash) items ->
  ahead (srcOf items) l = true ->
  ch (nextN (length (srcOf items)) l) = c_slash ->
  ScanRegex l =
  Some ((regexPos l, REGEX, StringOfRunes (regexStart l ++ reValOf items)),
        set_lastTok (next (nextN (length (srcOf items)) l)) REGEX).
Proof.
  intros Ht Hok Ha Hx.
  destruct (ScanRegex_prefix items l Ht Hok Ha) as (fuel & _ & ->).
  unfold runMethod, bind.
  rewrite while_exit by (rewrite Hx; reflexivity).
  reflexivity.
Qed.

Lemma ScanRegex_newline items l :
  lastTok l = DIV \/ lastTok l = DIV_ASSIGN ->
  Forall (itemOk c_slash) items ->
  ahead (srcOf items) l = true ->
  ch (nextN (length (srcOf items)) l) = c_cr \/
  ch (nextN (length (srcOf items)) l) = c_nl ->
  ScanRegex l =
  Some ((pos (nextN (length (srcOf items)) l), ILLEGAL,
         Str "can't have newline in regex"),
        set_lastTok (nextN (length (srcOf items)) l) ILLEGAL).
Proof.
  intros Ht Hok Ha Hx.
  destruct (ScanRegex_prefix items l Ht Hok Ha) as (fuel & _ & ->).
  unfold runMethod, bind.
  assert (Hc : negb (ch (nextN (length (srcOf items)) l) =? 47) = true)
    by (apply negb_true_iff, Z.eqb_neq; destruct Hx; lia).
  rewrite (while_return _ (fun _ l => negb (ch l =? 47)) _ _ _ _ _ Hc
             (scanRegexBody_newline _ _ Hx)).
  reflexivity.
Qed.

Lemma ScanRegex_end items l :
  lastTok l = DIV \/ lastTok l = DIV_ASSIGN ->
  Forall (itemOk c_slash) items ->
  ahead (srcOf items) l = true ->
  ch (nextN (length (srcOf items)) l) < 0 ->
  ScanRegex l =
  Some ((pos (nextN (length (srcOf items)) l), ILLEGAL,
         Str "didn't find end slash in regex"),
        set_lastTok (nextN (length (srcOf items)) l) ILLEGAL).
Proof.
  intros Ht Hok Ha Hx.
  destruct (ScanRegex_prefix items l Ht Hok Ha) as (fuel & _ & ->).
  unfold runMethod, bind.
  assert (Hc : negb (ch (nextN (length (srcOf items)) l) =? 47) = true)
    by (apply negb_true_iff, Z.eqb_neq; lia).
  rewrite (while_return _ (fun _ l => negb (ch l =? 47)) _ _ _ _ _ Hc
             (scanRegexBody_end _ _ Hx)).
  reflexivity.
Qed.

Lemma ScanRegex_end_escape items l :
  lastTok l = DIV \/ lastTok l = DIV_ASSIGN ->
  Forall (itemOk c_slash) items ->
  ahead (srcOf items) l = true ->
  ch (nextN (length (srcOf items)) l) = c_backslash ->
  ch (next (next (nextN (length (srcOf items)) l))) < 0 ->
  ScanRegex l =
  Some ((pos (next (next (nextN (length (srcOf items)) l))), ILLEGAL,
         Str "didn't find end slash in regex"),
        set_lastTok (next (next (nextN (length (srcOf items)) l))) ILLEGAL).
Proof.
  intros Ht Hok Ha Hx Hend.
  destruct (ScanRegex_prefix items l Ht Hok Ha) as (fuel & Hfuel & ->).
  destruct fuel as [|fuel]; [specialize (Hfuel ltac:(lia)); lia|].
  unfold runMethod, bind.
  assert (Hc : negb (ch (nextN (length (srcOf items)) l) =? 47) = true)
    by (apply negb_true_iff, Z.eqb_neq; lia).
  rewrite (while_step _ (fun _ l => negb (ch l =? 47)) _ _ _ _ _ Hc
             (scanRegexBody_escaped _ _ Hx)).
  assert (Hc' : negb (ch (next (next (nextN (length (srcOf items)) l)))
                      =? 47) = true)
    by (apply negb_true_iff, Z.eqb_neq; lia).
  rewrite (while_return _ (fun _ l => negb (ch l =? 47)) _ _ _ _ _ Hc'
             (scanRegexBody_end _ _ Hend)).
  reflexivity.
Qed.

(** After [Scan] has returned [DIV] or [DIV_ASSIGN] at [p], the position
    [scanRegex] rewinds to is [p], the position of the slash. *)
Lemma regexPos_after_Scan l0 p t v l :
  posInv l0 -> Scan l0 = Some ((p, t, v), l) ->
  t = DIV \/ t = DIV_ASSIGN ->
  lastTok l = t /\ regexPos l = p /\
  Column (pos l) = Column p + (if Token_beq t DIV then 1 else 2).
Proof.
  intros Hi HS Ht.
  destruct (Scan_facts posInv posInv_next posInv_set_hadSpace l0 Hi)
    as (r0 & l1 & HS0 & Hi1 & _ & _ & _ & _ & Hd & Hda & _).
  rewrite HS in HS0. injection HS0 as <- ->. cbn [tokOf posOf fst snd] in *.
  split; [reflexivity|]. unfold regexPos. cbn [lastTok pos set_lastTok].
  destruct Ht as [-> | ->].
  - destruct (Hd eq_refl) as (x & Hx & Hc & -> & ->).
    rewrite (posInv_step x Hx) by lia. cbn.
    destruct Hx as ((Hlen & ? & _) & _ & ? & _).
    rewrite wrap64_small by (unfold maxInt in *; lia).
    split; [|reflexivity].
    replace (Column (pos x) + 1 - 1) with (Column (pos x)) by lia.
    destruct (pos x); reflexivity.
  - destruct (Hda eq_refl) as (x & Hx & Hc & Hc' & -> & ->).
    rewrite (posInv_step (next x)) by (auto using posInv_next; lia).
    rewrite (posInv_step x Hx) by lia. cbn.
    destruct Hx as ((Hlen & ? & _) & _ & ? & _).
    rewrite wrap64_small by (unfold maxInt in *; lia).
    split; [|lia].
    replace (Column (pos x) + 1 + 1 - 2) with (Column (pos x)) by lia.
    destruct (pos x); reflexivity.
Qed.

(* ================================================================= *)
(** ** C3: [ScanRegex] *)

Lemma reValOf_plain body : reValOf (map Plain body) = body.
Proof.
  unfold reValOf.
  induction body as [|c body IH]; simpl; [reflexivity|].
  rewrite IH. reflexivity.
Qed.

(** The source [/ab], a newline, [c/]: the lexer after the first
    [Scan], which returns [DIV]. *)
Definition regexOverNewline : Lexer :=
  afterScan (NewLexer (bytes "/ab" ++ [x0a] ++ bytes "c/")).

(** C3, counterexample. [ScanRegex] is called after [DIV] and a slash
    follows on the next line, but the call neither returns a [REGEX]
    token nor a rewound position: it returns [ILLEGAL] at the newline,
    line 1, column 4. *)
Lemma C3_counterexample :
  lastTok regexOverNewline = DIV /\
  ahead [c_a; 98; c_nl; 99; c_slash] regexOverNewline = true /\
  Column (pos regexOverNewline) = 2 /\
  option_map fst (ScanRegex regexOverNewline) =
  Some (mkPosition 1 4, ILLEGAL, Str "can't have newline in regex").
Proof. vm_compute. repeat split; reflexivity. Qed.

(** C3, as amended. When the last token is neither [DIV] nor
    [DIV_ASSIGN], [ScanRegex] returns [ILLEGAL]. After [DIV] or
    [DIV_ASSIGN], when the characters ahead are items (characters other
    than the slash, the backslash, the carriage return and the newline,
    and escapes) followed by a slash, it reads them up to and including
    that slash and returns a [REGEX] token whose position is the one of
    the lexer with the column rewound by 1 after [DIV], by 2 after
    [DIV_ASSIGN], and whose value is the text of the items, after an
    equals sign in the case of [DIV_ASSIGN]; the value of plain
    characters is these characters. When the lexer was brought there by
    a [Scan] that returned [DIV] or [DIV_ASSIGN] at [p], the rewound
    position is [p], the position of the opening slash. *)
Theorem C3_ScanRegex :
  (forall l : Lexer,
      lastTok l <> DIV -> lastTok l <> DIV_ASSIGN ->
      exists msg, ScanRegex l = Some ((pos l, ILLEGAL, msg),
                                      set_lastTok l ILLEGAL)) /\
  (forall (l : Lexer) (items : list Item),
      Forall (itemOk c_slash) items ->
      ahead (srcOf items ++ [c_slash]) l = true ->
      (lastTok l = DIV ->
       ScanRegex l =
       Some ((mkPosition (Line (pos l)) (wrap64 (Column (pos l) - 1)),
              REGEX, StringOfRunes (reValOf items)),
             set_lastTok (next (nextN (length (srcOf items)) l)) REGEX)) /\
      (lastTok l = DIV_ASSIGN ->
       ScanRegex l =
       Some ((mkPosition (Line (pos l)) (wrap64 (Column (pos l) - 2)),
              REGEX, StringOfRunes (c_eq :: reValOf items)),
             set_lastTok (next (nextN (length (srcOf items)) l)) REGEX)) /\
      (forall body, items = map Plain body -> reValOf items = body) /\
      (forall l0 p t v,
          posInv l0 -> Scan l0 = Some ((p, t, v), l) ->
          t = DIV \/ t = DIV_ASSIGN ->
          Column p = Column (pos l) - (if Token_beq t DIV then 1 else 2) /\
          exists val l', ScanRegex l = Some ((p, REGEX, val), l'))).
Proof.
  split.
  - intros l Hd Hda. eexists. apply ScanRegex_misplaced; assumption.
  - intros l items Hok Ha.
    rewrite ahead_app in Ha. apply andb_true_iff in Ha.
    destruct Ha as [Ha Hx]. simpl in Hx.
    apply andb_true_iff in Hx. destruct Hx as [Hx _].
    apply Z.eqb_eq in Hx.
    split; [|split; [|split]].
    + intros Ht.
      rewrite (ScanRegex_literal items l (or_introl Ht) Hok Ha Hx).
      unfold regexPos, regexStart. rewrite Ht. reflexivity.
    + intros Ht.
      rewrite (ScanRegex_literal items l (or_intror Ht) Hok Ha Hx).
      unfold regexPos, regexStart. rewrite Ht. reflexivity.
    + intros body ->. apply reValOf_plain.
    + intros l0 p t v Hi HS Ht.
      destruct (regexPos_after_Scan l0 p t v l Hi HS Ht) as (Hl & Hp & Hc).
      split; [lia|].
      assert (Ht' : lastTok l = DIV \/ lastTok l = DIV_ASSIGN)
        by (rewrite Hl; exact Ht).
      rewrite (ScanRegex_literal items l Ht' Hok Ha Hx), Hp.
      eexists. eexists. reflexivity.
Qed.

(** The source [/=a\/b.c/ x]: after [Scan] has returned [DIV_ASSIGN] at
    line 1, column 1, [ScanRegex] returns the regex [=a/b.c] at that
    position. *)
Lemma C3_ScanRegex_witness :
  let l0 := NewLexer (bytes "/=a\/b.c/ x") in
  let l := afterScan l0 in
  let items := [Plain c_a; Escaped c_slash; Plain 98; Plain c_dot; Plain 99] in
  Forall (itemOk c_slash) items /\
  ahead (srcOf items ++ [c_slash]) l = true /\
  posInv l0 /\
  Scan l0 = Some ((mkPosition 1 1, DIV_ASSIGN, Str ""), l) /\
  (exists l', ScanRegex l =
     Some ((mkPosition 1 1, REGEX,
            StringOfRunes [c_eq; c_a; c_slash; 98; c_dot; 99]), l')).
Proof.
  intros l0 l items.
  assert (Hok : Forall (itemOk c_slash) items)
    by (repeat constructor; simpl; lia).
  assert (Ha : ahead (srcOf items ++ [c_slash]) l = true)
    by (vm_compute; reflexivity).
  assert (Hi : posInv l0)
    by (apply posInv_NewLexer; vm_compute; reflexivity).
  assert (HS : Scan l0 = Some ((mkPosition 1 1, DIV_ASSIGN, Str ""), l))
    by (vm_compute; reflexivity).
  split; [exact Hok|]. split; [exact Ha|]. split; [exact Hi|].
  split; [exact HS|].
  destruct (proj2 C3_ScanRegex l items Hok Ha) as (_ & Hda & _ & _).
  rewrite (Hda eq_refl). eexists. vm_compute. reflexivity.
Defined.

(* ================================================================= *)
(** ** C4: the escapes of a regex literal *)

(** The source [/a\], a newline, [b/]: the lexer after the first
    [Scan], which returns [DIV]. *)
Definition regexEscapedNewline : Lexer :=
  afterScan (NewLexer (bytes "/a\" ++ [x0a] ++ bytes "b/")).

(** C4, counterexample. A newline stands before the closing slash of
    the regex, after a backslash, and [ScanRegex] does not return
    [ILLEGAL]: it returns the [REGEX] token whose value is [a], the
    backslash, the newline and [b]. *)
Lemma C4_counterexample :
  lastTok regexEscapedNewline = DIV /\
  ahead [c_a; c_backslash; c_nl; 98; c_slash] regexEscapedNewline = true /\
  option_map fst (ScanRegex regexEscapedNewline) =
  Some (mkPosition 1 1, REGEX, StringOfRunes [c_a; c_backslash; c_nl; 98]).
Proof. vm_compute. repeat split; reflexivity. Qed.

(** C4, as amended. In a regex literal scanned by [ScanRegex], that is
    after [DIV] or [DIV_ASSIGN] and over a run of items, the escape of a
    slash contributes the slash alone and any other escape contributes
    the backslash and its character, whatever the character; when the
    run of items is followed by the closing slash the token is [REGEX]
    with this value; when it is followed by a carriage return or a
    newline, that is by one that no backslash precedes, [ScanRegex]
    returns [ILLEGAL] at its position. *)
Theorem C4_regex_escapes :
  forall (l : Lexer) (items : list Item),
    lastTok l = DIV \/ lastTok l = DIV_ASSIGN ->
    Forall (itemOk c_slash) items ->
    ahead (srcOf items) l = true ->
    let x := nextN (length (srcOf items)) l in
    (forall i1 i2 y,
        items = i1 ++ Escaped y :: i2 ->
        reValOf items =
        reValOf i1 ++ (if y =? c_slash then [c_slash] else [c_backslash; y])
                ++ reValOf i2) /\
    (ch x = c_slash ->
     exists p l',
       ScanRegex l =
       Some ((p, REGEX, StringOfRunes (regexStart l ++ reValOf items)), l')) /\
    (ch x = c_cr \/ ch x = c_nl ->
     exists l',
       ScanRegex l =
       Some ((pos x, ILLEGAL, Str "can't have newline in regex"), l')).
Proof.
  intros l items Ht Hok Ha x. split; [|split].
  - intros i1 i2 y ->. unfold reValOf. rewrite flat_map_app. reflexivity.
  - intros Hx. rewrite (ScanRegex_literal items l Ht Hok Ha Hx).
    eexists. eexists. reflexivity.
  - intros Hx. rewrite (ScanRegex_newline items l Ht Hok Ha Hx).
    eexists. reflexivity.
Qed.

(** The source [/a\/b\.c], a newline: after [DIV], the two escapes give
    [a/b\.c] and the newline makes the call fail at column 9. *)
Lemma C4_regex_escapes_witness :
  let l := afterScan (NewLexer (bytes "/a\/b\.c" ++ [x0a])) in
  let items := [Plain c_a; Escaped c_slash; Plain 98; Escaped c_dot;
                Plain 99] in
  (lastTok l = DIV \/ lastTok l = DIV_ASSIGN) /\
  Forall (itemOk c_slash) items /\
  ahead (srcOf items) l = true /\
  reValOf items = [c_a; c_slash; 98; c_backslash; c_dot; 99] /\
  (exists l', ScanRegex l =
     Some ((mkPosition 1 9, ILLEGAL, Str "can't have newline in regex"),
           l')).
Proof.
  intros l items.
  assert (Ht : lastTok l = DIV \/ lastTok l = DIV_ASSIGN)
    by (left; vm_compute; reflexivity).
  assert (Hok : Forall (itemOk c_slash) items)
    by (repeat constructor; simpl; lia).
  assert (Ha : ahead (srcOf items) l = true) by (vm_compute; reflexivity).
  split; [exact Ht|]. split; [exact Hok|]. split; [exact Ha|].
  destruct (C4_regex_escapes l items Ht Hok Ha) as (Hesc & _ & Hnl).
  split; [vm_compute; reflexivity|].
  destruct Hnl as (l' & E); [right; vm_compute; reflexivity|].
  exists l'. rewrite E. vm_compute. reflexivity.
Defined.


(* ================================================================= *)
(** ** C5: double-quoted string literals *)

Definition dq : list byte := [x22].

(** The source: a double quote, [a\], a newline, [b], a double quote. *)
Definition stringEscapedNewline : Lexer :=
  NewLexer (dq ++ bytes "a\" ++ [x0a] ++ bytes "b" ++ dq).

(** C5, counterexample. A newline stands before the closing quote of
    the literal, after a backslash, and [Scan] does not return
    [ILLEGAL]: it returns the [STRING] token whose value is [a], the
    newline and [b]. *)
Lemma C5_counterexample :
  ahead [c_dquote; c_a; c_backslash; c_nl; 98; c_dquote]
        stringEscapedNewline = true /\
  option_map fst (Scan stringEscapedNewline) =
  Some (mkPosition 1 1, STRING, StringOfRunes [c_a; c_nl; 98]).
Proof. vm_compute. repeat split; reflexivity. Qed.

Lemma map_strVal_escaped i1 i2 y :
  map strVal (i1 ++ Escaped y :: i2) =
  map strVal i1 ++ unescape y :: map strVal i2.
Proof. rewrite map_app. reflexivity. Qed.

Lemma unescape_cases :
  unescape c_t = c_tab /\ unescape c_r = c_cr /\ unescape c_n = c_nl /\
  unescape c_dquote = c_dquote /\ unescape c_backslash = c_backslash /\
  (forall y, y <> c_t -> y <> c_r -> y <> c_n -> unescape y = y).
Proof.
  repeat split; try reflexivity.
  intros y Ht Hr Hn. unfold unescape.
  destruct (Z.eqb_spec y 116); [contradiction|].
  destruct (Z.eqb_spec y 114); [contradiction|].
  destruct (Z.eqb_spec y 110); [contradiction | reflexivity].
Qed.

(** C5, as amended. In a double-quoted string literal, that is with the
    lexer at a double quote and over a run of items (characters other
    than the double quote, the backslash, the carriage return and the
    newline, and escapes), an escape contributes one character: the
    tab, the carriage return and the newline for [\t], [\r] and [\n],
    the double quote and the backslash for their escapes, and the
    character itself for any other, whatever it is. When the run of
    items is followed by the closing quote, [Scan] returns the [STRING]
    token with these characters and has read the closing quote. When it
    is followed by a carriage return or a newline, that is by one that
    no backslash precedes, or by the end of the input, be it after a
    last backslash, [Scan] returns [ILLEGAL]. *)
Theorem C5_double_quoted_string :
  forall (l : Lexer) (items : list Item),
    ch l = c_dquote ->
    Forall (itemOk c_dquote) items ->
    ahead (srcOf items) (next l) = true ->
    let x := nextN (length (srcOf items)) (next l) in
    (forall i1 i2 y,
        items = i1 ++ Escaped y :: i2 ->
        map strVal items = map strVal i1 ++ unescape y :: map strVal i2) /\
    (unescape c_t = c_tab /\ unescape c_r = c_cr /\ unescape c_n = c_nl /\
     unescape c_dquote = c_dquote /\ unescape c_backslash = c_backslash /\
     (forall y, y <> c_t -> y <> c_r -> y <> c_n -> unescape y = y)) /\
    (ch x = c_dquote ->
     Scan l = Some ((pos l, STRING, StringOfRunes (map strVal items)),
                    set_lastTok (set_hadSpace (next x) false) STRING)) /\
    (ch x = c_cr \/ ch x = c_nl ->
     exists l',
       Scan l = Some ((pos x, ILLEGAL, Str "can't have newline in string"),
                      l')) /\
    (ch x < 0 ->
     exists l',
       Scan l = Some ((pos x, ILLEGAL, Str "didn't find end quote in string"),
                      l')) /\
    (ch x = c_backslash -> ch (next (next x)) < 0 ->
     exists l',
       Scan l = Some ((pos (next (next x)), ILLEGAL,
                       Str "didn't find end quote in string"), l')).
Proof.
  intros l items H Hok Ha x.
  assert (Hq : 34 = 34 \/ 34 = 39) by (left; reflexivity).
  split; [intros i1 i2 y ->; apply map_strVal_escaped|].
  split; [exact unescape_cases|].
  split; [|split; [|split]].
  - intros Hx. apply (Scan_string 34 items l Hq H Hok Ha Hx).
  - intros Hx. rewrite (Scan_string_newline 34 items l Hq H Hok Ha Hx).
    eexists. reflexivity.
  - intros Hx. rewrite (Scan_string_end 34 items l Hq H Hok Ha Hx).
    eexists. reflexivity.
  - intros Hx Hend.
    rewrite (Scan_string_end_escape 34 items l Hq H Hok Ha Hx Hend).
    eexists. reflexivity.
Qed.

(** The source: a double quote, [a\tb\], a double quote, [c], a double
    quote, [ x]. The value is [a], a tab, [b], a double quote and [c]. *)
Lemma C5_double_quoted_string_witness :
  let l := NewLexer (dq ++ bytes "a\tb\" ++ dq ++ bytes "c" ++ dq
                        ++ bytes " x") in
  let items := [Plain c_a; Escaped c_t; Plain 98; Escaped c_dquote;
                Plain 99] in
  ch l = c_dquote /\
  Forall (itemOk c_dquote) items /\
  ahead (srcOf items) (next l) = true /\
  exists l',
    Scan l = Some ((mkPosition 1 1, STRING,
                    StringOfRunes [c_a; c_tab; 98; c_dquote; 99]), l').
Proof.
  intros l items.
  assert (H : ch l = c_dquote) by (vm_compute; reflexivity).
  assert (Hok : Forall (itemOk c_dquote) items)
    by (repeat constructor; simpl; lia).
  assert (Ha : ahead (srcOf items) (next l) = true)
    by (vm_compute; reflexivity).
  split; [exact H|]. split; [exact Hok|]. split; [exact Ha|].
  destruct (C5_double_quoted_string l items H Hok Ha)
    as (_ & _ & Hstr & _).
  rewrite Hstr by (vm_compute; reflexivity).
  eexists. vm_compute. reflexivity.
Defined.

(* ================================================================= *)
(** ** C10: single-quoted string literals *)

(** C10. With the lexer at a single quote, over a run of items of a
    single-quoted literal (characters other than the single quote, the
    backslash, the carriage return and the newline, and escapes)
    followed by a single quote, [Scan] returns the [STRING] token whose
    value is the one the escape rules of the double-quoted literal give
    ([strVal], character by character) and has read the closing single
    quote. A double quote is an item of a single-quoted literal and a
    single quote one of a double-quoted literal: neither ends the
    literal of the other. *)
Theorem C10_single_quoted_string :
  forall (l : Lexer) (items : list Item),
    ch l = c_squote ->
    Forall (itemOk c_squote) items ->
    ahead (srcOf items ++ [c_squote]) (next l) = true ->
    Scan l = Some ((pos l, STRING, StringOfRunes (map strVal items)),
                   set_lastTok
                     (set_hadSpace
                        (next (nextN (length (srcOf items)) (next l))) false)
                     STRING) /\
    itemOk c_squote (Plain c_dquote) /\ itemOk c_dquote (Plain c_squote) /\
    (forall l2,
        ch l2 = c_dquote ->
        Forall (itemOk c_dquote) items ->
        ahead (srcOf items ++ [c_dquote]) (next l2) = true ->
        exists l2',
          Scan l2 = Some ((pos l2, STRING, StringOfRunes (map strVal items)),
                          l2')).
Proof.
  intros l items H Hok Ha.
  assert (Hq : 39 = 34 \/ 39 = 39) by (right; reflexivity).
  rewrite ahead_app in Ha. apply andb_true_iff in Ha.
  destruct Ha as [Ha Hx]. simpl in Hx.
  apply andb_true_iff in Hx. destruct Hx as [Hx _]. apply Z.eqb_eq in Hx.
  split; [apply (Scan_string 39 items l Hq H Hok Ha Hx)|].
  split; [simpl; lia|]. split; [simpl; lia|].
  intros l2 H2 Hok2 Ha2.
  rewrite ahead_app in Ha2. apply andb_true_iff in Ha2.
  destruct Ha2 as [Ha2 Hx2]. simpl in Hx2.
  apply andb_true_iff in Hx2. destruct Hx2 as [Hx2 _]. apply Z.eqb_eq in Hx2.
  rewrite (Scan_string 34 items l2 (or_introl eq_refl) H2 Hok2 Ha2 Hx2).
  eexists. reflexivity.
Qed.

(** The source ['say ], a double quote, [hi], a double quote, [\n' x]:
    the double quotes are ordinary characters of the literal. *)
Lemma C10_single_quoted_string_witness :
  let l := NewLexer (bytes "'say " ++ dq ++ bytes "hi" ++ dq
                        ++ bytes "\n' x") in
  let items := [Plain 115; Plain c_a; Plain 121; Plain c_space;
                Plain c_dquote; Plain 104; Plain 105; Plain c_dquote;
                Escaped c_n] in
  ch l = c_squote /\
  Forall (itemOk c_squote) items /\
  ahead (srcOf items ++ [c_squote]) (next l) = true /\
  exists l',
    Scan l = Some ((mkPosition 1 1, STRING,
                    StringOfRunes [115; c_a; 121; c_space; c_dquote;
                                   104; 105; c_dquote; c_nl]), l').
Proof.
  intros l items.
  assert (H : ch l = c_squote) by (vm_compute; reflexivity).
  assert (Hok : Forall (itemOk c_squote) items)
    by (repeat constructor; simpl; lia).
  assert (Ha : ahead (srcOf items ++ [c_squote]) (next l) = true)
    by (vm_compute; reflexivity).
  split; [exact H|]. split; [exact Hok|]. split; [exact Ha|].
  destruct (C10_single_quoted_string l items H Hok Ha) as (Hstr & _).
  rewrite Hstr. eexists. vm_compute. reflexivity.
Defined.


(* ================================================================= *)
(** ** Numbers *)

Lemma bind_getCh {B} (f : rune -> M B) l : bind getCh f l = f (ch l) l.
Proof. reflexivity. Qed.

Lemma bind_ret {A B} (a : A) (f : A -> M B) l : bind (ret a) f l = f a l.
Proof. reflexivity. Qed.

Lemma bind_appendCh {B} runes (f : list rune -> M B) l :
  bind (appendCh runes) f l = f (runes ++ [ch l]) (next l).
Proof. reflexivity. Qed.

Lemma digits_nil_ahead ds l :
  forallb isDigit ds = true -> ahead ds l = true ->
  isDigit (ch l) = false -> ds = [].
Proof.
  destruct ds as [|d ds]; [reflexivity|]. simpl. intros Hd Ha Hc.
  apply andb_true_iff in Hd. apply andb_true_iff in Ha.
  destruct Hd as [Hd _]. destruct Ha as [Ha _].
  apply Z.eqb_eq in Ha. rewrite Ha, Hd in Hc. discriminate.
Qed.

(** A loop that appends digits reads the longest run of digits. *)
Lemma digits_run fuel :
  forall runes l,
    (mu l < fuel)%nat ->
    exists ds,
      digits fuel runes l =
      Some (Go (runes ++ ds), nextN (length ds) l) /\
      forallb isDigit ds = true /\ ahead ds l = true /\
      isDigit (ch (nextN (length ds) l)) = false.
Proof.
  unfold digits.
  induction fuel as [|fuel IH]; intros runes l Hf; [lia|].
  destruct (isDigit (ch l)) eqn:Hc.
  - pose proof (next_mu_lt l (isDigit_nonneg _ Hc)) as Hlt.
    destruct (IH (runes ++ [ch l]) (next l) ltac:(lia))
      as (ds & E & Hd & Ha & Hend).
    exists (ch l :: ds).
    rewrite (while_step _ _ _ _ _ (runes ++ [ch l]) (next l) Hc eq_refl).
    rewrite E, <- app_assoc. simpl.
    rewrite Hc, Hd, Ha, Z.eqb_refl. auto.
  - exists []. rewrite while_exit by exact Hc.
    rewrite app_nil_r. simpl. auto.
Qed.

Lemma scanFracDigits_run fuel :
  forall st l,
    (mu l < fuel)%nat ->
    exists ds,
      scanFracDigits fuel st l =
      Some (Go (fst st ++ ds,
                match ds with [] => snd st | _ => true end),
            nextN (length ds) l) /\
      forallb isDigit ds = true /\ ahead ds l = true /\
      isDigit (ch (nextN (length ds) l)) = false.
Proof.
  unfold scanFracDigits.
  induction fuel as [|fuel IH]; intros st l Hf; [lia|].
  destruct (isDigit (ch l)) eqn:Hc.
  - pose proof (next_mu_lt l (isDigit_nonneg _ Hc)) as Hlt.
    destruct (IH (fst st ++ [ch l], true) (next l) ltac:(lia))
      as (ds & E & Hd & Ha & Hend).
    exists (ch l :: ds).
    rewrite (while_step _ _ _ _ _ (fst st ++ [ch l], true) (next l) Hc eq_refl).
    rewrite E. cbn [fst snd]. rewrite <- app_assoc. simpl.
    rewrite Hc, Hd, Ha, Z.eqb_refl.
    destruct ds; auto.
  - exists []. rewrite while_exit by exact Hc.
    rewrite app_nil_r. simpl. destruct st; auto.
Qed.

(** The text of an exponent: the mark, a sign or none, digits or none. *)
Definition expShape (ex : list rune) : Prop :=
  ex = [] \/
  exists e sign ds,
    ex = e :: sign ++ ds /\ (e = c_e \/ e = c_E) /\
    (sign = [] \/ sign = [c_plus] \/ sign = [c_minus]) /\
    forallb isDigit ds = true.

(** The text of a number: digits or none, a point or none and digits
    after it or none, with a digit somewhere, and an exponent or none. *)
Definition numberShape (txt : list rune) : Prop :=
  exists ip dot fr ex,
    txt = ip ++ dot ++ fr ++ ex /\
    forallb isDigit ip = true /\
    (dot = [] \/ dot = [c_dot]) /\
    forallb isDigit fr = true /\
    (dot = [] -> fr = []) /\
    (ip <> [] \/ fr <> []) /\
    expShape ex.

Lemma scanExponent_run fuel runes l :
  (mu l < fuel)%nat ->
  exists ex,
    scanExponent fuel runes l =
    Some (Go (runes ++ ex), nextN (length ex) l) /\
    expShape ex /\ ahead ex l = true.
Proof.
  intros Hf. unfold scanExponent. rewrite bind_getCh.
  destruct ((ch l =? 101) || (ch l =? 69)) eqn:He.
  - rewrite bind_appendCh, bind_getCh.
    pose proof (next_mu_le l) as Hle.
    assert (Hmark : ch l = 101 \/ ch l = 69) by lia.
    destruct ((ch (next l) =? 43) || (ch (next l) =? 45)) eqn:Hs.
    + rewrite bind_appendCh.
      pose proof (next_mu_le (next l)) as Hle'.
      destruct (digits_run fuel ((runes ++ [ch l]) ++ [ch (next l)])
                           (next (next l)) ltac:(lia))
        as (ds & E & Hd & Ha & _).
      exists (ch l :: [ch (next l)] ++ ds).
      rewrite E, <- !app_assoc. simpl.
      rewrite Ha, !Z.eqb_refl.
      split; [reflexivity|]. split; [|reflexivity].
      right. exists (ch l), [ch (next l)], ds.
      split; [reflexivity|]. split; [exact Hmark|]. split; [|exact Hd].
      right. assert (Hsign : ch (next l) = 43 \/ ch (next l) = 45) by lia.
      destruct Hsign as [-> | ->]; auto.
    + rewrite bind_ret.
      destruct (digits_run fuel (runes ++ [ch l]) (next l) ltac:(lia))
        as (ds & E & Hd & Ha & _).
      exists (ch l :: [] ++ ds).
      rewrite E, <- !app_assoc. simpl.
      rewrite Ha, !Z.eqb_refl.
      split; [reflexivity|]. split; [|reflexivity].
      right. exists (ch l), [], ds. auto.
  - exists []. rewrite app_nil_r. simpl.
    split; [reflexivity|]. split; [left|]; reflexivity.
Qed.

Lemma scanIntPart_run fuel c l :
  isDigit c = true -> (mu l < fuel)%nat ->
  exists ds dot,
    scanIntPart fuel c l =
    Some (Go (c :: ds ++ dot, true), nextN (length (ds ++ dot)) l) /\
    forallb isDigit ds = true /\ ahead (ds ++ dot) l = true /\
    ((dot = [] /\ isDigit (ch (nextN (length (ds ++ dot)) l)) = false) \/
     dot = [c_dot]).
Proof.
  intros Hc Hf. unfold scanIntPart. cbv zeta.
  assert (Hnd : negb (c =? 46) = true) by (unfold isDigit in Hc; lia).
  rewrite Hnd.
  destruct (digits_run fuel [c] l Hf) as (ds & E & Hd & Ha & Hend).
  rewrite (bind_Go _ _ _ _ _ E), bind_getCh.
  destruct (Z.eqb_spec (ch (nextN (length ds) l)) 46) as [Hdot|Hdot].
  - exists ds, [46]. rewrite bind_appendCh, Hdot. unfold ret.
    rewrite length_app, nextN_add, ahead_app, Ha. simpl.
    rewrite Hdot. simpl. auto.
  - exists ds, []. rewrite bind_ret. unfold ret.
    rewrite !app_nil_r. simpl. auto 6.
Qed.

Lemma scanIntPart_dot fuel l :
  scanIntPart fuel c_dot l = Some (Go ([c_dot], false), l).
Proof. reflexivity. Qed.

(** A number that starts with a digit. *)
Lemma scanNumber_digit fuel c l :
  isDigit c = true -> (mu l < fuel)%nat ->
  exists rest,
    scanNumber fuel c l =
    Some (Go (NUMBER, StringOfRunes (c :: rest)), nextN (length rest) l) /\
    numberShape (c :: rest) /\ ahead rest l = true.
Proof.
  intros Hc Hf. unfold scanNumber.
  destruct (scanIntPart_run fuel c l Hc Hf)
    as (ds & dot & E1 & Hd & Ha1 & Hdot).
  rewrite (bind_Go _ _ _ _ _ E1).
  set (x1 := nextN (length (ds ++ dot)) l) in *.
  assert (Hf1 : (mu x1 < fuel)%nat)
    by (subst x1; pose proof (nextN_mu_le (length (ds ++ dot)) l); lia).
  destruct (scanFracDigits_run fuel (c :: ds ++ dot, true) x1 Hf1)
    as (fr & E2 & Hfr & Ha2 & Hend2).
  rewrite (bind_Go _ _ _ _ _ E2). cbn [fst snd].
  replace (match fr with [] => true | _ => true end) with true
    by (destruct fr; reflexivity).
  cbn [negb]. rewrite bind_ret.
  set (x2 := nextN (length fr) x1) in *.
  assert (Hf2 : (mu x2 < fuel)%nat)
    by (subst x2; pose proof (nextN_mu_le (length fr) x1); lia).
  destruct (scanExponent_run fuel ((c :: ds ++ dot) ++ fr) x2 Hf2)
    as (ex & E3 & Hex & Ha3).
  rewrite (bind_Go _ _ _ _ _ E3).
  exists (ds ++ dot ++ fr ++ ex).
  split; [|split].
  - unfold ret. subst x2 x1. rewrite <- !nextN_add.
    repeat rewrite length_app. repeat rewrite <- app_assoc.
    simpl. repeat rewrite <- app_assoc. rewrite !Nat.add_assoc. reflexivity.
  - exists (c :: ds), dot, fr, ex.
    split; [reflexivity|].
    split; [simpl; rewrite Hc, Hd; reflexivity|].
    split; [destruct Hdot as [[-> _]| ->]; auto|].
    split; [exact Hfr|].
    split; [|split; [left; discriminate | exact Hex]].
    intros ->. destruct Hdot as [[_ Hnd]|Hdot]; [|discriminate].
    apply (digits_nil_ahead fr x1); assumption.
  - rewrite app_assoc, ahead_app, Ha1. fold x1.
    rewrite ahead_app, Ha2. fold x2. rewrite Ha3. reflexivity.
Qed.

(** A number that starts with a point followed by a digit. *)
Lemma scanNumber_dot fuel l :
  isDigit (ch l) = true -> (mu l < fuel)%nat ->
  exists rest,
    scanNumber fuel c_dot l =
    Some (Go (NUMBER, StringOfRunes (c_dot :: rest)),
          nextN (length rest) l) /\
    numberShape (c_dot :: rest) /\ ahead rest l = true.
Proof.
  intros Hc Hf. unfold scanNumber.
  rewrite (bind_Go _ _ _ _ _ (scanIntPart_dot fuel l)).
  destruct (scanFracDigits_run fuel ([46], false) l Hf)
    as (fr & E2 & Hfr & Ha2 & Hend2).
  rewrite (bind_Go _ _ _ _ _ E2). cbn [fst snd].
  destruct fr as [|d fr]; [simpl in Hend2; congruence|].
  cbn [negb]. rewrite bind_ret.
  set (x2 := nextN (length (d :: fr)) l) in *.
  assert (Hf2 : (mu x2 < fuel)%nat)
    by (subst x2; pose proof (nextN_mu_le (length (d :: fr)) l); lia).
  destruct (scanExponent_run fuel ([46] ++ d :: fr) x2 Hf2)
    as (ex & E3 & Hex & Ha3).
  rewrite (bind_Go _ _ _ _ _ E3).
  exists ((d :: fr) ++ ex).
  split; [|split].
  - unfold ret. subst x2. rewrite <- nextN_add, length_app.
    rewrite <- app_assoc. reflexivity.
  - exists [], [46], (d :: fr), ex.
    split; [reflexivity|]. split; [reflexivity|].
    split; [right; reflexivity|]. split; [exact Hfr|].
    split; [discriminate|]. split; [right; discriminate | exact Hex].
  - rewrite ahead_app, Ha2. fold x2. rewrite Ha3. reflexivity.
Qed.

(** A point that no digit follows. *)
Lemma scanNumber_nodigit fuel l :
  isDigit (ch l) = false ->
  scanNumber (S fuel) c_dot l =
  Some (Return (pos l, ILLEGAL, Str "expected digits"), l).
Proof.
  intros Hc. unfold scanNumber.
  rewrite (bind_Go _ _ _ _ _ (scanIntPart_dot (S fuel) l)).
  unfold scanFracDigits.
  rewrite (bind_Go _ _ _ _ _ (while_exit fuel _ _ _ _ Hc)).
  reflexivity.
Qed.

Lemma scanSwitch_number fuel c :
  isDigit c || (c =? c_dot) = true ->
  scanSwitch fuel c = scanNumber fuel c.
Proof.
  intros H.
  assert (Hc : 48 <= c <= 57 \/ c = 46) by (unfold isDigit in H; lia).
  unfold scanSwitch. cbv zeta.
  repeat match goal with
         | |- context [c =? ?k] =>
           destruct (Z.eqb_spec c k); [exfalso; lia|]
         end.
  rewrite H. reflexivity.
Qed.

(* ----------------------------------------------------------------- *)
(** *** The text of a number, from the characters ahead *)

(** The characters ahead of the lexer, the one it is at included, up
    to the end of the input or to an invalid byte. *)
Fixpoint charsAhead (n : nat) (l : Lexer) : list rune :=
  match n with
  | O => []
  | S n' => if ch l <? 0 then [] else ch l :: charsAhead n' (next l)
  end.

Definition remaining (l : Lexer) : list rune := charsAhead (mu l) l.

(** The longest run of digits at the head of [rs], and what follows
    it. *)
Fixpoint takeDigits (rs : list rune) : list rune * list rune :=
  match rs with
  | [] => ([], [])
  | r :: rs' =>
    if isDigit r then
      let '(ds, rest) := takeDigits rs' in (r :: ds, rest)
    else ([], rs)
  end.

(** The point at the head of [rs], if there is one, and what follows
    it. *)
Definition takeDot (rs : list rune) : list rune * list rune :=
  match rs with
  | d :: rs' => if d =? c_dot then ([c_dot], rs') else ([], rs)
  | [] => ([], rs)
  end.

(** The exponent at the head of [rs]: [e] or [E], the sign that
    follows if one does, and the digits that follow; nothing when [rs]
    does not start with [e] or [E]. *)
Definition exponentText (rs : list rune) : list rune :=
  match rs with
  | e :: rs1 =>
    if (e =? c_e) || (e =? c_E) then
      match rs1 with
      | s :: rs2 =>
        if (s =? c_plus) || (s =? c_minus)
        then e :: s :: fst (takeDigits rs2)
        else e :: fst (takeDigits rs1)
      | [] => [e]
      end
    else []
  | [] => []
  end.

(** The number at the head of [rs], as the specification describes
    it, each part taken as long as it can be: the digits; the point,
    if one follows; the digits after it; the exponent, if [e] or [E]
    follows. *)
Definition numberText (rs : list rune) : list rune :=
  let '(ip, r1) := takeDigits rs in
  let '(dot, r2) := takeDot r1 in
  let '(fr, r3) := takeDigits r2 in
  ip ++ dot ++ fr ++ exponentText r3.

(** [rs] is all that is ahead of the lexer. *)
Definition covers (rs : list rune) (l : Lexer) : Prop :=
  ahead rs l = true /\ ch (nextN (length rs) l) < 0.

Lemma covers_cons r rs l :
  covers (r :: rs) l -> ch l = r /\ covers rs (next l).
Proof.
  intros [Ha He]. cbn [ahead] in Ha. apply andb_true_iff in Ha.
  destruct Ha as [Hc Ha]. apply Z.eqb_eq in Hc.
  split; [exact Hc|]. split; [exact Ha | exact He].
Qed.

Lemma covers_nil l : covers [] l -> ch l < 0.
Proof. intros [_ He]. exact He. Qed.

Lemma charsAhead_covers n :
  forall l, (mu l <= n)%nat -> covers (charsAhead n l) l.
Proof.
  induction n as [|n IH]; intros l Hn; cbn [charsAhead].
  - split; [reflexivity|]. cbn. unfold mu in Hn.
    destruct (Z.leb_spec 0 (ch l)); lia.
  - destruct (Z.ltb_spec (ch l) 0) as [Hc|Hc].
    + split; [reflexivity | exact Hc].
    + pose proof (next_mu_lt l Hc) as Hlt.
      destruct (IH (next l) ltac:(lia)) as [Ha He].
      split; [cbn [ahead]; rewrite Z.eqb_refl, Ha; reflexivity | exact He].
Qed.

Lemma remaining_covers l : covers (remaining l) l.
Proof. apply charsAhead_covers. lia. Qed.

Lemma remaining_cons l :
  0 <= ch l -> exists rs, remaining l = ch l :: rs /\ covers rs (next l).
Proof.
  intros H0. pose proof (remaining_covers l) as Hc.
  unfold remaining in *.
  assert (Hmu : (1 <= mu l)%nat)
    by (unfold mu; destruct (Z.leb_spec 0 (ch l)); lia).
  destruct (mu l) as [|n]; [lia|]. cbn [charsAhead] in *.
  destruct (Z.ltb_spec (ch l) 0); [lia|].
  eexists. split; [reflexivity|]. apply (covers_cons _ _ _ Hc).
Qed.

Lemma digits_text :
  forall rs fuel runes l,
    covers rs l -> (mu l < fuel)%nat ->
    digits fuel runes l =
    Some (Go (runes ++ fst (takeDigits rs)),
          nextN (length (fst (takeDigits rs))) l) /\
    covers (snd (takeDigits rs)) (nextN (length (fst (takeDigits rs))) l).
Proof.
  unfold digits.
  induction rs as [|r rs IH]; intros fuel runes l Hc Hf;
    (destruct fuel as [|fuel]; [lia|]).
  - apply covers_nil in Hc.
    rewrite while_exit by (unfold isDigit; lia).
    cbn. rewrite app_nil_r. split; [reflexivity|].
    split; [reflexivity | exact Hc].
  - destruct (covers_cons _ _ _ Hc) as [Hr Hc'].
    cbn [takeDigits]. destruct (isDigit r) eqn:Hd.
    + rewrite <- Hr in Hd.
      pose proof (next_mu_lt l (isDigit_nonneg _ Hd)) as Hlt.
      destruct (IH fuel (runes ++ [ch l]) (next l) Hc' ltac:(lia))
        as [E Hc2].
      rewrite (while_step _ _ _ _ _ (runes ++ [ch l]) (next l) Hd eq_refl).
      destruct (takeDigits rs) as [ds rest]. cbn [fst snd length nextN] in *.
      rewrite E, <- app_assoc, Hr. split; [reflexivity | exact Hc2].
    + rewrite while_exit by (rewrite Hr; exact Hd).
      cbn. rewrite app_nil_r. split; [reflexivity | exact Hc].
Qed.

Lemma scanFracDigits_text :
  forall rs fuel st l,
    covers rs l -> (mu l < fuel)%nat ->
    scanFracDigits fuel st l =
    Some (Go (fst st ++ fst (takeDigits rs),
              match fst (takeDigits rs) with [] => snd st | _ => true end),
          nextN (length (fst (takeDigits rs))) l) /\
    covers (snd (takeDigits rs)) (nextN (length (fst (takeDigits rs))) l).
Proof.
  unfold scanFracDigits.
  induction rs as [|r rs IH]; intros fuel st l Hc Hf;
    (destruct fuel as [|fuel]; [lia|]).
  - apply covers_nil in Hc.
    rewrite while_exit by (unfold isDigit; lia).
    cbn. rewrite app_nil_r. split; [destruct st; reflexivity|].
    split; [reflexivity | exact Hc].
  - destruct (covers_cons _ _ _ Hc) as [Hr Hc'].
    cbn [takeDigits]. destruct (isDigit r) eqn:Hd.
    + rewrite <- Hr in Hd.
      pose proof (next_mu_lt l (isDigit_nonneg _ Hd)) as Hlt.
      destruct (IH fuel (fst st ++ [ch l], true) (next l) Hc' ltac:(lia))
        as [E Hc2].
      rewrite (while_step _ _ _ _ _ (fst st ++ [ch l], true) (next l)
                          Hd eq_refl).
      destruct (takeDigits rs) as [ds rest]. cbn [fst snd length nextN] in *.
      rewrite E, <- app_assoc, Hr. split; [|exact Hc2].
      destruct ds; reflexivity.
    + rewrite while_exit by (rewrite Hr; exact Hd).
      cbn. rewrite app_nil_r. split; [destruct st; reflexivity | exact Hc].
Qed.

Lemma scanExponent_text fuel runes l rs :
  covers rs l -> (mu l < fuel)%nat ->
  scanExponent fuel runes l =
  Some (Go (runes ++ exponentText rs), nextN (length (exponentText rs)) l).
Proof.
  intros Hc Hf. unfold scanExponent. rewrite bind_getCh.
  destruct rs as [|e rs1].
  - apply covers_nil in Hc.
    replace ((ch l =? 101) || (ch l =? 69)) with false by lia.
    cbn. rewrite app_nil_r. reflexivity.
  - destruct (covers_cons _ _ _ Hc) as [He Hc1].
    cbn [exponentText]. rewrite He.
    destruct ((e =? 101) || (e =? 69)) eqn:Hm;
      [|cbn; rewrite app_nil_r; reflexivity].
    rewrite bind_appendCh, bind_getCh, He.
    pose proof (next_mu_le l) as Hle.
    destruct rs1 as [|s rs2].
    + apply covers_nil in Hc1.
      replace ((ch (next l) =? 43) || (ch (next l) =? 45)) with false by lia.
      rewrite bind_ret.
      destruct (digits_text [] fuel (runes ++ [e]) (next l)
                            (conj eq_refl Hc1) ltac:(lia)) as [E _].
      rewrite E. cbn. rewrite app_nil_r. reflexivity.
    + destruct (covers_cons _ _ _ Hc1) as [Hs Hc2]. rewrite Hs.
      destruct ((s =? 43) || (s =? 45)) eqn:Hsg.
      * rewrite bind_appendCh, Hs.
        pose proof (next_mu_le (next l)) as Hle'.
        destruct (digits_text rs2 fuel ((runes ++ [e]) ++ [s])
                              (next (next l)) Hc2 ltac:(lia)) as [E _].
        rewrite E, <- !app_assoc. reflexivity.
      * rewrite bind_ret.
        destruct (digits_text (s :: rs2) fuel (runes ++ [e]) (next l)
                              Hc1 ltac:(lia)) as [E _].
        rewrite E, <- !app_assoc. reflexivity.
Qed.

Lemma scanIntPart_text fuel c l rs :
  covers rs l -> (mu l < fuel)%nat -> isDigit c = true ->
  let ds := fst (takeDigits rs) in
  let dot := fst (takeDot (snd (takeDigits rs))) in
  scanIntPart fuel c l =
  Some (Go (c :: ds ++ dot, true), nextN (length (ds ++ dot)) l) /\
  covers (snd (takeDot (snd (takeDigits rs))))
         (nextN (length (ds ++ dot)) l).
Proof.
  intros Hc Hf Hd ds dot. subst ds dot. unfold scanIntPart. cbv zeta.
  replace (negb (c =? 46)) with true by (unfold isDigit in Hd; lia).
  destruct (digits_text rs fuel [c] l Hc Hf) as [E1 Hc1].
  destruct (takeDigits rs) as [ds r1]. cbn [fst snd] in *.
  rewrite (bind_Go _ _ _ _ _ E1), bind_getCh.
  rewrite length_app, nextN_add.
  set (x1 := nextN (length ds) l) in *.
  destruct r1 as [|d r2]; cbn [takeDot].
  - apply covers_nil in Hc1 as Hend.
    replace (ch x1 =? 46) with false by lia.
    rewrite bind_ret. unfold ret. cbn. rewrite app_nil_r.
    split; [reflexivity | exact Hc1].
  - destruct (covers_cons _ _ _ Hc1) as [Hd1 Hc2]. rewrite Hd1.
    destruct (d =? 46) eqn:E46; cbn [fst snd length nextN].
    + apply Z.eqb_eq in E46. rewrite E46 in Hd1.
      rewrite bind_appendCh, Hd1. unfold ret.
      split; [reflexivity | exact Hc2].
    + rewrite bind_ret. unfold ret. rewrite app_nil_r.
      split; [reflexivity | exact Hc1].
Qed.

(** What [scanNumber] returns for the first character [c] and the
    characters [rs] after it. *)
Lemma scanNumber_text fuel c l rs :
  covers rs l -> (mu l < fuel)%nat ->
  isDigit c = true \/ (c = c_dot /\ isDigit (ch l) = true) ->
  exists rest,
    numberText (c :: rs) = c :: rest /\
    scanNumber fuel c l =
    Some (Go (NUMBER, StringOfRunes (c :: rest)), nextN (length rest) l).
Proof.
  intros Hc Hf Hstart. unfold scanNumber, numberText.
  destruct Hstart as [Hd | [-> Hd]].
  - (* digits first *)
    cbn [takeDigits]. rewrite Hd.
    destruct (scanIntPart_text fuel c l rs Hc Hf Hd) as [E1 Hc2].
    rewrite (bind_Go _ _ _ _ _ E1).
    destruct (takeDigits rs) as [ds r1]. cbn [fst snd] in *.
    destruct (takeDot r1) as [dot r2]. cbn [fst snd] in *.
    set (x2 := nextN (length (ds ++ dot)) l) in *.
    assert (Hf2 : (mu x2 < fuel)%nat)
      by (subst x2; pose proof (nextN_mu_le (length (ds ++ dot)) l); lia).
    destruct (scanFracDigits_text r2 fuel (c :: ds ++ dot, true) x2
                                  Hc2 Hf2) as [E3 Hc3].
    rewrite (bind_Go _ _ _ _ _ E3).
    destruct (takeDigits r2) as [fr r3]. cbn [fst snd] in *.
    replace (match fr with [] => true | _ => true end) with true
      by (destruct fr; reflexivity).
    cbn [negb]. rewrite bind_ret.
    set (x3 := nextN (length fr) x2) in *.
    assert (Hf3 : (mu x3 < fuel)%nat)
      by (subst x3; pose proof (nextN_mu_le (length fr) x2); lia).
    rewrite (bind_Go _ _ _ _ _
               (scanExponent_text fuel _ x3 r3 Hc3 Hf3)).
    exists (ds ++ dot ++ fr ++ exponentText r3).
    split; [reflexivity|]. unfold ret.
    subst x3 x2. rewrite <- !nextN_add.
    repeat rewrite length_app. repeat rewrite <- app_assoc.
    cbn [app]. repeat rewrite <- app_assoc.
    rewrite !Nat.add_assoc. reflexivity.
  - (* a point first *)
    cbn [takeDigits takeDot isDigit Z.leb Z.compare Pos.compare
         Pos.compare_cont andb Z.eqb Pos.eqb].
    rewrite (bind_Go _ _ _ _ _ (scanIntPart_dot fuel l)).
    destruct (scanFracDigits_text rs fuel ([46], false) l Hc Hf)
      as [E3 Hc3].
    rewrite (bind_Go _ _ _ _ _ E3).
    assert (Hfr : fst (takeDigits rs) <> []).
    { destruct rs as [|r rs]; [apply covers_nil in Hc;
                               unfold isDigit in Hd; lia|].
      destruct (covers_cons _ _ _ Hc) as [Hr _]. cbn [takeDigits].
      rewrite <- Hr, Hd. destruct (takeDigits rs). discriminate. }
    destruct (takeDigits rs) as [fr r3]. cbn [fst snd] in *.
    destruct fr as [|d fr]; [contradiction|].
    cbn [negb]. rewrite bind_ret.
    set (x3 := nextN (length (d :: fr)) l) in *.
    assert (Hf3 : (mu x3 < fuel)%nat)
      by (subst x3; pose proof (nextN_mu_le (length (d :: fr)) l); lia).
    rewrite (bind_Go _ _ _ _ _
               (scanExponent_text fuel _ x3 r3 Hc3 Hf3)).
    exists ((d :: fr) ++ exponentText r3).
    split; [reflexivity|]. unfold ret.
    subst x3. rewrite <- nextN_add, length_app. reflexivity.
Qed.

(* ================================================================= *)
(** ** C6: numbers *)

Lemma Scan_number_start l :
  isDigit (ch l) || (ch l =? c_dot) = true ->
  Scan l =
  recordTok (runMethod (tv <- scanNumber (fuelOf l) (ch l) ;;
                        return_ (pos l, fst tv, snd tv))
                       (set_hadSpace (next l) false)).
Proof.
  intros H.
  assert (Hc : 48 <= ch l <= 57 \/ ch l = 46) by (unfold isDigit in H; lia).
  rewrite Scan_at by (unfold isSpaceStart; lia).
  unfold tokenAt.
  replace (isNameStart (ch l)) with false by (unfold isNameStart; lia).
  rewrite scanSwitch_number by exact H.
  rewrite next_set_hadSpace. reflexivity.
Qed.

(** C6. With the lexer at a point that no digit follows, [Scan] returns
    [ILLEGAL]. With the lexer at a digit, or at a point that a digit
    follows, [Scan] returns a [NUMBER] token at the position of the
    lexer, and reads the whole number that stands there and no more:
    its text is [numberText] of the characters ahead, that is all the
    digits ahead, then the point if one follows, then all the digits
    that follow, then, if [e] or [E] follows, this mark, the sign [+]
    or [-] if one follows, and all the digits that follow. This text
    has the shape of a number: digits or none, then a point or none
    with digits or none after it, then an exponent or none made of [e]
    or [E], a sign or none, and digits or none. *)
Theorem C6_numbers :
  forall l : Lexer,
    (ch l = c_dot -> isDigit (ch (next l)) = false ->
     Scan l = Some ((pos (next l), ILLEGAL, Str "expected digits"),
                    set_lastTok (set_hadSpace (next l) false) ILLEGAL)) /\
    (isDigit (ch l) = true \/ (ch l = c_dot /\ isDigit (ch (next l)) = true) ->
     let txt := numberText (remaining l) in
     Scan l = Some ((pos l, NUMBER, StringOfRunes txt),
                    set_lastTok
                      (set_hadSpace (nextN (length txt) l) false) NUMBER) /\
     numberShape txt /\ ahead txt l = true).
Proof.
  intros l. split.
  - intros Hc Hn.
    rewrite Scan_number_start by (rewrite Hc; reflexivity).
    rewrite Hc. unfold runMethod, fuelOf.
    rewrite (bind_Return _ _ _ _ _
               (scanNumber_nodigit _ (set_hadSpace (next l) false) Hn)).
    reflexivity.
  - intros H txt. subst txt.
    assert (Hstart : isDigit (ch l) || (ch l =? 46) = true)
      by (destruct H as [-> | [-> _]]; reflexivity).
    assert (H0 : 0 <= ch l) by (unfold isDigit in Hstart; lia).
    set (y := set_hadSpace (next l) false).
    assert (Hf : (mu y < fuelOf l)%nat)
      by (pose proof (next_mu_lt l H0); pose proof (mu_fuelOf l);
          change (mu y) with (mu (next l)); lia).
    destruct (remaining_cons l H0) as (rs & -> & Hcov).
    assert (Hcov' : covers rs y).
    { destruct Hcov as [Ha He]. unfold y. split.
      - rewrite ahead_set_hadSpace. exact Ha.
      - rewrite nextN_set_hadSpace. exact He. }
    assert (Hstart' : isDigit (ch l) = true \/
                      (ch l = c_dot /\ isDigit (ch y) = true))
      by exact H.
    destruct (scanNumber_text (fuelOf l) (ch l) y rs Hcov' Hf Hstart')
      as (rest & -> & E).
    assert (R : exists rest',
      scanNumber (fuelOf l) (ch l) y =
      Some (Go (NUMBER, StringOfRunes (ch l :: rest')),
            nextN (length rest') y) /\
      numberShape (ch l :: rest') /\ ahead rest' y = true).
    { destruct H as [Hd | [Hc Hd]].
      - apply scanNumber_digit; assumption.
      - rewrite Hc. apply scanNumber_dot; assumption. }
    destruct R as (rest' & E' & Hshape & Ha).
    rewrite E in E'. injection E' as Erest _. subst rest'.
    rewrite Scan_number_start by exact Hstart. fold y. unfold runMethod.
    rewrite (bind_Go _ _ _ _ _ E). unfold y in *.
    rewrite nextN_set_hadSpace, ahead_set_hadSpace in *.
    split; [reflexivity|]. split; [exact Hshape|].
    simpl. rewrite Z.eqb_refl, Ha. reflexivity.
Qed.

(** The source [1.5e+10x]: the number is [1.5e+10], and the lexer is
    left at the [x]. The source [1e+]: the number is [1e+], the
    exponent having no digit. The source [. 5]: the point alone is an
    error. *)
Lemma C6_numbers_witness :
  let l := NewLexer (bytes "1.5e+10x") in
  let l1 := NewLexer (bytes "1e+") in
  let l2 := NewLexer (bytes ". 5") in
  (isDigit (ch l) = true \/ (ch l = c_dot /\ isDigit (ch (next l)) = true)) /\
  (isDigit (ch l1) = true \/
   (ch l1 = c_dot /\ isDigit (ch (next l1)) = true)) /\
  ch l2 = c_dot /\ isDigit (ch (next l2)) = false /\
  numberText (remaining l) = runes_of_string "1.5e+10" /\
  numberText (remaining l1) = runes_of_string "1e+" /\
  Scan l = Some ((pos l, NUMBER, StringOfRunes (numberText (remaining l))),
                 set_lastTok
                   (set_hadSpace
                      (nextN (length (numberText (remaining l))) l) false)
                   NUMBER) /\
  ch (nextN (length (numberText (remaining l))) l) = 120 /\
  Scan l1 = Some ((pos l1, NUMBER,
                   StringOfRunes (numberText (remaining l1))),
                  set_lastTok
                    (set_hadSpace
                       (nextN (length (numberText (remaining l1))) l1) false)
                    NUMBER) /\
  (exists l',
      Scan l2 = Some ((mkPosition 1 2, ILLEGAL, Str "expected digits"), l')).
Proof.
  intros l l1 l2.
  assert (H : isDigit (ch l) = true \/
              (ch l = c_dot /\ isDigit (ch (next l)) = true))
    by (left; vm_compute; reflexivity).
  assert (H1 : isDigit (ch l1) = true \/
               (ch l1 = c_dot /\ isDigit (ch (next l1)) = true))
    by (left; vm_compute; reflexivity).
  assert (H2 : ch l2 = c_dot) by (vm_compute; reflexivity).
  assert (H3 : isDigit (ch (next l2)) = false) by (vm_compute; reflexivity).
  split; [exact H|]. split; [exact H1|]. split; [exact H2|].
  split; [exact H3|].
  split; [vm_compute; reflexivity|]. split; [vm_compute; reflexivity|].
  split; [exact (proj1 (proj2 (C6_numbers l) H))|].
  split; [vm_compute; reflexivity|].
  split; [exact (proj1 (proj2 (C6_numbers l1) H1))|].
  rewrite (proj1 (C6_numbers l2) H2 H3). eexists. reflexivity.
Defined.

(* ================================================================= *)
(** ** C7: [HadSpace] *)

(** The state in which [scan] looks for the newline of a line
    continuation: after the backslash, and after a carriage return if
    one follows the backslash. *)
Definition afterBackslash (l : Lexer) : Lexer :=
  if ch (next l) =? c_cr then next (next l) else next l.

(** A blank is ahead: a space, a tab, a carriage return, or a backslash
    and a newline (a line continuation). *)
Definition blankAhead (l : Lexer) : Prop :=
  ch l = c_space \/ ch l = c_tab \/ ch l = c_cr \/
  (ch l = c_backslash /\ ch (afterBackslash l) = c_nl).

(** [Scan] at a backslash that no newline follows. *)
Lemma Scan_bad_continuation l :
  ch l = c_backslash -> ch (afterBackslash l) <> c_nl ->
  Scan l =
  Some ((pos (afterBackslash l), ILLEGAL,
         Str "expected \n after \ line continuation"),
        set_lastTok (set_hadSpace (afterBackslash l) true) ILLEGAL).
Proof.
  intros H Hn. unfold Scan, runMethod, fuelOf.
  change (scan (S (S (length (src l)))) l)
    with (bind (skipSpace (S (S (length (src l)))))
               (fun _ => scanToken (S (S (length (src l)))))
               (set_hadSpace l false)).
  assert (E : skipSpace (S (S (length (src l)))) (set_hadSpace l false) =
              Some (Return (pos (afterBackslash l), ILLEGAL,
                            Str "expected \n after \ line continuation"),
                    set_hadSpace (afterBackslash l) true)).
  { unfold skipSpace. apply while_return.
    - cbn [ch set_hadSpace]. rewrite H. reflexivity.
    - unfold skipSpaceBody, afterBackslash in *.
      unfold bind, setHadSpace, getCh, getPos, next_, ret, return_.
      cbn [ch set_hadSpace]. rewrite H. cbn [Z.eqb Pos.eqb].
      rewrite !next_set_hadSpace. cbn [ch set_hadSpace pos].
      destruct (ch (next l) =? 13); cbn [ch set_hadSpace pos];
        rewrite ?next_set_hadSpace; cbn [ch set_hadSpace pos];
        destruct (Z.eqb_spec (ch (next (next l))) 10);
        destruct (Z.eqb_spec (ch (next l)) 10);
        try contradiction; reflexivity. }
  rewrite (bind_Return _ _ _ _ _ E). reflexivity.
Qed.

(** The source [\x]: a backslash and a letter. *)
Definition strayBackslash : list byte := bytes "\x".

Definition isBlankByte (b : byte) : bool :=
  let c := byteZ b in
  (c =? c_space) || (c =? c_tab) || (c =? c_cr) || (c =? c_nl).

(** C7, counterexample. The source has no space, tab, carriage return
    or newline at all, so that no token is preceded by a blank or by a
    line continuation; yet after the first call of [Scan], which returns
    [ILLEGAL], [HadSpace] returns [true]. *)
Lemma C7_counterexample :
  existsb isBlankByte strayBackslash = false /\
  option_map fst (Scan (NewLexer strayBackslash)) =
  Some (mkPosition 1 2, ILLEGAL,
        Str "expected \n after \ line continuation") /\
  HadSpace (afterScan (NewLexer strayBackslash)) = true.
Proof. vm_compute. repeat split; reflexivity. Qed.

(** C7, as amended. After each call of [Scan], [HadSpace] returns [true]
    if and only if the call began at a space, a tab, a carriage return
    or a backslash, the characters its first loop skips before any
    comment and the token. That is: if and only if a blank or a line
    continuation was ahead and precedes the token, or the call began at
    a backslash that no newline follows, and then failed with the
    [ILLEGAL] token of the bad line continuation. *)
Theorem C7_HadSpace :
  forall (l : Lexer) (r : Result) (l' : Lexer),
    Scan l = Some (r, l') ->
    (HadSpace l' = true <->
     ch l = c_space \/ ch l = c_tab \/ ch l = c_cr \/ ch l = c_backslash) /\
    (HadSpace l' = true <->
     blankAhead l \/
     (ch l = c_backslash /\
      r = (pos (afterBackslash l), ILLEGAL,
           Str "expected \n after \ line continuation"))).
Proof.
  intros l r l' HS.
  destruct (Scan_facts (fun _ => True)) with (l := l)
    as (r0 & l0 & HS0 & _ & _ & Hhs & _); auto.
  rewrite HS in HS0. injection HS0 as -> ->.
  unfold HadSpace. cbn [hadSpace set_lastTok]. rewrite Hhs.
  assert (Hiff : isSpaceStart (ch l) = true <->
                 ch l = 32 \/ ch l = 9 \/ ch l = 13 \/ ch l = 92)
    by (unfold isSpaceStart; lia).
  split; [exact Hiff|]. rewrite Hiff. unfold blankAhead. split.
  - intros [H|[H|[H|H]]]; auto.
    destruct (Z.eq_dec (ch (afterBackslash l)) 10) as [Hn|Hn]; [auto 6|].
    right. split; [exact H|].
    rewrite (Scan_bad_continuation l H Hn) in HS.
    injection HS as <- _. reflexivity.
  - intros [[H|[H|[H|[H _]]]]|[H _]]; auto.
Qed.

(** The source [f (x)]: the parenthesis that follows the name has a
    space before it. *)
Lemma C7_HadSpace_witness :
  let l := afterScan (NewLexer (bytes "f (x)")) in
  let r := (mkPosition 1 3, LPAREN, Str "") in
  Scan l = Some (r, afterScan l) /\
  ch l = c_space /\ HadSpace (afterScan l) = true.
Proof.
  intros l r.
  assert (HS : Scan l = Some (r, afterScan l)) by (vm_compute; reflexivity).
  split; [exact HS|]. split; [vm_compute; reflexivity|].
  apply (proj1 (C7_HadSpace l r (afterScan l) HS)).
  left. vm_compute. reflexivity.
Defined.

(* ================================================================= *)
(** ** C8: lexical errors *)

(** [utf8.Valid]: decoding rune after rune never meets an invalid
    byte. *)
Fixpoint validFrom (fuel : nat) (p : list byte) : bool :=
  match p with
  | [] => true
  | _ =>
    match fuel with
    | O => true
    | S fuel' =>
      let '(r, size) := DecodeRune p in
      if (r =? RuneError) && (size =? 1)%nat then false
      else validFrom fuel' (skipn size p)
    end
  end.

Definition utf8Valid (p : list byte) : bool := validFrom (length p) p.

Lemma byteZ_nonneg b : 0 <= byteZ b.
Proof. unfold byteZ. lia. Qed.

Lemma DecodeRune_nonneg p : 0 <= fst (DecodeRune p).
Proof.
  unfold DecodeRune. destruct p as [|b0 p]; [cbn; unfold RuneError; lia|].
  pose proof (byteZ_nonneg b0).
  repeat match goal with
         | |- context [if ?c then _ else _] => destruct c
         end;
    cbn [fst]; try (unfold RuneError; lia);
    repeat (apply Z.lor_nonneg; split);
    try apply Z.shiftl_nonneg; apply Z.land_nonneg; right; lia.
Qed.

(** The invariant of a lexer whose source has an invalid byte ahead:
    it cannot be at the end of the input without an error message. *)
Definition invalidAhead (l : Lexer) : Prop :=
  (exists fuel, validFrom fuel (skipn (offset l) (src l)) = false) /\
  (ch l < 0 -> isEmpty (errorMsg l) = false).

(** The three ways of [next]: the end of the input, an invalid byte,
    a character. *)
Lemma next_cases l :
  (skipn (offset l) (src l) = [] /\ ch (next l) = -1 /\
   offset (next l) = offset l /\ errorMsg (next l) = errorMsg l) \/
  (fst (DecodeRune (skipn (offset l) (src l))) = RuneError /\
   ch (next l) = -1 /\ offset (next l) = offset l /\
   isEmpty (errorMsg (next l)) = false) \/
  (skipn (offset l) (src l) <> [] /\
   fst (DecodeRune (skipn (offset l) (src l))) <> RuneError /\
   ch (next l) = fst (DecodeRune (skipn (offset l) (src l))) /\
   offset (next l) =
   (offset l + snd (DecodeRune (skipn (offset l) (src l))))%nat /\
   errorMsg (next l) = errorMsg l).
Proof.
  unfold next. cbn [offset src set_pos].
  pose proof (DecodeRune_size (skipn (offset l) (src l))) as [_ Hz].
  destruct (DecodeRune (skipn (offset l) (src l))) as [r size].
  cbn [fst snd] in *.
  destruct (Nat.eqb_spec size 0) as [E|E].
  - left. cbn. tauto.
  - destruct (Z.eqb_spec r RuneError) as [Er|Er].
    + right; left. cbn. auto.
    + right; right.
      assert (skipn (offset l) (src l) <> []) by tauto.
      destruct (r =? 10); cbn; auto.
Qed.

Lemma invalidAhead_next l : invalidAhead l -> invalidAhead (next l).
Proof.
  intros [[fuel Hv] Hm]. unfold invalidAhead. rewrite next_src.
  pose proof (DecodeRune_nonneg (skipn (offset l) (src l))) as Hnn.
  destruct (next_cases l)
    as [(Hnil & _)|[(Hr & Hc & Ho & He)|(Hne & Hr & Hc & Ho & He)]].
  - rewrite Hnil in Hv. destruct fuel; discriminate.
  - rewrite Ho. split; [exists fuel; exact Hv | auto].
  - rewrite Ho, Hc. split; [|lia].
    rewrite <- (Nat.add_comm _ (offset l)), <- skipn_skipn.
    destruct (skipn (offset l) (src l)) as [|b rem]; [contradiction|].
    destruct fuel as [|fuel]; [discriminate|].
    cbn [validFrom] in Hv.
    destruct (DecodeRune (b :: rem)) as [r size]. cbn [fst snd] in *.
    destruct (Z.eqb_spec r RuneError); [contradiction|].
    exists fuel. exact Hv.
Qed.

Lemma invalidAhead_set_hadSpace l b :
  invalidAhead l -> invalidAhead (set_hadSpace l b).
Proof. exact (fun H => H). Qed.

Lemma invalidAhead_NewLexer s :
  utf8Valid s = false -> invalidAhead (NewLexer s).
Proof.
  intros H. apply invalidAhead_next. split.
  - exists (length s). exact H.
  - cbn. lia.
Qed.

(** Calling [Scan] until it returns [EOF] or [ILLEGAL], as the package
    documentation tells to: the last result. *)
Fixpoint scanToEnd (n : nat) (l : Lexer) : option Result :=
  match n with
  | O => None
  | S n' =>
    match Scan l with
    | Some (r, l') =>
      match tokOf r with
      | EOF | ILLEGAL => Some r
      | _ => scanToEnd n' l'
      end
    | None => None
    end
  end.

Lemma Scan_invalidAhead l r l' :
  invalidAhead l -> Scan l = Some (r, l') ->
  invalidAhead l' /\ tokOf r <> EOF /\
  (tokOf r = ILLEGAL \/ (mu l' < mu l)%nat).
Proof.
  intros Hi HS.
  destruct (Scan_facts invalidAhead invalidAhead_next
                       invalidAhead_set_hadSpace l Hi)
    as (r0 & l0 & HS0 & Hi0 & _ & _ & _ & _ & _ & _ & Heof & _ & Hmu).
  rewrite HS in HS0. injection HS0 as <- ->.
  split; [exact Hi0|].
  assert (Hne : tokOf r <> EOF).
  { intros E. destruct (Heof E) as [Hc He].
    destruct Hi0 as [_ Hm]. rewrite (Hm Hc) in He. discriminate. }
  split; [exact Hne|].
  change (mu (set_lastTok l0 (tokOf r))) with (mu l0).
  destruct Hmu as [?|[?|?]]; auto. contradiction.
Qed.

Lemma scanToEnd_invalidAhead n :
  forall l,
    invalidAhead l -> (mu l < n)%nat ->
    exists r, scanToEnd n l = Some r /\ tokOf r = ILLEGAL.
Proof.
  induction n as [|n IH]; intros l Hi Hn; [lia|].
  destruct (Scan_facts invalidAhead invalidAhead_next
                       invalidAhead_set_hadSpace l Hi)
    as (r & l0 & HS & _).
  destruct (Scan_invalidAhead l r _ Hi HS) as (Hi' & Hne & Hmu).
  cbn [scanToEnd]. rewrite HS.
  destruct (Token_eq_dec (tokOf r) ILLEGAL) as [E|E].
  - exists r. rewrite E. auto.
  - destruct Hmu as [?|Hmu]; [contradiction|].
    destruct (IH _ Hi' ltac:(lia)) as (r' & E' & Ht').
    exists r'. split; [|exact Ht'].
    destruct (tokOf r); try exact E'; contradiction.
Qed.

(** The characters a token can start with, besides the letters and the
    digits. *)
Definition tokenStarts : list rune :=
  [c_nl; c_colon; c_comma; c_slash; c_lbrace; c_lbracket; c_lparen;
   c_minus; c_percent; c_plus; c_rbrace; c_rbracket; c_rparen; c_star;
   c_eq; c_caret; c_bang; c_lt; c_gt; c_tilde; c_question; c_semi;
   c_dollar; c_amp; c_bar; c_dot; c_dquote; c_squote].

(** A character that starts nothing: no blank, no comment, no name, no
    number and none of [tokenStarts]. *)
Definition isIllegalChar (c : rune) : bool :=
  (0 <=? c) && negb (isSpaceStart c) && negb (c =? c_hash) &&
  negb (isNameStart c) && negb (isDigit c) &&
  negb (existsb (Z.eqb c) tokenStarts).

Lemma Scan_illegal_char l :
  isIllegalChar (ch l) = true ->
  Scan l =
  Some ((pos l, ILLEGAL, Sprintf "unexpected %q" [ArgRune (ch l)]),
        set_lastTok (set_hadSpace (next l) false) ILLEGAL).
Proof.
  intros H. unfold isIllegalChar, tokenStarts in H. cbn [existsb] in H.
  repeat (apply andb_true_iff in H; destruct H as [H ?]).
  repeat match goal with
         | Hb : negb _ = true |- _ => apply negb_true_iff in Hb
         end.
  assert (Hs : isSpaceStart (ch l) = false) by assumption.
  assert (Hn : isNameStart (ch l) = false) by assumption.
  assert (Hd : isDigit (ch l) = false) by assumption.
  rewrite Scan_at by (assumption || lia).
  unfold tokenAt. rewrite Hn. unfold scanSwitch. cbv zeta.
  repeat match goal with
         | |- context [ch l =? ?k] =>
           destruct (Z.eqb_spec (ch l) k); [exfalso; lia|]
         end.
  rewrite Hd, next_set_hadSpace. reflexivity.
Qed.

Lemma Scan_lone_ampersand l :
  ch l = c_amp -> ch (next l) <> c_amp ->
  Scan l =
  Some ((pos (next l), ILLEGAL,
         Sprintf "unexpected %q after '&'" [ArgRune (ch (next l))]),
        set_lastTok (set_hadSpace (next l) false) ILLEGAL).
Proof.
  intros H Hn. rewrite Scan_at by (rewrite H; (reflexivity || lia)).
  rewrite H, next_set_hadSpace. unfold tokenAt, runMethod.
  cbn [isNameStart Z.eqb Z.leb Z.compare Pos.compare Pos.compare_cont
       Pos.eqb andb orb scanSwitch isDigit negb].
  unfold choice, bind, getCh, getPos, next_, ret, return_.
  cbn [ch set_hadSpace pos].
  destruct (Z.eqb_spec (ch (next l)) 38); [contradiction | reflexivity].
Qed.

(** [Scan] where [next] has met an invalid byte. *)
Lemma Scan_error_message l :
  ch l < 0 -> isEmpty (errorMsg l) = false ->
  Scan l = Some ((pos l, ILLEGAL, errorMsg l),
                 set_lastTok (set_hadSpace l false) ILLEGAL).
Proof.
  intros Hc He. unfold Scan, runMethod, fuelOf.
  change (scan (S (S (length (src l)))) l)
    with (bind (skipSpace (S (S (length (src l)))))
               (fun _ => scanToken (S (S (length (src l)))))
               (set_hadSpace l false)).
  rewrite (bind_Go _ _ _ _ _
             (skipSpace_none _ (set_hadSpace l false)
                ltac:(cbn [ch set_hadSpace]; unfold isSpaceStart; lia))).
  unfold scanToken.
  rewrite (bind_Go _ _ _ _ _
             (skipComment_none _ (set_hadSpace l false)
                ltac:(cbn [ch set_hadSpace]; lia))).
  unfold bind, getCh, getErrorMsg, getPos, return_.
  cbn [ch errorMsg set_hadSpace pos].
  destruct (Z.ltb_spec (ch l) 0); [|lia].
  change (errorMsg (set_hadSpace l false)) with (errorMsg l).
  rewrite He. reflexivity.
Qed.

(** What [next] does at an invalid byte. *)
Lemma next_invalid_byte l n :
  DecodeRune (skipn (offset l) (src l)) = (RuneError, S n) ->
  ch (next l) = -1 /\
  errorMsg (next l) =
  Sprintf "invalid UTF-8 byte 0x%02x" [ArgByte (nth (offset l) (src l) x00)].
Proof.
  intros H. unfold next. cbn [offset src set_pos]. rewrite H.
  cbn. auto.
Qed.

Lemma ScanRegex_invalidAhead l r l' :
  invalidAhead l -> ScanRegex l = Some (r, l') -> invalidAhead l'.
Proof.
  intros Hi HS.
  destruct (ScanRegex_facts invalidAhead invalidAhead_next l Hi)
    as (r0 & l0 & HS0 & Hi0 & _).
  rewrite HS in HS0. injection HS0 as <- ->. exact Hi0.
Qed.

Lemma reachable_invalidAhead s l :
  utf8Valid s = false -> reachable s l -> invalidAhead l.
Proof.
  intros Hv H. induction H as [|l c r l' _ IH Hc].
  - apply invalidAhead_NewLexer, Hv.
  - destruct c; cbn in Hc.
    + eapply Scan_invalidAhead; [exact IH | exact Hc].
    + eapply ScanRegex_invalidAhead; [exact IH | exact Hc].
Qed.

(** Every [ILLEGAL] token of [Scan] and of [ScanRegex] carries a
    message and a position. *)
Lemma illegal_message_position c l r l' :
  posInv l -> call c l = Some (r, l') -> tokOf r = ILLEGAL ->
  isEmpty (valOf r) = false /\ 1 <= Line (posOf r) /\ 1 <= Column (posOf r).
Proof.
  intros Hi Hc Ht. destruct c; cbn in Hc.
  - destruct (Scan_facts posInv posInv_next posInv_set_hadSpace l Hi)
      as (r0 & l0 & HS0 & _ & _ & _ & Hseen & _ & _ & _ & _ & Hmsg & _).
    rewrite Hc in HS0. injection HS0 as <- _.
    split; [apply Hmsg, Ht | apply posInv_seen, Hseen].
  - destruct (ScanRegex_facts posInv posInv_next l Hi)
      as (r0 & l0 & HS0 & _ & _ & _ & Hfacts).
    rewrite Hc in HS0. injection HS0 as <- _.
    destruct Hfacts as [(Hs & _ & Hm)|(Hr & _)];
      [|rewrite Ht in Hr; discriminate].
    split; [exact Hm | apply posInv_seen, Hs].
Qed.

(** The source [/abc]. *)
Definition openRegex : Lexer := NewLexer (bytes "/abc").

(** C8, counterexample. The regex of the source [/abc] has no closing
    slash. The calls of [Scan] return [DIV], a [NAME] and [EOF], and no
    [ILLEGAL] token; the error is reported by [ScanRegex], called after
    the [DIV]. *)
Lemma C8_counterexample :
  map (fun x => tokOf (fst x)) (scanN 3 openRegex) = [DIV; NAME; EOF] /\
  option_map tokOf (scanToEnd 3 openRegex) = Some EOF /\
  option_map fst (ScanRegex (afterScan openRegex)) =
  Some (mkPosition 1 5, ILLEGAL, Str "didn't find end slash in regex").
Proof. vm_compute. repeat split; reflexivity. Qed.

(** C8, as amended. [Scan], and [ScanRegex] for a regex, report the
    lexical errors as [ILLEGAL] tokens that carry a message and a
    position: a string literal that the end of the input leaves open,
    be it after a last backslash ([Scan]); a regex literal that the end
    of the input leaves open, likewise ([ScanRegex]); an invalid UTF-8
    byte, for which [next] records the message that [Scan] returns; an
    ampersand that no second ampersand follows; a character that starts
    nothing. The message of every
    [ILLEGAL] token is not empty and its position is 1-based. For every
    source with an invalid UTF-8 byte, no call of [Scan] returns [EOF],
    and calling [Scan] until it returns [EOF] or [ILLEGAL] ends with
    [ILLEGAL]. *)
Theorem C8_lexical_errors :
  (forall c l r l',
      posInv l -> call c l = Some (r, l') -> tokOf r = ILLEGAL ->
      isEmpty (valOf r) = false /\
      1 <= Line (posOf r) /\ 1 <= Column (posOf r)) /\
  (forall q l items,
      q = c_dquote \/ q = c_squote -> ch l = q ->
      Forall (itemOk q) items ->
      ahead (srcOf items) (next l) = true ->
      let x := nextN (length (srcOf items)) (next l) in
      (ch x < 0 ->
       exists l',
         Scan l = Some ((pos x, ILLEGAL,
                         Str "didn't find end quote in string"), l')) /\
      (ch x = c_backslash -> ch (next (next x)) < 0 ->
       exists l',
         Scan l = Some ((pos (next (next x)), ILLEGAL,
                         Str "didn't find end quote in string"), l'))) /\
  (forall l items,
      lastTok l = DIV \/ lastTok l = DIV_ASSIGN ->
      Forall (itemOk c_slash) items ->
      ahead (srcOf items) l = true ->
      let x := nextN (length (srcOf items)) l in
      (ch x < 0 ->
       exists l',
         ScanRegex l = Some ((pos x, ILLEGAL,
                              Str "didn't find end slash in regex"), l')) /\
      (ch x = c_backslash -> ch (next (next x)) < 0 ->
       exists l',
         ScanRegex l = Some ((pos (next (next x)), ILLEGAL,
                              Str "didn't find end slash in regex"), l'))) /\
  (forall l n,
      DecodeRune (skipn (offset l) (src l)) = (RuneError, S n) ->
      exists l',
        Scan (next l) =
        Some ((pos (next l), ILLEGAL,
               Sprintf "invalid UTF-8 byte 0x%02x"
                       [ArgByte (nth (offset l) (src l) x00)]), l')) /\
  (forall l,
      ch l = c_amp -> ch (next l) <> c_amp ->
      exists l',
        Scan l = Some ((pos (next l), ILLEGAL,
                        Sprintf "unexpected %q after '&'"
                                [ArgRune (ch (next l))]), l')) /\
  (forall l,
      isIllegalChar (ch l) = true ->
      exists l',
        Scan l = Some ((pos l, ILLEGAL,
                        Sprintf "unexpected %q" [ArgRune (ch l)]), l')) /\
  (forall s,
      utf8Valid s = false ->
      (forall l r l',
          reachable s l -> Scan l = Some (r, l') -> tokOf r <> EOF) /\
      exists r,
        scanToEnd (fuelOf (NewLexer s)) (NewLexer s) = Some r /\
        tokOf r = ILLEGAL /\ isEmpty (valOf r) = false).
Proof.
  split; [exact illegal_message_position|].
  split; [|split; [|split; [|split; [|split]]]].
  - intros q l items Hq H Hok Ha x. split.
    + intros Hx. rewrite (Scan_string_end q items l Hq H Hok Ha Hx).
      eexists. reflexivity.
    + intros Hx Hend.
      rewrite (Scan_string_end_escape q items l Hq H Hok Ha Hx Hend).
      eexists. reflexivity.
  - intros l items Ht Hok Ha x. split.
    + intros Hx. rewrite (ScanRegex_end items l Ht Hok Ha Hx).
      eexists. reflexivity.
    + intros Hx Hend.
      rewrite (ScanRegex_end_escape items l Ht Hok Ha Hx Hend).
      eexists. reflexivity.
  - intros l n Hd. destruct (next_invalid_byte l n Hd) as [Hc He].
    rewrite Scan_error_message by (rewrite ?Hc, ?He; (reflexivity || lia)).
    rewrite He. eexists. reflexivity.
  - intros l H Hn. rewrite (Scan_lone_ampersand l H Hn).
    eexists. reflexivity.
  - intros l H. rewrite (Scan_illegal_char l H). eexists. reflexivity.
  - intros s Hv. split.
    + intros l r l' Hr HS.
      apply (Scan_invalidAhead l r l' (reachable_invalidAhead s l Hv Hr) HS).
    + pose proof (invalidAhead_NewLexer s Hv) as Hi.
      destruct (scanToEnd_invalidAhead (fuelOf (NewLexer s)) (NewLexer s) Hi
                                       (mu_fuelOf _))
        as (r & E & Ht).
      exists r. split; [exact E|]. split; [exact Ht|].
      (* the message *)
      clear Hv Hi.
      revert E. generalize (fuelOf (NewLexer s)). generalize (NewLexer s).
      intros l n. revert l.
      induction n as [|n IH]; intros l E; [discriminate|].
      cbn [scanToEnd] in E.
      destruct (Scan_facts (fun _ => True)) with (l := l)
        as (r0 & l0 & HS & _ & _ & _ & _ & _ & _ & _ & _ & Hmsg & _); auto.
      rewrite HS in E.
      destruct (Token_eq_dec (tokOf r0) ILLEGAL) as [E0|E0].
      * rewrite E0 in E. injection E as <-. auto.
      * destruct (Token_eq_dec (tokOf r0) EOF) as [E1|E1].
        -- rewrite E1 in E. injection E as <-. congruence.
        -- apply (IH (set_lastTok l0 (tokOf r0))).
           destruct (tokOf r0); try exact E; contradiction.
Qed.

(** The source [a], a space, and the byte [0xff]: the second call of
    [Scan] returns [ILLEGAL] with the message of the invalid byte. *)
Lemma C8_lexical_errors_witness :
  let s := [x61; x20; xff] in
  utf8Valid s = false /\
  exists r,
    scanToEnd (fuelOf (NewLexer s)) (NewLexer s) = Some r /\
    tokOf r = ILLEGAL /\ isEmpty (valOf r) = false.
Proof.
  intros s.
  assert (Hv : utf8Valid s = false) by (vm_compute; reflexivity).
  split; [exact Hv|].
  destruct C8_lexical_errors as (_ & _ & _ & _ & _ & _ & Hutf).
  exact (proj2 (Hutf s Hv)).
Defined.

(* ================================================================= *)
(** * Further properties of the lexer and of the driver *)

(* ================================================================= *)
(** ** The end of the input *)

(** The token that starts at a character is never [EOF]. *)
Lemma tokenAt_not_EOF fuel p c l r l' :
  (mu l < fuel)%nat ->
  runMethod (tokenAt fuel p c) l = Some (r, l') -> tokOf r <> EOF.
Proof.
  intros Hf. unfold runMethod, tokenAt.
  destruct (isNameStart c).
  - unfold scanName.
    destruct (nameLoop_reads (fun _ => True) (fun _ _ => I) fuel [c] l I Hf)
      as (y & l1 & Hm & _ & _ & Hy).
    destruct y as [runes|r0].
    + rewrite (bind_Go _ _ _ _ _ Hm).
      destruct (keywordTokens runes) as [t|] eqn:Hk; cbn;
        intros H; injection H as <- <-; cbn; [|discriminate].
      apply keywordTokens_kind in Hk. tauto.
    + rewrite (bind_Return _ _ _ _ _ Hm). intros H. injection H as <- <-.
      destruct Hy as (_ & Ht & _). rewrite Ht. discriminate.
  - destruct (scanSwitch_reads (fun _ => True) (fun _ _ => I) fuel c l I Hf)
      as (y & l1 & Hm & _ & _ & Hy).
    destruct y as [tv|r0].
    + rewrite (bind_Go _ _ _ _ _ Hm). cbn.
      intros H. injection H as <- <-. cbn. apply Hy.
    + rewrite (bind_Return _ _ _ _ _ Hm). intros H. injection H as <- <-.
      destruct Hy as (_ & Ht & _). rewrite Ht. discriminate.
Qed.

(** [EOF] is returned at the position where the lexer stays. *)
Lemma scanToken_EOF fuel l r l' :
  (mu l < fuel)%nat ->
  runMethod (scanToken fuel) l = Some (r, l') -> tokOf r = EOF ->
  r = (pos l', EOF, Str "") /\ ch l' < 0 /\ isEmpty (errorMsg l') = true.
Proof.
  intros Hf. unfold runMethod, scanToken.
  destruct (skipComment_reads (fun _ => True) (fun _ _ => I) fuel l I Hf)
    as (y & l1 & Hm & _ & Hmu & Hy).
  destruct y as [[]|r0].
  - rewrite (bind_Go _ _ _ _ _ Hm).
    unfold bind at 1. unfold getCh at 1.
    destruct (Z.ltb_spec (ch l1) 0) as [Hc|Hc].
    + unfold bind, getErrorMsg, getPos, return_.
      destruct (isEmpty (errorMsg l1)) eqn:He; cbn;
        intros H; injection H as <- <-; [auto | discriminate].
    + intros H Ht. exfalso.
      assert (Hlt : (mu (next l1) < fuel)%nat)
        by (pose proof (next_mu_le l1); lia).
      apply (tokenAt_not_EOF fuel (pos l1) (ch l1) (next l1) r l' Hlt);
        [|exact Ht].
      exact H.
  - rewrite (bind_Return _ _ _ _ _ Hm). intros H. injection H as <- <-.
    destruct Hy as (_ & Ht & _). rewrite Ht. discriminate.
Qed.

Lemma Scan_EOF_result l r l' :
  Scan l = Some (r, l') -> tokOf r = EOF ->
  r = (pos l', EOF, Str "") /\ ch l' < 0 /\ isEmpty (errorMsg l') = true.
Proof.
  unfold Scan. pose proof (mu_fuelOf l) as Hf.
  change (scan (fuelOf l))
    with (bind (setHadSpace false)
               (fun _ => bind (skipSpace (fuelOf l))
                              (fun _ => scanToken (fuelOf l)))).
  unfold runMethod, bind at 1. unfold setHadSpace.
  destruct (skipSpace_reads (fun _ => True) (fun _ _ => I) (fun _ _ _ => I)
                            (fuelOf l) l I Hf)
    as (y & l1 & Hm & _ & Hmu & Hy).
  assert (E : skipSpace (fuelOf l) (set_hadSpace l false) = Some (y, l1)).
  { rewrite <- Hm. destruct (isSpaceStart (ch l)) eqn:Hc;
      [apply skipSpace_entered; auto | reflexivity]. }
  change (mu (set_hadSpace l (isSpaceStart (ch l)))) with (mu l) in Hmu.
  destruct y as [[]|r0].
  - rewrite (bind_Go _ _ _ _ _ E).
    pose proof (scanToken_EOF (fuelOf l) l1) as H.
    unfold runMethod in H.
    destruct (scanToken (fuelOf l) l1) as [[[r1|r1] l2]|]; cbn;
      intros H0 Ht; try discriminate; injection H0 as <- <-;
      apply (H r1 l2); auto; lia.
  - rewrite (bind_Return _ _ _ _ _ E). cbn. intros H. injection H as <- <-.
    destruct Hy as (_ & Ht & _). rewrite Ht. discriminate.
Qed.

(** [Scan] at the end of the input. *)
Lemma Scan_at_end l :
  ch l < 0 -> isEmpty (errorMsg l) = true ->
  Scan l = Some ((pos l, EOF, Str ""),
                 set_lastTok (set_hadSpace l false) EOF).
Proof.
  intros Hc He. unfold Scan, runMethod, fuelOf.
  change (scan (S (S (length (src l)))) l)
    with (bind (skipSpace (S (S (length (src l)))))
               (fun _ => scanToken (S (S (length (src l)))))
               (set_hadSpace l false)).
  rewrite (bind_Go _ _ _ _ _
             (skipSpace_none _ (set_hadSpace l false)
                ltac:(cbn [ch set_hadSpace]; unfold isSpaceStart; lia))).
  unfold scanToken.
  rewrite (bind_Go _ _ _ _ _
             (skipComment_none _ (set_hadSpace l false)
                ltac:(cbn [ch set_hadSpace]; lia))).
  unfold bind, getCh, getErrorMsg, getPos, return_.
  cbn [ch errorMsg set_hadSpace pos].
  destruct (Z.ltb_spec (ch l) 0); [|lia].
  change (errorMsg (set_hadSpace l false)) with (errorMsg l).
  rewrite He. reflexivity.
Qed.

(** The result of [Scan] when the lexer is at the end of the input or
    at an invalid byte. *)
Definition endResult (l : Lexer) : Result :=
  if isEmpty (errorMsg l) then (pos l, EOF, Str "")
  else (pos l, ILLEGAL, errorMsg l).

Lemma scanN_at_end n :
  forall l, ch l < 0 -> scanN n l = repeat (endResult l, false) n.
Proof.
  induction n as [|n IH]; intros l Hc; [reflexivity|].
  cbn [scanN repeat]. unfold endResult at 1.
  destruct (isEmpty (errorMsg l)) eqn:He.
  - rewrite (Scan_at_end l Hc He). cbn [HadSpace hadSpace set_lastTok
                                        set_hadSpace].
    rewrite IH by exact Hc. unfold endResult. cbn. rewrite He. reflexivity.
  - rewrite (Scan_error_message l Hc He). cbn [HadSpace hadSpace set_lastTok
                                              set_hadSpace].
    rewrite IH by exact Hc. unfold endResult. cbn. rewrite He. reflexivity.
Qed.

(** X2. After [EOF] every further call of [Scan] returns the same [EOF], at
    the same position and with [HadSpace] false; and once [next] has
    met an invalid byte, every call of [Scan] returns the [ILLEGAL]
    token of that byte. *)
Theorem Scan_end_is_final :
  (forall (l : Lexer) (r : Result) (l' : Lexer),
      Scan l = Some (r, l') -> tokOf r = EOF ->
      forall n, scanN n l' = repeat (r, false) n) /\
  (forall l : Lexer,
      ch l < 0 -> isEmpty (errorMsg l) = false ->
      forall n, scanN n l = repeat ((pos l, ILLEGAL, errorMsg l), false) n).
Proof.
  split.
  - intros l r l' HS Ht n.
    destruct (Scan_EOF_result l r l' HS Ht) as (-> & Hc & He).
    rewrite scanN_at_end by exact Hc. unfold endResult. rewrite He.
    reflexivity.
  - intros l Hc He n.
    rewrite scanN_at_end by exact Hc. unfold endResult. rewrite He.
    reflexivity.
Qed.

(** The source [x]: the second call of [Scan] returns [EOF] at line 1,
    column 2, and so do the three calls after it. *)
Lemma Scan_end_is_final_witness :
  let l := afterScan (NewLexer (bytes "x")) in
  let r := (mkPosition 1 2, EOF, Str "") in
  Scan l = Some (r, afterScan l) /\
  scanN 3 (afterScan l) = [(r, false); (r, false); (r, false)].
Proof.
  intros l r.
  assert (HS : Scan l = Some (r, afterScan l)) by (vm_compute; reflexivity).
  split; [exact HS|].
  exact (proj1 Scan_end_is_final l r (afterScan l) HS eq_refl 3%nat).
Defined.

(* ----------------------------------------------------------------- *)
(** *** The token stream is finite *)

Lemma mu_NewLexer s : (mu (NewLexer s) <= length s)%nat.
Proof.
  unfold NewLexer.
  set (l0 := mkLexer s 0 0 (Str "") (mkPosition 0 0) (mkPosition 1 1)
                     false zeroToken).
  pose proof (DecodeRune_size (skipn (offset l0) (src l0))) as [Hle Hz].
  pose proof (DecodeRune_nonneg (skipn (offset l0) (src l0))) as Hnn.
  destruct (next_cases l0)
    as [(Hnil & Hc & Ho & _)|[(_ & Hc & Ho & _)|(Hne & _ & Hc & Ho & _)]];
    unfold mu; rewrite next_src, Ho, Hc; cbn [src offset l0] in *.
  - cbn in Hnil. subst s. cbn. lia.
  - cbn. lia.
  - cbn [skipn] in *.
    destruct (0 <=? fst (DecodeRune s)); cbn; [|lia].
    destruct s; [contradiction|].
    assert (snd (DecodeRune (b :: s)) <> 0)%nat
      by (intros E; apply Hz in E; discriminate).
    cbn [length] in *. lia.
Qed.

Lemma scanToEnd_ends n :
  forall l, (mu l < n)%nat ->
    exists r, scanToEnd n l = Some r /\ (tokOf r = EOF \/ tokOf r = ILLEGAL).
Proof.
  induction n as [|n IH]; intros l Hn; [lia|].
  destruct (Scan_facts (fun _ => True)) with (l := l)
    as (r & l0 & HS & _ & _ & _ & _ & _ & _ & _ & _ & _ & Hmu); auto.
  cbn [scanToEnd]. rewrite HS.
  destruct Hmu as [E|[E|Hmu]].
  - exists r. rewrite E. auto.
  - exists r. rewrite E. auto.
  - destruct (IH (set_lastTok l0 (tokOf r))) as (r' & E' & Ht');
      [change (mu (set_lastTok l0 (tokOf r))) with (mu l0); lia|].
    destruct (Token_eq_dec (tokOf r) EOF) as [E|E];
      [exists r; rewrite E; auto|].
    destruct (Token_eq_dec (tokOf r) ILLEGAL) as [E0|E0];
      [exists r; rewrite E0; auto|].
    exists r'. split; [|exact Ht'].
    destruct (tokOf r); try exact E'; contradiction.
Qed.

(** X1. Calling [Scan] until it returns [EOF] or [ILLEGAL] ends for every
    source, after at most one call more than the source has bytes. *)
Theorem Scan_stream_ends :
  forall s : list byte,
    exists r,
      scanToEnd (S (length s)) (NewLexer s) = Some r /\
      (tokOf r = EOF \/ tokOf r = ILLEGAL).
Proof.
  intros s. apply scanToEnd_ends. pose proof (mu_NewLexer s). lia.
Qed.

(* ================================================================= *)
(** ** The lexer and its source *)

(** The lexer reads the source [s] from an offset inside it, and is at
    the end of the input without an error only when it has read all of
    it. *)
Definition srcInv (s : list byte) (l : Lexer) : Prop :=
  src l = s /\ (offset l <= length s)%nat /\
  (ch l < 0 -> isEmpty (errorMsg l) = true -> offset l = length s).

Lemma srcInv_next s l : srcInv s l -> srcInv s (next l).
Proof.
  intros (<- & Ho & _). unfold srcInv. rewrite next_src.
  split; [reflexivity|].
  pose proof (DecodeRune_size (skipn (offset l) (src l))) as [Hle _].
  pose proof (DecodeRune_nonneg (skipn (offset l) (src l))) as Hnn.
  rewrite length_skipn in Hle.
  destruct (next_cases l)
    as [(Hnil & Hc & E & _)|[(_ & _ & E & He)|(_ & _ & Hc & E & _)]];
    rewrite E.
  - split; [exact Ho|]. intros _ _.
    apply (f_equal (@length byte)) in Hnil.
    rewrite length_skipn in Hnil. cbn in Hnil. lia.
  - split; [exact Ho|]. intros _ H. rewrite H in He. discriminate.
  - split; [lia|]. rewrite Hc. lia.
Qed.

Lemma srcInv_set_hadSpace s l b : srcInv s l -> srcInv s (set_hadSpace l b).
Proof. exact (fun H => H). Qed.

Lemma srcInv_NewLexer s : srcInv s (NewLexer s).
Proof.
  apply srcInv_next. unfold srcInv. cbn. repeat split; lia.
Qed.

Lemma call_srcInv s c l r l' :
  srcInv s l -> call c l = Some (r, l') -> srcInv s l'.
Proof.
  intros Hi Hc. destruct c; cbn in Hc.
  - destruct (Scan_facts (srcInv s) (srcInv_next s) (srcInv_set_hadSpace s)
                         l Hi) as (r0 & l0 & HS & Hi0 & _).
    rewrite Hc in HS. injection HS as <- ->. exact Hi0.
  - destruct (ScanRegex_facts (srcInv s) (srcInv_next s) l Hi)
      as (r0 & l0 & HS & Hi0 & _).
    rewrite Hc in HS. injection HS as <- ->. exact Hi0.
Qed.

Lemma reachable_srcInv s l : reachable s l -> srcInv s l.
Proof.
  induction 1 as [|l c r l' _ IH Hc]; [apply srcInv_NewLexer|].
  exact (call_srcInv s c l r l' IH Hc).
Qed.

Lemma nextN_srcInv s n : forall l, srcInv s l -> srcInv s (nextN n l).
Proof.
  induction n as [|n IH]; intros l H; [exact H|].
  apply IH, srcInv_next, H.
Qed.

Lemma next_offset_le l : (offset l <= offset (next l))%nat.
Proof.
  destruct (next_cases l)
    as [(_ & _ & E & _)|[(_ & _ & E & _)|(_ & _ & _ & E & _)]];
    rewrite E; lia.
Qed.

(** X4. Neither [Scan] nor [ScanRegex] changes the source or moves the
    offset backwards; and in a lexer made by [NewLexer] and driven by
    them, the offset stays inside the source, whatever number of calls
    of [next] follows: the slice [l.src[l.offset:]] that [next] decodes
    exists, and so does the byte [l.src[l.offset]] of the message for
    an invalid byte. *)
Theorem lexer_stays_in_source :
  (forall c l r l',
      call c l = Some (r, l') ->
      src l' = src l /\ (offset l <= offset l')%nat) /\
  (forall s l k,
      reachable s l ->
      let x := nextN k l in
      src x = s /\ (offset x <= length s)%nat /\
      (snd (DecodeRune (skipn (offset x) (src x))) <> 0%nat ->
       (offset x < length s)%nat)).
Proof.
  split.
  - intros c l r l' Hc.
    set (Inv := fun x : Lexer => src x = src l /\ (offset l <= offset x)%nat).
    assert (Hn : forall x, Inv x -> Inv (next x)).
    { intros x [Hs Ho]. split; [rewrite next_src; exact Hs|].
      pose proof (next_offset_le x). lia. }
    assert (Hi : Inv l) by (split; [reflexivity | lia]).
    destruct c; cbn in Hc.
    + destruct (Scan_facts Inv Hn (fun _ _ H => H) l Hi)
        as (r0 & l0 & HS & Hi0 & _).
      rewrite Hc in HS. injection HS as <- ->. exact Hi0.
    + destruct (ScanRegex_facts Inv Hn l Hi) as (r0 & l0 & HS & Hi0 & _).
      rewrite Hc in HS. injection HS as <- ->. exact Hi0.
  - intros s l k Hr x.
    destruct (nextN_srcInv s k l (reachable_srcInv s l Hr)) as (Hs & Ho & _).
    fold x in Hs, Ho. split; [exact Hs|]. split; [exact Ho|].
    intros Hsize.
    pose proof (DecodeRune_size (skipn (offset x) (src x))) as [_ Hz].
    assert (Hne : skipn (offset x) (src x) <> []) by tauto.
    assert (Hlen : length (skipn (offset x) (src x)) <> 0%nat)
      by (destruct (skipn (offset x) (src x)); [tauto | discriminate]).
    rewrite length_skipn, Hs in Hlen. lia.
Qed.

(** The source [a b]: the second call of [Scan] leaves the source as it
    is and moves the offset from 2 to 3, the length of the source. *)
Lemma lexer_stays_in_source_witness :
  let s := bytes "a b" in
  let l := afterScan (NewLexer s) in
  reachable s l /\
  src (afterScan l) = s /\ offset l = 2%nat /\ offset (afterScan l) = 3%nat /\
  (offset l <= offset (afterScan l))%nat /\
  (offset (nextN 5 l) <= length s)%nat.
Proof.
  intros s l.
  assert (Hr : reachable s l).
  { apply (reach_call s (NewLexer s) CallScan
                      (mkPosition 1 1, NAME, StringOfRunes [c_a]) l);
      [apply reach_new | vm_compute; reflexivity]. }
  assert (HS : call CallScan l =
               Some ((mkPosition 1 3, NAME, StringOfRunes [98]), afterScan l))
    by (vm_compute; reflexivity).
  destruct lexer_stays_in_source as [Hcall Hreach].
  destruct (Hcall _ _ _ _ HS) as [Hsrc Hoff].
  destruct (Hreach s l 5%nat Hr) as (_ & Hin & _).
  split; [exact Hr|]. split; [exact Hsrc|].
  split; [vm_compute; reflexivity|]. split; [vm_compute; reflexivity|].
  split; [exact Hoff | exact Hin].
Defined.

(** X3. [Scan] returns [EOF] only when the whole source has been read: the
    offset is then the length of the source. *)
Theorem EOF_at_end_of_source :
  forall (s : list byte) (l : Lexer) (r : Result) (l' : Lexer),
    reachable s l -> Scan l = Some (r, l') -> tokOf r = EOF ->
    offset l' = length s.
Proof.
  intros s l r l' Hr HS Ht.
  destruct (call_srcInv s CallScan l r l' (reachable_srcInv s l Hr) HS)
    as (_ & _ & Hend).
  destruct (Scan_EOF_result l r l' HS Ht) as (_ & Hc & He).
  exact (Hend Hc He).
Qed.

Lemma EOF_at_end_of_source_witness :
  let s := bytes "a # b" in
  let l := afterScan (NewLexer s) in
  reachable s l /\
  Scan l = Some ((mkPosition 1 6, EOF, Str ""), afterScan l) /\
  offset (afterScan l) = 5%nat.
Proof.
  intros s l.
  assert (Hr : reachable s l).
  { apply (reach_call s (NewLexer s) CallScan
                      (mkPosition 1 1, NAME, StringOfRunes [c_a]) l);
      [apply reach_new | vm_compute; reflexivity]. }
  assert (HS : Scan l = Some ((mkPosition 1 6, EOF, Str ""), afterScan l))
    by (vm_compute; reflexivity).
  split; [exact Hr|]. split; [exact HS|].
  exact (EOF_at_end_of_source s l _ _ Hr HS eq_refl).
Defined.

(* ================================================================= *)
(** ** Names and keywords *)

(** [isNameStart(l.ch) || (l.ch >= '0' && l.ch <= '9')] *)
Definition isNameChar (c : rune) : bool := isNameStart c || isDigit c.

(** The loop of a name reads the longest run of letters, digits and
    underscores. *)
Lemma nameLoop_run fuel :
  forall runes l,
    (mu l < fuel)%nat ->
    exists rest,
      while fuel (fun _ l => isNameStart (ch l) || isDigit (ch l))
            appendCh runes l =
      Some (Go (runes ++ rest), nextN (length rest) l) /\
      forallb isNameChar rest = true /\ ahead rest l = true /\
      isNameChar (ch (nextN (length rest) l)) = false.
Proof.
  induction fuel as [|fuel IH]; intros runes l Hf; [lia|].
  destruct (isNameChar (ch l)) eqn:Hc.
  - assert (H0 : 0 <= ch l).
    { unfold isNameChar in Hc. apply orb_true_iff in Hc.
      destruct Hc; auto using isDigit_nonneg, isNameStart_nonneg. }
    pose proof (next_mu_lt l H0) as Hlt.
    destruct (IH (runes ++ [ch l]) (next l) ltac:(lia))
      as (rest & E & Hd & Ha & Hend).
    exists (ch l :: rest).
    rewrite (while_step _ _ _ _ _ (runes ++ [ch l]) (next l) Hc eq_refl).
    rewrite E, <- app_assoc. simpl.
    rewrite Hc, Hd, Ha, Z.eqb_refl. auto.
  - exists []. rewrite while_exit by exact Hc.
    rewrite app_nil_r. simpl. auto.
Qed.

(** X5. With the lexer at a letter or an underscore, [Scan] reads the
    longest run of letters, digits and underscores and returns, at the
    position of its first character, the token of the keyword table if
    the run is one of its keys, with an empty value, and otherwise
    [NAME] with the run as value. *)
Theorem Scan_name :
  forall l : Lexer,
    isNameStart (ch l) = true ->
    exists rest,
      forallb isNameChar rest = true /\
      ahead (ch l :: rest) l = true /\
      isNameChar (ch (nextN (S (length rest)) l)) = false /\
      let tv := match keywordTokens (ch l :: rest) with
                | Some tok => (tok, Str "")
                | None => (NAME, StringOfRunes (ch l :: rest))
                end in
      Scan l = Some ((pos l, fst tv, snd tv),
                     set_lastTok
                       (set_hadSpace (nextN (S (length rest)) l) false)
                       (fst tv)).
Proof.
  intros l Hn.
  assert (H0 : 0 <= ch l) by auto using isNameStart_nonneg.
  assert (Hs : isSpaceStart (ch l) = false)
    by (unfold isNameStart in Hn; unfold isSpaceStart; lia).
  assert (Hh : ch l <> c_hash) by (unfold isNameStart in Hn; lia).
  rewrite (Scan_at l Hs H0 Hh). unfold tokenAt. rewrite Hn.
  unfold scanName, runMethod.
  assert (Hf : (mu (next (set_hadSpace l false)) < fuelOf l)%nat).
  { pose proof (mu_fuelOf l). pose proof (next_mu_le (set_hadSpace l false)).
    change (mu (set_hadSpace l false)) with (mu l) in *. lia. }
  destruct (nameLoop_run (fuelOf l) [ch l] (next (set_hadSpace l false)) Hf)
    as (rest & E & Hd & Ha & Hend).
  exists rest.
  rewrite next_set_hadSpace, ahead_set_hadSpace, nextN_set_hadSpace in *.
  split; [exact Hd|]. cbn [ahead]. rewrite Z.eqb_refl, Ha.
  split; [reflexivity|]. split; [exact Hend|].
  rewrite (bind_Go _ _ _ _ _ E). cbn [app nextN].
  destruct (keywordTokens (ch l :: rest)); reflexivity.
Qed.

(** The source [x1_y+]: the name is read up to the plus sign. *)
Lemma Scan_name_witness :
  let l := NewLexer (bytes "x1_y+") in
  isNameStart (ch l) = true /\
  exists rest,
    forallb isNameChar rest = true /\
    ahead (ch l :: rest) l = true /\
    isNameChar (ch (nextN (S (length rest)) l)) = false /\
    let tv := match keywordTokens (ch l :: rest) with
              | Some tok => (tok, Str "")
              | None => (NAME, StringOfRunes (ch l :: rest))
              end in
    Scan l = Some ((pos l, fst tv, snd tv),
                   set_lastTok
                     (set_hadSpace (nextN (S (length rest)) l) false)
                     (fst tv)).
Proof.
  intros l.
  assert (Hn : isNameStart (ch l) = true) by (vm_compute; reflexivity).
  split; [exact Hn | exact (Scan_name l Hn)].
Defined.

(* ================================================================= *)
(** ** Comments *)

(** A character of a comment: any but the newline and the end of the
    input. *)
Definition isCommentChar (c : rune) : bool := negb (c =? c_nl) && (0 <=? c).

Lemma commentLoop_run fuel :
  forall l,
    (mu l < fuel)%nat ->
    exists body,
      while fuel (fun _ l => negb (ch l =? c_nl) && (0 <=? ch l))
            (fun _ => next_) tt l =
      Some (Go tt, nextN (length body) l) /\
      forallb isCommentChar body = true /\ ahead body l = true /\
      isCommentChar (ch (nextN (length body) l)) = false.
Proof.
  induction fuel as [|fuel IH]; intros l Hf; [lia|].
  destruct (isCommentChar (ch l)) eqn:Hc.
  - assert (H0 : 0 <= ch l) by (unfold isCommentChar in Hc; lia).
    pose proof (next_mu_lt l H0) as Hlt.
    destruct (IH (next l) ltac:(lia)) as (body & E & Hd & Ha & Hend).
    exists (ch l :: body).
    rewrite (while_step _ _ _ _ _ tt (next l) Hc eq_refl).
    rewrite E. simpl. rewrite Hc, Hd, Ha, Z.eqb_refl. auto.
  - exists []. rewrite while_exit by exact Hc. simpl. auto.
Qed.

(** X6. With the lexer at a [#], [Scan] skips the characters up to the
    newline or the end of the input, none of them being looked at, and
    returns what it returns when called there: [NEWLINE] at a newline,
    which is not part of the comment. *)
Theorem Scan_comment :
  forall l : Lexer,
    ch l = c_hash ->
    exists body,
      forallb isCommentChar body = true /\
      ahead (c_hash :: body) l = true /\
      let x := nextN (S (length body)) l in
      (ch x = c_nl \/ ch x < 0) /\
      Scan l = Scan x /\
      (ch x = c_nl ->
       Scan l = Some ((pos x, NEWLINE, Str ""),
                      set_lastTok (set_hadSpace (next x) false) NEWLINE)).
Proof.
  intros l Hc.
  assert (Hf : (mu (next (set_hadSpace l false)) < fuelOf l)%nat).
  { pose proof (mu_fuelOf l). pose proof (next_mu_le (set_hadSpace l false)).
    change (mu (set_hadSpace l false)) with (mu l) in *. lia. }
  destruct (commentLoop_run (fuelOf l) (next (set_hadSpace l false)) Hf)
    as (body & E & Hd & Ha & Hend).
  rewrite next_set_hadSpace, ahead_set_hadSpace, nextN_set_hadSpace in *.
  cbn [ch set_hadSpace] in Hend.
  exists body. split; [exact Hd|]. cbn [ahead]. rewrite Hc, Ha.
  split; [reflexivity|]. cbn zeta. cbn [nextN].
  set (x := nextN (length body) (next l)) in *.
  assert (Hx : ch x = 10 \/ ch x < 0) by (unfold isCommentChar in Hend; lia).
  split; [exact Hx|].
  assert (Hfx : fuelOf x = fuelOf l).
  { assert (G : forall n y, src (nextN n y) = src y).
    { induction n as [|n IH]; intros y; [reflexivity|].
      cbn. rewrite IH. apply next_src. }
    unfold fuelOf, x. rewrite G, next_src. reflexivity. }
  assert (Hsx : isSpaceStart (ch x) = false) by (unfold isSpaceStart; lia).
  assert (E1 : Scan l = Scan x).
  { unfold Scan. rewrite Hfx. f_equal. unfold runMethod. f_equal.
    change (scan (fuelOf l) l)
      with (bind (skipSpace (fuelOf l)) (fun _ => scanToken (fuelOf l))
                 (set_hadSpace l false)).
    change (scan (fuelOf l) x)
      with (bind (skipSpace (fuelOf l)) (fun _ => scanToken (fuelOf l))
                 (set_hadSpace x false)).
    unfold fuelOf at 1 3.
    rewrite (bind_Go _ _ _ _ _
               (skipSpace_none _ (set_hadSpace l false)
                  ltac:(cbn [ch set_hadSpace]; rewrite Hc; reflexivity))).
    rewrite (bind_Go _ _ _ _ _
               (skipSpace_none _ (set_hadSpace x false) Hsx)).
    unfold scanToken.
    assert (E2 : skipComment (fuelOf l) (set_hadSpace l false) =
                 Some (Go tt, set_hadSpace x false)).
    { unfold skipComment. rewrite bind_getCh. cbn [ch set_hadSpace].
      rewrite Hc. cbn [Z.eqb Pos.eqb].
      unfold bind, next_. rewrite next_set_hadSpace. exact E. }
    rewrite (bind_Go _ _ _ _ _ E2).
    rewrite (bind_Go _ _ _ _ _
               (skipComment_none _ (set_hadSpace x false)
                  ltac:(cbn [ch set_hadSpace]; lia))).
    reflexivity. }
  split; [exact E1|].
  intros Hnl. rewrite E1.
  rewrite Scan_at by (rewrite ?Hnl; (reflexivity || lia)).
  rewrite Hnl, next_set_hadSpace. reflexivity.
Qed.

(** The source [# a comment], a newline and [x]. *)
Lemma Scan_comment_witness :
  let l := NewLexer (bytes "# a comment" ++ [x0a] ++ bytes "x") in
  ch l = c_hash /\
  exists body,
    forallb isCommentChar body = true /\
    ahead (c_hash :: body) l = true /\
    let x := nextN (S (length body)) l in
    (ch x = c_nl \/ ch x < 0) /\
    Scan l = Scan x /\
    (ch x = c_nl ->
     Scan l = Some ((pos x, NEWLINE, Str ""),
                    set_lastTok (set_hadSpace (next x) false) NEWLINE)).
Proof.
  intros l.
  assert (Hc : ch l = c_hash) by (vm_compute; reflexivity).
  split; [exact Hc | exact (Scan_comment l Hc)].
Defined.

(* ================================================================= *)
(** ** Operators and punctuation *)

(** The lexemes that the [switch] of [scan] recognises without a loop,
    each with its token: read off the cases of the [switch] and their
    inner [switch]es and calls of [choice]. *)
Definition operators : list (list rune * Token) :=
  let op (s : string) (t : Token) := (runes_of_string s, t) in
  [ ([c_nl], NEWLINE); op ":" COLON; op "," COMMA;
    op "/" DIV; op "/=" DIV_ASSIGN;
    op "{" LBRACE; op "[" LBRACKET; op "(" LPAREN;
    op "-" SUB; op "--" DECR; op "-=" SUB_ASSIGN;
    op "%" MOD; op "%=" MOD_ASSIGN;
    op "+" ADD; op "++" INCR; op "+=" ADD_ASSIGN;
    op "}" RBRACE; op "]" RBRACKET; op ")" RPAREN;
    op "*" MUL; op "**" POW; op "**=" POW_ASSIGN; op "*=" MUL_ASSIGN;
    op "=" ASSIGN; op "==" EQUALS;
    op "^" POW; op "^=" POW_ASSIGN;
    op "!" NOT; op "!=" NOT_EQUALS; op "!~" NOT_MATCH;
    op "<" LESS; op "<=" LTE;
    op ">" GREATER; op ">=" GTE; op ">>" APPEND;
    op "~" MATCH; op "?" QUESTION; op ";" SEMICOLON; op "$" DOLLAR;
    op "&&" AND;
    op "|" PIPE; op "||" OR ]%string.

(** No longer lexeme of the table is ahead. *)
Definition longest (lex : list rune) (l : Lexer) : bool :=
  forallb (fun e => (length (fst e) <=? length lex)%nat
                    || negb (ahead (fst e) l))
          operators.

Ltac operator_case :=
  lazymatch goal with
  | Ha : ahead _ ?l = true, Hl : forallb _ _ = true |- _ =>
    cbn [ahead] in Ha;
    repeat (apply andb_true_iff in Ha; destruct Ha as [?Hc Ha]);
    repeat match goal with
           | H : (_ =? _) = true |- _ => apply Z.eqb_eq in H
           end;
    cbn [forallb fst length Nat.leb orb ahead] in Hl;
    repeat match goal with
           | H : ch _ = _ |- _ => rewrite H in Hl
           end;
    cbn [Z.eqb Pos.eqb andb negb] in Hl;
    rewrite ?andb_true_r in Hl;
    repeat (apply andb_true_iff in Hl; destruct Hl as [?Hn Hl]);
    repeat match goal with
           | H : negb _ = true |- _ => apply negb_true_iff in H
           | H : (_ =? _) = false |- _ => apply Z.eqb_neq in H
           end
  end.

Ltac rewrite_ch :=
  repeat match goal with
         | H : ch ?x = _ |- context [ch ?x] => rewrite H
         end.

Ltac decide_ch :=
  repeat match goal with
         | H : ch ?x <> ?k |- context [ch ?x =? ?k] =>
           destruct (Z.eqb_spec (ch x) k); [contradiction|]
         end.

(** X7. With one of these lexemes ahead, and no longer one, [Scan] returns
    its token, at the position of its first character and with an
    empty value, and has read the lexeme and no more: the longest
    operator wins. *)
Theorem Scan_operator :
  forall (l : Lexer) (lex : list rune) (tok : Token),
    In (lex, tok) operators ->
    ahead lex l = true -> longest lex l = true ->
    Scan l = Some ((pos l, tok, Str ""),
                   set_lastTok (set_hadSpace (nextN (length lex) l) false)
                               tok).
Proof.
  intros l lex tok Hin Ha Hl. unfold longest in Hl.
  let t := eval vm_compute in operators in
    change operators with t in Hin, Hl.
  cbn [In] in Hin.
  repeat (destruct Hin as [Hin|Hin];
          [injection Hin as <- <-|]); [..|contradiction].
  all: operator_case.
  all: rewrite Scan_at by (rewrite_ch; (reflexivity || lia)).
  all: unfold tokenAt, runMethod; rewrite_ch.
  all: cbn [isNameStart Z.eqb Z.leb Z.compare Pos.compare Pos.compare_cont
            Pos.eqb andb orb scanSwitch isDigit negb].
  all: unfold choice, bind, getCh, next_, ret, return_.
  all: rewrite ?next_set_hadSpace; cbn [ch set_hadSpace].
  all: rewrite_ch; decide_ch.
  all: cbn [Z.eqb Pos.eqb Token_beq fst snd].
  all: rewrite ?next_set_hadSpace; cbn [ch set_hadSpace].
  all: rewrite_ch; decide_ch.
  all: cbn [Z.eqb Pos.eqb Token_beq fst snd].
  all: rewrite ?next_set_hadSpace; cbn [length nextN recordTok tokOf fst snd].
  all: reflexivity.
Qed.

(** The source [**=2]: the three characters are one token, although
    [*] and [**] are operators too. *)
Lemma Scan_operator_witness :
  let l := NewLexer (bytes "**=2") in
  In (runes_of_string "**=", POW_ASSIGN) operators /\
  ahead (runes_of_string "**=") l = true /\
  longest (runes_of_string "**=") l = true /\
  Scan l = Some ((mkPosition 1 1, POW_ASSIGN, Str ""),
                 set_lastTok (set_hadSpace (nextN 3 l) false) POW_ASSIGN).
Proof.
  intros l.
  assert (Hin : In (runes_of_string "**=", POW_ASSIGN) operators)
    by (vm_compute; tauto).
  assert (Ha : ahead (runes_of_string "**=") l = true)
    by (vm_compute; reflexivity).
  assert (Hl : longest (runes_of_string "**=") l = true)
    by (vm_compute; reflexivity).
  split; [exact Hin|]. split; [exact Ha|]. split; [exact Hl|].
  exact (Scan_operator l _ _ Hin Ha Hl).
Defined.

(* ================================================================= *)
(** ** Lines and columns *)

(** The position after a character at position [p]. *)
Definition advance (p : Position) (c : rune) : Position :=
  if c =? c_nl then mkPosition (Line p + 1) 1
  else mkPosition (Line p) (Column p + 1).

(** [nextPos] is the position after the character in [ch]. *)
Definition stepInv (l : Lexer) : Prop :=
  posInv l /\ (0 <= ch l -> nextPos l = advance (pos l) (ch l)).

Lemma next_stepInv l : nextInv l -> stepInv (next l).
Proof.
  intros Hn. split; [apply next_nextInv, Hn|].
  destruct Hn as (Hlen & Hoff & HL & HC).
  rewrite next_pos. unfold next, advance.
  pose proof (DecodeRune_size (skipn (offset l) (src l))) as [Hle Hz].
  rewrite length_skipn in Hle.
  destruct (DecodeRune _) as [r size]. cbn [snd] in *. cbn.
  destruct (Nat.eqb_spec size 0); [cbn; lia|].
  destruct (r =? RuneError); [cbn; lia|].
  destruct (Z.eqb_spec r 10); cbn; intros _.
  - subst r. cbn. rewrite wrap64_small by (unfold maxInt in *; lia).
    reflexivity.
  - destruct (Z.eqb_spec r 10); [contradiction|].
    rewrite wrap64_small by (unfold maxInt in *; lia).
    reflexivity.
Qed.

Lemma stepInv_next l : stepInv l -> stepInv (next l).
Proof. intros [[Hn _] _]. apply next_stepInv, Hn. Qed.

Lemma stepInv_set_hadSpace l b : stepInv l -> stepInv (set_hadSpace l b).
Proof. exact (fun H => H). Qed.

Lemma stepInv_NewLexer s :
  Z.of_nat (length s) < maxInt -> stepInv (NewLexer s).
Proof.
  intros H. apply next_stepInv. unfold nextInv. cbn. lia.
Qed.

Lemma reachable_stepInv s l :
  Z.of_nat (length s) < maxInt -> reachable s l -> stepInv l.
Proof.
  intros Hlen H. induction H as [|l c r l' _ IH Hc].
  - apply stepInv_NewLexer, Hlen.
  - destruct c; cbn in Hc.
    + destruct (Scan_facts stepInv stepInv_next stepInv_set_hadSpace l IH)
        as (r0 & l0 & HS & Hi0 & _).
      rewrite Hc in HS. injection HS as <- ->. exact Hi0.
    + destruct (ScanRegex_facts stepInv stepInv_next l IH)
        as (r0 & l0 & HS & Hi0 & _).
      rewrite Hc in HS. injection HS as <- ->. exact Hi0.
Qed.

Lemma pos_nextN rs :
  forall l,
    stepInv l -> ahead rs l = true -> Forall (fun r => 0 <= r) rs ->
    pos (nextN (length rs) l) = fold_left advance rs (pos l).
Proof.
  induction rs as [|r rs IH]; intros l Hi Ha Hf; [reflexivity|].
  cbn [ahead] in Ha. apply andb_true_iff in Ha. destruct Ha as [Hc Ha].
  apply Z.eqb_eq in Hc. inversion Hf as [|? ? H0 Hf']; subst.
  cbn [length nextN fold_left].
  rewrite (IH (next l) (stepInv_next l Hi) Ha Hf'), next_pos.
  destruct Hi as [_ Hn]. rewrite (Hn H0). reflexivity.
Qed.

Lemma advance_Line rs :
  forall p,
    Line (fold_left advance rs p) =
    Line p + Z.of_nat (count_occ Z.eq_dec rs c_nl).
Proof.
  induction rs as [|r rs IH]; intros p; cbn [fold_left count_occ]; [lia|].
  rewrite IH. unfold advance.
  destruct (Z.eqb_spec r 10); destruct (Z.eq_dec r 10); try contradiction;
    cbn [Line]; lia.
Qed.

Lemma advance_Column_same_line rs :
  forall p,
    ~ In c_nl rs ->
    Column (fold_left advance rs p) = Column p + Z.of_nat (length rs).
Proof.
  induction rs as [|r rs IH]; intros p Hn; cbn [fold_left length]; [lia|].
  rewrite IH by (intros H; apply Hn; right; exact H).
  unfold advance.
  destruct (Z.eqb_spec r 10); [exfalso; apply Hn; left; auto|].
  cbn [Column]. lia.
Qed.

(** X9. Lines and columns count characters, not bytes. From a lexer that
    has a run of characters ahead, the position after the run is: on
    the line of the lexer plus the number of newlines of the run; at
    the column of the lexer plus the length of the run when it has no
    newline, and else at column 1 plus the number of characters after
    its last newline. *)
Theorem positions_count_characters :
  forall (s : list byte) (l : Lexer) (rs : list rune),
    Z.of_nat (length s) < maxInt -> reachable s l ->
    ahead rs l = true -> Forall (fun r => 0 <= r) rs ->
    let x := nextN (length rs) l in
    Line (pos x) = Line (pos l) + Z.of_nat (count_occ Z.eq_dec rs c_nl) /\
    (~ In c_nl rs ->
     Column (pos x) = Column (pos l) + Z.of_nat (length rs)) /\
    (forall before after,
        rs = before ++ c_nl :: after -> ~ In c_nl after ->
        Column (pos x) = 1 + Z.of_nat (length after)).
Proof.
  intros s l rs Hlen Hr Ha Hf x. unfold x.
  rewrite (pos_nextN rs l (reachable_stepInv s l Hlen Hr) Ha Hf).
  split; [apply advance_Line|]. split; [apply advance_Column_same_line|].
  intros before after -> Hn.
  rewrite fold_left_app. cbn [fold_left].
  rewrite advance_Column_same_line by exact Hn.
  unfold advance at 2. cbn. reflexivity.
Qed.

(** The source of six bytes that is, in UTF-8, an e with acute accent,
    a newline, an a with diaeresis and [b]: the [b], its fourth
    character and sixth byte, is at line 2, column 2. *)
Lemma positions_count_characters_witness :
  let s := [xc3; xa9; x0a; xc3; xa4; x62] in
  let l := NewLexer s in
  let rs := [233; c_nl; 228] in
  Z.of_nat (length s) < maxInt /\ reachable s l /\
  ahead rs l = true /\ Forall (fun r => 0 <= r) rs /\
  pos l = mkPosition 1 1 /\ ch (nextN 3 l) = 98 /\
  Line (pos (nextN 3 l)) = 2 /\ Column (pos (nextN 3 l)) = 2.
Proof.
  intros s l rs.
  assert (Hlen : Z.of_nat (length s) < maxInt) by (vm_compute; reflexivity).
  assert (Hr : reachable s l) by apply reach_new.
  assert (Ha : ahead rs l = true) by (vm_compute; reflexivity).
  assert (Hf : Forall (fun r => 0 <= r) rs) by (repeat constructor; lia).
  destruct (positions_count_characters s l rs Hlen Hr Ha Hf)
    as (HL & _ & HC).
  split; [exact Hlen|]. split; [exact Hr|]. split; [exact Ha|].
  split; [exact Hf|]. split; [vm_compute; reflexivity|].
  split; [vm_compute; reflexivity|].
  split; [exact HL|].
  exact (HC [233] [228] eq_refl ltac:(cbn; lia)).
Defined.

(* ================================================================= *)
(** ** The bytes of a character *)

Lemma lor_ge_128 a b :
  0 <= a -> 0 <= b -> 128 <= a \/ 128 <= b -> 128 <= Z.lor a b.
Proof.
  intros Ha Hb H.
  destruct (Z.lt_ge_cases (Z.lor a b) 128) as [Hlt|]; [exfalso|lia].
  assert (H0 : 0 <= Z.lor a b) by (apply Z.lor_nonneg; auto).
  assert (Hpos : 0 < Z.lor a b).
  { destruct (Z.eq_dec (Z.lor a b) 0) as [E|]; [|lia].
    apply Z.lor_eq_0_iff in E. lia. }
  assert (Hl : Z.log2 (Z.lor a b) < 7)
    by (apply Z.log2_lt_pow2; [exact Hpos | exact Hlt]).
  rewrite Z.log2_lor in Hl by assumption.
  destruct H as [H|H].
  - pose proof (Z.log2_le_mono 128 a H) as Hm.
    change (Z.log2 128) with 7 in Hm. lia.
  - pose proof (Z.log2_le_mono 128 b H) as Hm.
    change (Z.log2 128) with 7 in Hm. lia.
Qed.

Lemma byteZ_range b : 0 <= byteZ b <= 255.
Proof. destruct b; vm_compute; split; discriminate. Qed.

Lemma byteZ_newline b : byteZ b = c_nl -> b = x0a.
Proof. destruct b; vm_compute; intros H; (reflexivity || discriminate). Qed.

Lemma first_ranges p0 :
  0 <= p0 <= 255 ->
  (first p0 = 0xF0 /\ p0 < 0x80) \/
  (first p0 = 0xF1 /\ 0x80 <= p0) \/
  (first p0 = 0x02 /\ 0xC2 <= p0 < 0xE0) \/
  (first p0 = 0x13 /\ p0 = 0xE0) \/
  (first p0 = 0x03 /\ 0xE1 <= p0 <= 0xEF /\ p0 <> 0xED) \/
  (first p0 = 0x23 /\ p0 = 0xED) \/
  (first p0 = 0x34 /\ p0 = 0xF0) \/
  (first p0 = 0x04 /\ 0xF1 <= p0 <= 0xF3) \/
  (first p0 = 0x44 /\ p0 = 0xF4).
Proof.
  intros H. unfold first.
  repeat match goal with
         | |- context [if ?c then _ else _] => destruct c eqn:?
         end; lia.
Qed.

Lemma land_0x3F a : Z.land a 0x3F = a mod 64.
Proof. exact (Z.land_ones a 6 ltac:(lia)). Qed.
Lemma land_0x1F a : Z.land a 0x1F = a mod 32.
Proof. exact (Z.land_ones a 5 ltac:(lia)). Qed.
Lemma land_0x0F a : Z.land a 0x0F = a mod 16.
Proof. exact (Z.land_ones a 4 ltac:(lia)). Qed.
Lemma land_0x07 a : Z.land a 0x07 = a mod 8.
Proof. exact (Z.land_ones a 3 ltac:(lia)). Qed.

Ltac bits_to_arith :=
  rewrite ?Z.shiftl_mul_pow2 by lia;
  rewrite ?land_0x3F, ?land_0x1F, ?land_0x0F, ?land_0x07;
  change (2 ^ 6) with 64; change (2 ^ 12) with 4096;
  change (2 ^ 18) with 262144.

Ltac arith := Z.div_mod_to_equations; lia.

Ltac lor_nonneg :=
  repeat (apply Z.lor_nonneg; split); bits_to_arith; arith.

Ltac rune_ge_128 :=
  repeat (apply lor_ge_128; [lor_nonneg | lor_nonneg |]);
  bits_to_arith;
  repeat first [ solve [arith]
               | left; solve [rune_ge_128]
               | right; solve [rune_ge_128] ].

(** A character of one byte is that byte; a character of several bytes
    is not an ASCII character, and none of its bytes is one. *)
Lemma DecodeRune_bytes p :
  let '(r, size) := DecodeRune p in
  (size = 1%nat -> r <> RuneError ->
   exists b rest, p = b :: rest /\ r = byteZ b) /\
  ((2 <= size)%nat ->
   128 <= r /\ Forall (fun b => 128 <= byteZ b) (firstn size p)).
Proof.
  destruct p as [|b0 p]; [cbn; split; [discriminate | lia]|].
  pose proof (byteZ_range b0) as R0.
  unfold DecodeRune.
  destruct (first_ranges (byteZ b0) R0)
    as [[-> H]|[[-> H]|[[-> H]|[[-> H]|[[-> H]|[[-> H]|[[-> H]|[[-> H]|
        [-> H]]]]]]]]].
  1-2: cbn; split; [intros _ Hr; eauto | lia].
  1: exists b0, p; auto.
  1: exfalso; apply Hr; reflexivity.
  all: match goal with
       | |- context [Z.shiftr ?k 4] =>
         let v := eval vm_compute in (Z.shiftr k 4) in
         change (Z.shiftr k 4) with v
       end.
  all: cbn -[Z.of_nat nth firstn Z.shiftl].
  all: match goal with
       | |- context [Z.of_nat ?n <? ?k] =>
         destruct (Z.of_nat n <? k) eqn:Hlen
       end;
    [split; [intros _ Hr; exfalso; apply Hr; reflexivity | lia]|].
  all: destruct p as [|b1 p]; [cbn in Hlen; lia|].
  all: pose proof (byteZ_range b1) as R1.
  all: cbn [nth].
  all: match goal with
       | |- context [if ?a || ?b then _ else _] =>
         destruct (a || b) eqn:Hb1
       end;
    [split; [intros _ Hr; exfalso; apply Hr; reflexivity | lia]|].
  all: cbn [Z.leb Z.compare Pos.compare Pos.compare_cont].
  (* two bytes *)
  1: split; [discriminate|]; intros _; split;
    [rune_ge_128 | cbn [firstn]; repeat constructor; lia].
  (* three and four bytes *)
  all: destruct p as [|b2 p]; [cbn in Hlen; lia|].
  all: pose proof (byteZ_range b2) as R2.
  all: cbn [nth].
  all: match goal with
       | |- context [if ?a || ?b then _ else _] =>
         destruct (a || b) eqn:Hb2
       end;
    [split; [intros _ Hr; exfalso; apply Hr; reflexivity | lia]|].
  1-3: split; [discriminate|]; intros _; split;
    [rune_ge_128 | cbn [firstn]; repeat constructor; lia].
  all: destruct p as [|b3 p]; [cbn in Hlen; lia|].
  all: pose proof (byteZ_range b3) as R3.
  all: cbn [nth].
  all: match goal with
       | |- context [if ?a || ?b then _ else _] =>
         destruct (a || b) eqn:Hb3
       end;
    [split; [intros _ Hr; exfalso; apply Hr; reflexivity | lia]|].
  all: split; [discriminate|]; intros _; split;
    [rune_ge_128 | cbn [firstn]; repeat constructor; lia].
Qed.

(* ================================================================= *)
(** ** The lines of the source *)

(** [bytes.Split(src, []byte{'\n'})]: the byte slices between the
    newlines, one more than there are newlines. *)
Fixpoint splitLines (s : list byte) : list (list byte) :=
  match s with
  | [] => [[]]
  | b :: s' =>
    let r := splitLines s' in
    if Byte.eqb b x0a then [] :: r else (b :: hd [] r) :: tl r
  end.

Definition lineCount (p : list byte) : nat := length (splitLines p).
Definition lastLine (p : list byte) : list byte := last (splitLines p) [].

Lemma splitLines_nonempty s : splitLines s <> [].
Proof.
  destruct s as [|b s]; cbn; [|destruct (Byte.eqb b x0a)]; discriminate.
Qed.

Lemma splitLines_cons s :
  splitLines s = hd [] (splitLines s) :: tl (splitLines s).
Proof.
  pose proof (splitLines_nonempty s).
  destruct (splitLines s); [contradiction | reflexivity].
Qed.

Lemma splitLines_app p q :
  splitLines (p ++ q) =
  removelast (splitLines p)
  ++ (lastLine p ++ hd [] (splitLines q)) :: tl (splitLines q).
Proof.
  unfold lastLine. induction p as [|b p IH].
  - cbn. apply splitLines_cons.
  - cbn [app splitLines]. cbv zeta. rewrite IH.
    pose proof (splitLines_nonempty p) as Hne.
    destruct (splitLines p) as [|x [|y r]]; [contradiction| |].
    + destruct (Byte.eqb b x0a); reflexivity.
    + destruct (Byte.eqb b x0a); reflexivity.
Qed.

Lemma splitLines_no_newline bs :
  ~ In x0a bs -> splitLines bs = [bs].
Proof.
  induction bs as [|b bs IH]; intros Hn; [reflexivity|].
  cbn [splitLines]. cbv zeta.
  rewrite IH by (intros H; apply Hn; right; exact H).
  destruct (Byte.eqb b x0a) eqn:E; [|reflexivity].
  apply Byte.byte_dec_bl in E. exfalso. apply Hn. left. auto.
Qed.

Lemma length_removelast {A} (xs : list A) :
  xs <> [] -> S (length (removelast xs)) = length xs.
Proof.
  intros H. destruct (exists_last H) as (ys & y & ->).
  rewrite removelast_last, length_app. cbn. lia.
Qed.

Lemma lineCount_pos p : (1 <= lineCount p)%nat.
Proof.
  unfold lineCount. pose proof (splitLines_nonempty p).
  destruct (splitLines p); [contradiction | cbn; lia].
Qed.

Lemma lines_app_newline p :
  lineCount (p ++ [x0a]) = S (lineCount p) /\ lastLine (p ++ [x0a]) = [].
Proof.
  unfold lineCount, lastLine at 1. rewrite splitLines_app. cbn.
  rewrite length_app. cbn.
  pose proof (length_removelast _ (splitLines_nonempty p)).
  split; [lia|].
  change (removelast (splitLines p) ++ [lastLine p ++ []; []])
    with (removelast (splitLines p) ++ [lastLine p ++ []] ++ [[]]).
  rewrite app_assoc. apply last_last.
Qed.

Lemma lines_app_same_line p bs :
  ~ In x0a bs ->
  lineCount (p ++ bs) = lineCount p /\ lastLine (p ++ bs) = lastLine p ++ bs.
Proof.
  intros Hn. unfold lineCount, lastLine at 1.
  rewrite splitLines_app, (splitLines_no_newline bs Hn). cbn.
  rewrite length_app. cbn.
  pose proof (length_removelast _ (splitLines_nonempty p)).
  split; [lia|]. apply last_last.
Qed.

Lemma line_of_prefix p q :
  exists line,
    nth_error (splitLines (p ++ q)) (lineCount p - 1) = Some line /\
    (length (lastLine p) <= length line)%nat.
Proof.
  exists (lastLine p ++ hd [] (splitLines q)).
  rewrite splitLines_app.
  pose proof (length_removelast _ (splitLines_nonempty p)) as Hl.
  replace (lineCount p - 1)%nat with (length (removelast (splitLines p)))
    by (unfold lineCount; lia).
  rewrite nth_error_app2 by lia. rewrite Nat.sub_diag. cbn.
  split; [reflexivity | rewrite length_app; lia].
Qed.

(** A position inside the source: on one of its lines, and on that line
    at most one column after its last byte. *)
Definition inSource (s : list byte) (p : Position) : Prop :=
  1 <= Line p /\ 1 <= Column p /\
  exists line,
    nth_error (splitLines s) (Z.to_nat (Line p - 1)) = Some line /\
    Column p <= 1 + Z.of_nat (length line).

(** The invariant that ties the positions of the lexer to the bytes it
    has read: [nextPos] is on the last of the lines read so far, and no
    further to the right than that line has bytes. *)
Definition lineInv (s : list byte) (l : Lexer) : Prop :=
  stepInv l /\ src l = s /\
  Line (nextPos l) = Z.of_nat (lineCount (firstn (offset l) s)) /\
  Column (nextPos l) <=
    1 + Z.of_nat (length (lastLine (firstn (offset l) s))) /\
  inSource s (pos l).

Lemma nextPos_inSource s l :
  nextInv l -> src l = s ->
  Line (nextPos l) = Z.of_nat (lineCount (firstn (offset l) s)) ->
  Column (nextPos l) <=
    1 + Z.of_nat (length (lastLine (firstn (offset l) s))) ->
  inSource s (nextPos l).
Proof.
  intros (_ & _ & HL & HC) Hs EL EC.
  unfold inSource. split; [lia|]. split; [lia|].
  destruct (line_of_prefix (firstn (offset l) s) (skipn (offset l) s))
    as (line & Hnth & Hlen).
  rewrite firstn_skipn in Hnth.
  exists line. rewrite EL.
  replace (Z.to_nat (Z.of_nat (lineCount (firstn (offset l) s)) - 1))
    with (lineCount (firstn (offset l) s) - 1)%nat
    by (pose proof (lineCount_pos (firstn (offset l) s)); lia).
  split; [exact Hnth | lia].
Qed.

Lemma next_nextPos_end l : ch (next l) < 0 -> nextPos (next l) = nextPos l.
Proof.
  unfold next. cbn [nextPos set_pos src offset].
  pose proof (DecodeRune_nonneg (skipn (offset l) (src l))) as Hnn.
  destruct (DecodeRune _) as [r size]. cbn [fst] in Hnn.
  destruct (size =? 0)%nat; [reflexivity|].
  destruct (r =? RuneError); [reflexivity|].
  destruct (r =? 10); cbn; lia.
Qed.

Lemma firstn_add_skipn {A} n m (xs : list A) :
  firstn (n + m) xs = firstn n xs ++ firstn m (skipn n xs).
Proof.
  revert xs. induction n as [|n IH]; intros xs; [reflexivity|].
  destruct xs as [|x xs]; cbn; [rewrite firstn_nil; reflexivity|].
  rewrite IH. reflexivity.
Qed.

Lemma next_lineInv s l :
  nextInv l -> src l = s ->
  Line (nextPos l) = Z.of_nat (lineCount (firstn (offset l) s)) ->
  Column (nextPos l) <=
    1 + Z.of_nat (length (lastLine (firstn (offset l) s))) ->
  lineInv s (next l).
Proof.
  intros Hst Hs EL EC.
  pose proof (next_stepInv l Hst) as Hst'.
  pose proof (nextPos_inSource s l Hst Hs EL EC) as Hin.
  split; [exact Hst'|]. split; [rewrite next_src; exact Hs|].
  rewrite next_pos.
  pose proof (DecodeRune_nonneg (skipn (offset l) (src l))) as Hnn.
  pose proof (DecodeRune_size (skipn (offset l) (src l))) as [Hle Hz].
  pose proof (DecodeRune_bytes (skipn (offset l) (src l))) as Hb.
  destruct (next_cases l)
    as [(_ & Hc & E & _)|[(_ & Hc & E & _)|(Hne & Hr & Hc & E & _)]].
  - rewrite E, next_nextPos_end by lia. auto.
  - rewrite E, next_nextPos_end by lia. auto.
  - destruct Hst' as [_ Hadv]. rewrite Hadv, next_pos by lia.
    rewrite E, Hc, firstn_add_skipn, <- Hs.
    destruct (DecodeRune (skipn (offset l) (src l))) as [r size].
    cbn [fst snd] in *. destruct Hb as [H1 H2].
    assert (Hsz : size <> 0%nat) by tauto.
    unfold advance. rewrite Hs in *.
    destruct (Z.eqb_spec r 10) as [E10|N10].
    + assert (size = 1%nat) by (destruct (Nat.eq_dec size 1); [auto | lia]).
      subst size. destruct (H1 eq_refl Hr) as (b & rest & Ep & Eb).
      rewrite Ep. cbn [firstn].
      rewrite (byteZ_newline b) by congruence.
      destruct (lines_app_newline (firstn (offset l) s)) as [-> ->].
      cbn [Line Column length]. split; [lia|]. split; [lia | exact Hin].
    + assert (Hnl : ~ In x0a (firstn size (skipn (offset l) s))).
      { destruct (Nat.eq_dec size 1) as [->|].
        - destruct (H1 eq_refl Hr) as (b & rest & Ep & Eb).
          rewrite Ep. cbn. intros [->|[]]. apply N10. rewrite Eb. reflexivity.
        - destruct H2 as [_ Hall]; [lia|].
          intros Hi. rewrite Forall_forall in Hall.
          specialize (Hall _ Hi). vm_compute in Hall. apply Hall.
          reflexivity. }
      destruct (lines_app_same_line (firstn (offset l) s) _ Hnl) as [-> ->].
      cbn [Line Column]. split; [exact EL|]. split; [|exact Hin].
      rewrite length_app, length_firstn.
      lia.
Qed.

Lemma lineInv_next s l : lineInv s l -> lineInv s (next l).
Proof.
  intros ([[Hn _] _] & Hs & EL & EC & _). apply next_lineInv; assumption.
Qed.

Lemma lineInv_set_hadSpace s l b : lineInv s l -> lineInv s (set_hadSpace l b).
Proof. exact (fun H => H). Qed.

Lemma lineInv_NewLexer s :
  Z.of_nat (length s) < maxInt -> lineInv s (NewLexer s).
Proof.
  intros H. apply next_lineInv; cbn; try reflexivity; try lia.
  unfold nextInv. cbn. lia.
Qed.

Lemma lineInv_seen s p : seen (lineInv s) p -> inSource s p.
Proof. intros (y & (_ & _ & _ & _ & H) & ->). exact H. Qed.

Lemma call_lineInv s c l r l' :
  lineInv s l -> lexerInv l -> call c l = Some (r, l') ->
  lineInv s l' /\ inSource s (posOf r).
Proof.
  intros Hi Hlex Hc. destruct c; cbn in Hc.
  - destruct (Scan_facts (lineInv s) (lineInv_next s)
                         (lineInv_set_hadSpace s) l Hi)
      as (r0 & l0 & HS & Hi0 & _ & _ & Hseen & _).
    rewrite Hc in HS. injection HS as <- ->.
    split; [exact Hi0 | apply lineInv_seen, Hseen].
  - destruct (ScanRegex_facts (lineInv s) (lineInv_next s) l Hi)
      as (r0 & l0 & HS & Hi0 & _ & _ & Hfacts).
    rewrite Hc in HS. injection HS as <- ->.
    split; [exact Hi0|].
    destruct Hfacts as [(Hs & _)|(_ & Ht & ->)];
      [apply lineInv_seen, Hs|].
    destruct Hlex as (Hp & Hd & Hda).
    destruct Hi as (_ & _ & _ & _ & (HL & HC & line & Hnth & Hcol)).
    destruct Hp as ((Hlen & Hoff & _) & _ & (_ & HC') & _).
    unfold regexPos, inSource.
    destruct Ht as [E|E]; rewrite E; cbn [Line Column];
      rewrite wrap64_small; unfold maxInt in *;
      (specialize (Hd E) || specialize (Hda E));
      try lia;
      (split; [lia|]; split; [lia|]; exists line; split; [exact Hnth | lia]).
Qed.

Lemma reachable_lineInv s l :
  Z.of_nat (length s) < maxInt -> reachable s l -> lineInv s l.
Proof.
  intros Hlen H. induction H as [|l c r l' Hr IH Hc].
  - apply lineInv_NewLexer, Hlen.
  - exact (proj1 (call_lineInv s c l r l' IH
                     (reachable_lexerInv s l Hlen Hr) Hc)).
Qed.

(* ================================================================= *)
(** ** Showing the line of a parse error *)

(** How a call ends: it returns, or a run-time panic stops it. *)
Inductive Outcome : Set := Returns | Panics.

(** [strings.Replace] of every tab of [srcLine] by four spaces. *)
Definition replaceTabs (line : list byte) : list byte :=
  flat_map (fun b => if Byte.eqb b x09 then [x20; x20; x20; x20] else [b])
           line.

(** [strings.Count] of the tabs of [s]. *)
Definition countTabs (s : list byte) : nat :=
  length (filter (fun b => Byte.eqb b x09) s).

(** [func showSourceLine(src []byte, pos lexer.Position, dividerLen int)]:
    the lines it writes to the standard error, and how it ends.
    [strings.Repeat] panics on a negative count; an index or a slice
    expression panics when out of range. *)
Definition showSourceLine (src : list byte) (pos : Position) (dividerLen : Z)
  : list (list byte) * Outcome :=
  if dividerLen <? 0 then ([], Panics) else
  let divider := repeat x2d (Z.to_nat dividerLen) in
  let shown := match divider with [] => [] | _ => [divider] end in
  let out := shown in
  let lines := splitLines src in
  let i := wrap64 (Line pos - 1) in
  if (i <? 0) || (Z.of_nat (length lines) <=? i) then (out, Panics) else
  let srcLine := nth (Z.to_nat i) lines [] in
  let j := wrap64 (Column pos - 1) in
  if (j <? 0) || (Z.of_nat (length srcLine) <? j) then (out, Panics) else
  let numTabs := countTabs (firstn (Z.to_nat j) srcLine) in
  let out := out ++ [replaceTabs srcLine] in
  let out := out ++ [repeat x20 (Z.to_nat j) ++ repeat x20 (3 * numTabs)
                            ++ [x5e]] in
  let out := out ++ shown in
  (out, Returns).

(** A value of Go's [int]. *)
Definition isInt (z : Z) : Prop := - maxInt - 1 <= z <= maxInt.

Lemma lineCount_le s : (lineCount s <= S (length s))%nat.
Proof.
  unfold lineCount. induction s as [|b s IH]; cbn [splitLines]; [cbn; lia|].
  cbv zeta. pose proof (splitLines_nonempty s).
  destruct (splitLines s) as [|x r]; [contradiction|].
  destruct (Byte.eqb b x0a); cbn in *; lia.
Qed.

Lemma line_length_le s :
  forall n line,
    nth_error (splitLines s) n = Some line -> (length line <= length s)%nat.
Proof.
  induction s as [|b s IH]; intros n line H.
  - destruct n as [|[|n]]; cbn in H; try discriminate.
    injection H as <-. cbn. lia.
  - cbn [splitLines] in H. cbv zeta in H.
    pose proof (splitLines_nonempty s).
    destruct (splitLines s) as [|x r] eqn:E; [contradiction|].
    destruct (Byte.eqb b x0a).
    + destruct n as [|n]; cbn in H.
      * injection H as <-. cbn. lia.
      * apply IH in H. cbn. lia.
    + destruct n as [|n]; cbn in H.
      * injection H as <-. specialize (IH 0%nat x eq_refl). cbn. lia.
      * specialize (IH (S n) line H). cbn. lia.
Qed.

Lemma inSource_isInt s p :
  Z.of_nat (length s) < maxInt -> inSource s p ->
  isInt (Line p) /\ isInt (Column p).
Proof.
  intros Hlen (HL & HC & line & Hnth & Hcol).
  pose proof (line_length_le s _ _ Hnth).
  assert (Z.to_nat (Line p - 1) < lineCount s)%nat
    by (apply nth_error_Some; unfold lineCount; congruence).
  pose proof (lineCount_le s).
  unfold isInt, maxInt in *. lia.
Qed.

Lemma length_replaceTabs pre :
  length (replaceTabs pre) = (length pre + 3 * countTabs pre)%nat.
Proof.
  unfold replaceTabs, countTabs.
  induction pre as [|b pre IH]; [reflexivity|].
  cbn [flat_map filter]. rewrite length_app, IH.
  destruct (Byte.eqb b x09); cbn; lia.
Qed.

(** What [showSourceLine] does for a position inside the source. *)
Lemma showSourceLine_inSource src pos d line :
  Z.of_nat (length src) < maxInt -> 0 <= d ->
  1 <= Line pos -> 1 <= Column pos ->
  nth_error (splitLines src) (Z.to_nat (Line pos - 1)) = Some line ->
  Column pos <= 1 + Z.of_nat (length line) ->
  let pre := firstn (Z.to_nat (Column pos - 1)) line in
  let rest := skipn (Z.to_nat (Column pos - 1)) line in
  let shown := if 0 <? d then [repeat x2d (Z.to_nat d)] else [] in
  showSourceLine src pos d =
  (shown
   ++ [replaceTabs pre ++ replaceTabs rest;
       repeat x20 (length (replaceTabs pre)) ++ [x5e]]
   ++ shown,
   Returns).
Proof.
  intros Hlen Hd HL HC Hnth Hcol pre rest shown.
  destruct (inSource_isInt src pos Hlen) as [IL IC];
    [split; [exact HL|]; split; [exact HC|]; exists line; auto|].
  assert (Hi : (Z.to_nat (Line pos - 1) < length (splitLines src))%nat)
    by (apply nth_error_Some; congruence).
  unfold showSourceLine.
  destruct (Z.ltb_spec d 0); [lia|].
  rewrite !wrap64_small by (unfold isInt, maxInt in *; lia).
  destruct (Z.ltb_spec (Line pos - 1) 0); [lia|].
  destruct (Z.leb_spec (Z.of_nat (length (splitLines src))) (Line pos - 1));
    [lia|].
  cbn [orb]. cbv zeta.
  rewrite (nth_error_nth _ _ _ Hnth).
  destruct (Z.ltb_spec (Column pos - 1) 0); [lia|].
  destruct (Z.ltb_spec (Z.of_nat (length line)) (Column pos - 1)); [lia|].
  cbn [orb].
  assert (Hshown : match repeat x2d (Z.to_nat d) with
                   | [] => []
                   | _ :: _ => [repeat x2d (Z.to_nat d)]
                   end = shown).
  { subst shown. destruct (Z.ltb_spec 0 d).
    - destruct (Z.to_nat d) eqn:E; [lia | reflexivity].
    - replace d with 0 by lia. reflexivity. }
  rewrite Hshown.
  assert (Hline : replaceTabs line = replaceTabs pre ++ replaceTabs rest).
  { unfold replaceTabs, pre, rest. rewrite <- flat_map_app, firstn_skipn.
    reflexivity. }
  assert (Hcaret : repeat x20 (Z.to_nat (Column pos - 1))
                   ++ repeat x20 (3 * countTabs pre) ++ [x5e] =
                   repeat x20 (length (replaceTabs pre)) ++ [x5e]).
  { rewrite app_assoc, <- repeat_app, length_replaceTabs.
    unfold pre at 2. rewrite length_firstn.
    replace (Nat.min (Z.to_nat (Column pos - 1)) (length line))
      with (Z.to_nat (Column pos - 1)) by lia.
    reflexivity. }
  fold pre. rewrite Hline, Hcaret, <- !app_assoc. reflexivity.
Qed.

(** X10. For a source shorter than the largest [int], a divider length and
    a position that are values of [int], [showSourceLine] returns if
    and only if the divider length is not negative and the position is
    inside the source: its line is one of the lines of the source and
    its column is at most one more than the length of that line, in
    bytes. Otherwise it panics. *)
Theorem showSourceLine_returns_iff :
  forall (src : list byte) (pos : Position) (d : Z),
    Z.of_nat (length src) < maxInt ->
    isInt (Line pos) -> isInt (Column pos) ->
    (snd (showSourceLine src pos d) = Returns <->
     0 <= d /\ inSource src pos).
Proof.
  intros src pos d Hlen IL IC. split.
  - unfold showSourceLine.
    destruct (Z.ltb_spec d 0); [discriminate|].
    cbv zeta.
    match goal with
    | |- context [if (wrap64 (Line pos - 1) <? 0) || ?b then _ else _] =>
      destruct ((wrap64 (Line pos - 1) <? 0) || b) eqn:E1; [discriminate|]
    end.
    match goal with
    | |- context [if (wrap64 (Column pos - 1) <? 0) || ?b then _ else _] =>
      destruct ((wrap64 (Column pos - 1) <? 0) || b) eqn:E2; [discriminate|]
    end.
    intros _. split; [lia|].
    pose proof (lineCount_le src) as Hcnt. unfold lineCount in Hcnt.
    assert (HL : 1 <= Line pos).
    { destruct (Z.lt_ge_cases (Line pos) 1) as [Hlt|]; [exfalso | lia].
      destruct (Z.eq_dec (Line pos) (- maxInt - 1)) as [Em|Nm].
      - rewrite Em in E1. vm_compute (wrap64 _) in E1.
        unfold maxInt in *. lia.
      - rewrite wrap64_small in E1 by (unfold isInt, maxInt in *; lia).
        lia. }
    rewrite wrap64_small in E1 by (unfold isInt, maxInt in *; lia).
    rewrite (wrap64_small (Line pos - 1)) in E2
      by (unfold isInt, maxInt in *; lia).
    assert (Hi : (Z.to_nat (Line pos - 1) < length (splitLines src))%nat)
      by lia.
    destruct (nth_error (splitLines src) (Z.to_nat (Line pos - 1)))
      as [line|] eqn:Hnth; [|apply nth_error_None in Hnth; lia].
    rewrite (nth_error_nth _ _ _ Hnth) in E2.
    pose proof (line_length_le src _ _ Hnth).
    assert (HC : 1 <= Column pos).
    { destruct (Z.lt_ge_cases (Column pos) 1) as [Hlt|]; [exfalso | lia].
      destruct (Z.eq_dec (Column pos) (- maxInt - 1)) as [Em|Nm].
      - rewrite Em in E2. vm_compute (wrap64 _) in E2.
        unfold maxInt in *. lia.
      - rewrite wrap64_small in E2 by (unfold isInt, maxInt in *; lia).
        lia. }
    rewrite wrap64_small in E2 by (unfold isInt, maxInt in *; lia).
    split; [exact HL|]. split; [exact HC|].
    exists line. split; [exact Hnth | lia].
  - intros (Hd & HL & HC & line & Hnth & Hcol).
    rewrite (showSourceLine_inSource src pos d line); auto.
Qed.

(** The source [a], a tab, [b], a newline and [c]: line 1, column 4 is
    one column after the end of the first line, and inside the source;
    line 3 is not, nor is column 5 of line 1. *)
Lemma showSourceLine_returns_iff_witness :
  let src := bytes "a" ++ [x09] ++ bytes "b" ++ [x0a] ++ bytes "c" in
  let pos := mkPosition 1 4 in
  Z.of_nat (length src) < maxInt /\ isInt (Line pos) /\ isInt (Column pos) /\
  (0 <= 3 /\ inSource src pos) /\
  snd (showSourceLine src pos 3) = Returns /\
  snd (showSourceLine src (mkPosition 3 1) 3) = Panics /\
  snd (showSourceLine src (mkPosition 1 5) 3) = Panics.
Proof.
  intros src pos.
  assert (Hlen : Z.of_nat (length src) < maxInt) by (vm_compute; reflexivity).
  assert (IL : isInt (Line pos)) by (vm_compute; split; discriminate).
  assert (IC : isInt (Column pos)) by (vm_compute; split; discriminate).
  assert (Hin : 0 <= 3 /\ inSource src pos).
  { split; [lia|]. split; [cbn; lia|]. split; [cbn; lia|].
    exists (bytes "a" ++ [x09] ++ bytes "b").
    split; [reflexivity | cbn; lia]. }
  split; [exact Hlen|]. split; [exact IL|]. split; [exact IC|].
  split; [exact Hin|].
  split; [exact (proj2 (showSourceLine_returns_iff src pos 3 Hlen IL IC) Hin)|].
  split; vm_compute; reflexivity.
Defined.

(** X11. When it returns, [showSourceLine] writes the line of the position
    with each tab replaced by four spaces, and under it a caret that
    stands exactly below the place that the byte at the column of the
    position has in the written line: as many spaces precede the caret
    as the bytes before that column take when written. Both lines are
    between two dividers when the divider length is positive. *)
Theorem showSourceLine_caret :
  forall (src : list byte) (pos : Position) (d : Z) (line : list byte),
    Z.of_nat (length src) < maxInt -> 0 <= d ->
    1 <= Line pos -> 1 <= Column pos ->
    nth_error (splitLines src) (Z.to_nat (Line pos - 1)) = Some line ->
    Column pos <= 1 + Z.of_nat (length line) ->
    let pre := firstn (Z.to_nat (Column pos - 1)) line in
    let rest := skipn (Z.to_nat (Column pos - 1)) line in
    let shown := if 0 <? d then [repeat x2d (Z.to_nat d)] else [] in
    showSourceLine src pos d =
    (shown
     ++ [replaceTabs pre ++ replaceTabs rest;
         repeat x20 (length (replaceTabs pre)) ++ [x5e]]
     ++ shown,
     Returns) /\
    line = pre ++ rest /\
    Z.of_nat (length pre) = Column pos - 1 /\
    length (replaceTabs pre) = (length pre + 3 * countTabs pre)%nat.
Proof.
  intros src pos d line Hlen Hd HL HC Hnth Hcol pre rest shown.
  split; [apply showSourceLine_inSource; assumption|].
  split; [symmetry; apply firstn_skipn|].
  split; [unfold pre; rewrite length_firstn; lia|].
  apply length_replaceTabs.
Qed.

(** The source of one line, a tab and [x = ]: for the position line 1,
    column 6, after the last byte, the tab is written as four spaces
    and the caret is below the ninth column. *)
Lemma showSourceLine_caret_witness :
  let src := [x09] ++ bytes "x = " in
  let pos := mkPosition 1 6 in
  Z.of_nat (length src) < maxInt /\ 0 <= 2 /\
  nth_error (splitLines src) (Z.to_nat (Line pos - 1)) = Some src /\
  showSourceLine src pos 2 =
  ([bytes "--"; bytes "    x = "; bytes "        ^"; bytes "--"], Returns).
Proof.
  intros src pos.
  assert (Hlen : Z.of_nat (length src) < maxInt) by (vm_compute; reflexivity).
  assert (Hnth : nth_error (splitLines src) (Z.to_nat (Line pos - 1))
                 = Some src) by reflexivity.
  split; [exact Hlen|]. split; [lia|]. split; [exact Hnth|].
  rewrite (proj1 (showSourceLine_caret src pos 2 src Hlen ltac:(lia)
                    ltac:(cbn; lia) ltac:(cbn; lia) Hnth ltac:(cbn; lia))).
  vm_compute. reflexivity.
Defined.

(** X12. [showSourceLine] never panics on a position of the lexer: for every
    source shorter than the largest [int], every position that [Scan]
    or [ScanRegex] returns is inside the source, so that the call with
    this source, this position and a divider length that is not
    negative returns. The columns of the lexer count characters and
    those of [showSourceLine] bytes; a line has no more characters than
    bytes. *)
Theorem lexer_positions_can_be_shown :
  forall (s : list byte) (l : Lexer) (c : Call) (r : Result) (l' : Lexer)
         (d : Z),
    Z.of_nat (length s) < maxInt -> reachable s l ->
    call c l = Some (r, l') -> 0 <= d ->
    inSource s (posOf r) /\
    snd (showSourceLine s (posOf r) d) = Returns.
Proof.
  intros s l c r l' d Hlen Hr Hc Hd.
  destruct (call_lineInv s c l r l' (reachable_lineInv s l Hlen Hr)
                         (reachable_lexerInv s l Hlen Hr) Hc)
    as [_ Hin].
  split; [exact Hin|].
  destruct Hin as (HL & HC & line & Hnth & Hcol).
  rewrite (showSourceLine_inSource s (posOf r) d line); auto.
Qed.

(** The source [x = ], a newline and an e with acute accent (two
    bytes) followed by [$]: the third call of [Scan] returns [NEWLINE]
    and the fourth the [ILLEGAL] token of the accented letter, at line
    2, column 1; the position can be shown. *)
Lemma lexer_positions_can_be_shown_witness :
  let s := bytes "x =" ++ [x0a; xc3; xa9] ++ bytes "$" in
  let l := afterScan (afterScan (afterScan (NewLexer s))) in
  Z.of_nat (length s) < maxInt /\ reachable s l /\
  (exists l', call CallScan l =
              Some ((mkPosition 2 1, ILLEGAL,
                     Sprintf "unexpected %q" [ArgRune 233]), l')) /\
  snd (showSourceLine s (mkPosition 2 1) 9) = Returns.
Proof.
  intros s l.
  assert (Hlen : Z.of_nat (length s) < maxInt) by (vm_compute; reflexivity).
  assert (Hr : reachable s l).
  { apply (reach_call s (afterScan (afterScan (NewLexer s))) CallScan
                      (mkPosition 1 4, NEWLINE, Str "") l);
      [|vm_compute; reflexivity].
    apply (reach_call s (afterScan (NewLexer s)) CallScan
                      (mkPosition 1 3, ASSIGN, Str "")
                      (afterScan (afterScan (NewLexer s))));
      [|vm_compute; reflexivity].
    apply (reach_call s (NewLexer s) CallScan
                      (mkPosition 1 1, NAME, StringOfRunes [120])
                      (afterScan (NewLexer s)));
      [apply reach_new | vm_compute; reflexivity]. }
  assert (Hc : call CallScan l =
               Some ((mkPosition 2 1, ILLEGAL,
                      Sprintf "unexpected %q" [ArgRune 233]), afterScan l))
    by (vm_compute; reflexivity).
  split; [exact Hlen|]. split; [exact Hr|].
  split; [eexists; exact Hc|].
  exact (proj2 (lexer_positions_can_be_shown s l CallScan _ _ 9 Hlen Hr Hc
                  ltac:(lia))).
Defined.

(* ================================================================= *)
(** ** Blanks and line continuations *)

(** A method that neither reads nor writes [hadSpace]: run with another
    value of the flag, it does the same and leaves that value. *)
Definition withHadSpace {A} (b : bool) (o : option (Flow A * Lexer))
  : option (Flow A * Lexer) :=
  match o with
  | Some (x, l') => Some (x, set_hadSpace l' b)
  | None => None
  end.

Definition hsIndep {A} (m : M A) : Prop :=
  forall l b, m (set_hadSpace l b) = withHadSpace b (m l).

Lemma hsIndep_ret {A} (a : A) : hsIndep (ret a).
Proof. intros l b. reflexivity. Qed.

Lemma hsIndep_return {A} r : hsIndep (@return_ A r).
Proof. intros l b. reflexivity. Qed.

Lemma hsIndep_getCh : hsIndep getCh.
Proof. intros l b. reflexivity. Qed.

Lemma hsIndep_getPos : hsIndep getPos.
Proof. intros l b. reflexivity. Qed.

Lemma hsIndep_getErrorMsg : hsIndep getErrorMsg.
Proof. intros l b. reflexivity. Qed.

Lemma hsIndep_next : hsIndep next_.
Proof. intros l b. unfold next_. rewrite next_set_hadSpace. reflexivity. Qed.

Lemma hsIndep_bind {A B} (m : M A) (f : A -> M B) :
  hsIndep m -> (forall a, hsIndep (f a)) -> hsIndep (bind m f).
Proof.
  intros Hm Hf l b. unfold bind. rewrite Hm.
  destruct (m l) as [[[a|r] l1]|]; cbn; [apply Hf | reflexivity..].
Qed.

Lemma hsIndep_while {S : Type} fuel cond (body : S -> M S) :
  (forall s l b, cond s (set_hadSpace l b) = cond s l) ->
  (forall s, hsIndep (body s)) ->
  forall s, hsIndep (while fuel cond body s).
Proof.
  intros Hc Hb. induction fuel as [|fuel IH]; intros s l b; [reflexivity|].
  rewrite !while_S, Hc. destruct (cond s l); [|reflexivity].
  apply hsIndep_bind; auto.
Qed.

Ltac hs_step :=
  lazymatch goal with
  | |- hsIndep (bind _ _) => apply hsIndep_bind; [|intros ?]
  | |- hsIndep (ret _) => apply hsIndep_ret
  | |- hsIndep (return_ _) => apply hsIndep_return
  | |- hsIndep getCh => apply hsIndep_getCh
  | |- hsIndep getPos => apply hsIndep_getPos
  | |- hsIndep getErrorMsg => apply hsIndep_getErrorMsg
  | |- hsIndep next_ => apply hsIndep_next
  | |- hsIndep (while _ _ _ _) =>
    apply hsIndep_while; [reflexivity | intros ?]
  | |- hsIndep (if ?c then _ else _) => destruct c
  | |- hsIndep (match ?x with _ => _ end) => destruct x
  end.

Lemma hsIndep_scanToken fuel : hsIndep (scanToken fuel).
Proof.
  unfold scanToken, skipComment, scanName, scanSwitch, scanNumber,
    scanIntPart, scanFracDigits, scanExponent, scanString, scanStringBody,
    digits, choice, appendCh.
  cbv zeta. repeat hs_step.
Qed.

(** What is skipped before a token: a space, a tab or a carriage
    return; a backslash and a newline; a backslash, a carriage return
    and a newline. *)
Inductive Blank : Set :=
  | BlankChar (c : rune)
  | Continuation
  | ContinuationCR.

Definition blankOk (b : Blank) : Prop :=
  match b with
  | BlankChar c => isBlank c = true
  | _ => True
  end.

Definition blankSrc (b : Blank) : list rune :=
  match b with
  | BlankChar c => [c]
  | Continuation => [c_backslash; c_nl]
  | ContinuationCR => [c_backslash; c_cr; c_nl]
  end.

Definition blanksSrc (bs : list Blank) : list rune := flat_map blankSrc bs.

Lemma skipSpaceBody_item b l :
  blankOk b -> ahead (blankSrc b) l = true ->
  isSpaceStart (ch l) = true /\
  skipSpaceBody l =
  Some (Go tt, set_hadSpace (nextN (length (blankSrc b)) l) true).
Proof.
  intros Hok Ha. destruct b as [c| |]; cbn [blankSrc ahead] in Ha;
    repeat (apply andb_true_iff in Ha; destruct Ha as [?Hc Ha]);
    repeat match goal with
           | H : (_ =? _) = true |- _ => apply Z.eqb_eq in H
           end.
  - cbn in Hok. rewrite <- Hc in Hok.
    split; [unfold isBlank in Hok; unfold isSpaceStart; lia|].
    rewrite (skipSpaceBody_blank l Hok), next_set_hadSpace. reflexivity.
  - split; [rewrite Hc; reflexivity|].
    unfold skipSpaceBody, bind, setHadSpace, getCh, getPos, next_, ret.
    repeat (rewrite ?next_set_hadSpace; cbn [ch set_hadSpace];
            rewrite ?Hc, ?Hc0; cbn [Z.eqb Pos.eqb negb]).
    cbn [length blankSrc nextN]. reflexivity.
  - split; [rewrite Hc; reflexivity|].
    unfold skipSpaceBody, bind, setHadSpace, getCh, getPos, next_, ret.
    repeat (rewrite ?next_set_hadSpace; cbn [ch set_hadSpace];
            rewrite ?Hc, ?Hc0, ?Hc1; cbn [Z.eqb Pos.eqb negb]).
    cbn [length blankSrc nextN]. reflexivity.
Qed.

Lemma skipSpace_items items :
  forall l fuel,
    Forall blankOk items -> ahead (blanksSrc items) l = true ->
    skipSpace (length items + fuel) l =
    skipSpace fuel
      (match items with
       | [] => l
       | _ => set_hadSpace (nextN (length (blanksSrc items)) l) true
       end).
Proof.
  unfold skipSpace.
  induction items as [|b items IH]; intros l fuel Hok Ha; [reflexivity|].
  inversion Hok as [|? ? Hb Hok']; subst.
  cbn [blanksSrc flat_map] in Ha |- *. fold (blanksSrc items) in *.
  rewrite ahead_app in Ha. apply andb_true_iff in Ha.
  destruct Ha as [Hab Ha].
  destruct (skipSpaceBody_item b l Hb Hab) as [Hs E].
  change (length (b :: items) + fuel)%nat with (S (length items + fuel)).
  rewrite (while_step _ _ _ _ _ tt _ Hs E).
  rewrite IH by (rewrite ?ahead_set_hadSpace; assumption).
  rewrite length_app, nextN_add.
  destruct items; [reflexivity|].
  rewrite nextN_set_hadSpace. reflexivity.
Qed.

(** X8. Blanks and line continuations before a token change nothing but
    [HadSpace]: with some of them ahead, [Scan] returns what it returns
    when called after them, and leaves the lexer in the same state but
    for the flag, which is [true]. *)
Theorem Scan_skips_blanks :
  forall (l : Lexer) (items : list Blank),
    Forall blankOk items -> items <> [] ->
    ahead (blanksSrc items) l = true ->
    let x := nextN (length (blanksSrc items)) l in
    isSpaceStart (ch x) = false ->
    Scan l = match Scan x with
             | Some (r, l') => Some (r, set_hadSpace l' true)
             | None => None
             end.
Proof.
  intros l items Hok Hne Ha x Hx.
  assert (Hnn : Forall (fun r => 0 <= r) (blanksSrc items)).
  { clear -Hok. induction Hok as [|b bs Hb _ IH]; [constructor|].
    cbn [blanksSrc flat_map]. apply Forall_app. split; [|exact IH].
    destruct b as [c| |]; cbn in *; repeat constructor; try lia.
    unfold isBlank in Hb. lia. }
  assert (Hlen : (length items <= S (length (src l)))%nat).
  { pose proof (ahead_mu _ _ Ha Hnn) as Hmu.
    assert (length items <= length (blanksSrc items))%nat.
    { clear. induction items as [|b bs IH]; [cbn; lia|].
      cbn [blanksSrc flat_map length]. rewrite length_app.
      fold (blanksSrc bs). destruct b; cbn; lia. }
    assert (1 <= length (blanksSrc items))%nat
      by (destruct items; [contradiction | cbn in *; lia]).
    assert (mu l <= S (length (src l)))%nat
      by (unfold mu; destruct (0 <=? ch l); cbn; lia).
    lia. }
  assert (Hsrc : src x = src l).
  { unfold x. generalize (length (blanksSrc items)). clear.
    intros n. revert l. induction n as [|n IH]; intros l; [reflexivity|].
    cbn. rewrite IH. apply next_src. }
  assert (E : scan (fuelOf l) l =
              scanToken (fuelOf l) (set_hadSpace x true)).
  { change (scan (fuelOf l) l)
      with (bind (skipSpace (fuelOf l)) (fun _ => scanToken (fuelOf l))
                 (set_hadSpace l false)).
    replace (fuelOf l)
      with (length items + S (S (length (src l)) - length items))%nat at 1
      by (unfold fuelOf; lia).
    unfold bind at 1.
    rewrite skipSpace_items by (rewrite ?ahead_set_hadSpace; assumption).
    rewrite nextN_set_hadSpace. fold x.
    replace (match items with
             | [] => set_hadSpace l false
             | _ :: _ => set_hadSpace (set_hadSpace x false) true
             end) with (set_hadSpace x true)
      by (destruct items; [contradiction | reflexivity]).
    rewrite skipSpace_none by exact Hx. reflexivity. }
  assert (Ex : scan (fuelOf l) x =
               scanToken (fuelOf l) (set_hadSpace x false)).
  { change (scan (fuelOf l) x)
      with (bind (skipSpace (fuelOf l)) (fun _ => scanToken (fuelOf l))
                 (set_hadSpace x false)).
    unfold fuelOf at 1.
    rewrite (bind_Go _ _ _ _ _
               (skipSpace_none _ (set_hadSpace x false) Hx)).
    reflexivity. }
  unfold Scan, runMethod.
  replace (fuelOf x) with (fuelOf l) by (unfold fuelOf; rewrite Hsrc; auto).
  rewrite E, Ex.
  change (set_hadSpace x true)
    with (set_hadSpace (set_hadSpace x false) true).
  rewrite hsIndep_scanToken.
  destruct (scanToken (fuelOf l) (set_hadSpace x false))
    as [[[r|r] l1]|]; reflexivity.
Qed.

(** The source: a space, a backslash, a newline, a tab and [x]. The
    name is returned with [HadSpace]. *)
Lemma Scan_skips_blanks_witness :
  let l := NewLexer (bytes " \" ++ [x0a; x09] ++ bytes "x") in
  let items := [BlankChar c_space; Continuation; BlankChar c_tab] in
  Forall blankOk items /\ items <> [] /\
  ahead (blanksSrc items) l = true /\
  isSpaceStart (ch (nextN (length (blanksSrc items)) l)) = false /\
  option_map fst (Scan l) =
  Some (mkPosition 2 2, NAME, StringOfRunes [120]) /\
  HadSpace (afterScan l) = true.
Proof.
  intros l items.
  assert (Hok : Forall blankOk items) by (repeat constructor).
  assert (Hne : items <> []) by discriminate.
  assert (Ha : ahead (blanksSrc items) l = true) by (vm_compute; reflexivity).
  assert (Hx : isSpaceStart (ch (nextN (length (blanksSrc items)) l)) = false)
    by (vm_compute; reflexivity).
  split; [exact Hok|]. split; [exact Hne|]. split; [exact Ha|].
  split; [exact Hx|].
  unfold afterScan.
  rewrite (Scan_skips_blanks l items Hok Hne Ha Hx).
  vm_compute. split; reflexivity.
Defined.

(* ================================================================= *)
(** * The first version of the lexer *)

(** [lexer.go] holds two versions of the lexer. The first one has a
    single method [Scan], which tells a regex from a division by
    looking for another slash on the line; its [Lexer] has neither
    [hadSpace] nor [lastTok], and the two fields of the record stay as
    they are here. [NewLexer], [next], [isNameStart] and [choice] are
    the same in both versions. *)
Module V1.

(** An index or slice expression out of range: the method panics, and
    no result comes back. *)
Definition panic {A} : M A := fun _ => None.

Definition getSrc : M (list byte) := fun l => Some (Go (src l), l).
Definition getOffset : M nat := fun l => Some (Go (offset l), l).

(** [bytes.IndexByte]: the index of the first [c] in [b], or [-1]. *)
Fixpoint IndexByte (b : list byte) (c : byte) : Z :=
  match b with
  | [] => -1
  | x :: b' =>
    if Byte.eqb x c then 0
    else let i := IndexByte b' c in if i <? 0 then -1 else i + 1
  end.

(** The test of [case '/']: is there a slash on the rest of the line,
    from the byte before the offset on? [None] when [l.src[prevOfs:]]
    is out of range. *)
Definition looksLikeRegex (s : list byte) (o : nat) : option bool :=
  let prevOfs := Z.of_nat o - 1 in
  if (prevOfs <? 0) || (Z.of_nat (length s) <? prevOfs) then None else
  let rest := skipn (Z.to_nat prevOfs) s in
  let lineLen := IndexByte rest x0a in
  let lineLen :=
      if lineLen <? 0 then Z.of_nat (length s) - prevOfs else lineLen in
  Some (0 <=? IndexByte (firstn (Z.to_nat lineLen) rest) x2f).

(* ----------------------------------------------------------------- *)
(** *** The bytes behind the characters *)

Lemma byteZ_slash b : byteZ b = c_slash -> b = x2f.
Proof. destruct b; vm_compute; intros H; (reflexivity || discriminate). Qed.

Lemma IndexByte_bounds b c : -1 <= IndexByte b c < Z.of_nat (length b).
Proof.
  induction b as [|x b IH]; cbn [IndexByte length]; [lia|].
  destruct (Byte.eqb x c); [lia|]. cbv zeta.
  destruct (IndexByte b c <? 0) eqn:E; lia.
Qed.

Lemma IndexByte_notin b c : ~ In c b -> IndexByte b c = -1.
Proof.
  induction b as [|x b IH]; intros Hn; cbn [IndexByte]; [reflexivity|].
  destruct (Byte.eqb x c) eqn:E.
  - apply Byte.byte_dec_bl in E. exfalso. apply Hn. left. exact E.
  - cbv zeta. rewrite IH by (intros H; apply Hn; right; exact H).
    reflexivity.
Qed.

Lemma IndexByte_in b c : In c b -> 0 <= IndexByte b c.
Proof.
  induction b as [|x b IH]; intros Hin; [contradiction|].
  cbn [IndexByte]. destruct (Byte.eqb x c) eqn:E; [lia|]. cbv zeta.
  destruct Hin as [->|Hin];
    [rewrite (Byte.byte_dec_lb eq_refl) in E; discriminate|].
  specialize (IH Hin). destruct (IndexByte b c <? 0) eqn:E'; lia.
Qed.

(** The index of the first [c] is at most that of any [c]. *)
Lemma IndexByte_le p c q :
  0 <= IndexByte (p ++ c :: q) c <= Z.of_nat (length p).
Proof.
  induction p as [|x p IH]; cbn [app IndexByte length].
  - rewrite (Byte.byte_dec_lb eq_refl). lia.
  - destruct (Byte.eqb x c); [lia|]. cbv zeta.
    destruct (IndexByte (p ++ c :: q) c <? 0) eqn:E; lia.
Qed.

Lemma IndexByte_after p c q :
  ~ In c p -> IndexByte (p ++ q) c = -1 \/
              Z.of_nat (length p) <= IndexByte (p ++ q) c.
Proof.
  induction p as [|x p IH]; intros Hn; cbn [app IndexByte length].
  - pose proof (IndexByte_bounds q c). lia.
  - destruct (Byte.eqb x c) eqn:E.
    + apply Byte.byte_dec_bl in E. exfalso. apply Hn. left. exact E.
    + cbv zeta. destruct IH as [IH|IH];
        [intros H; apply Hn; right; exact H | |];
        destruct (IndexByte (p ++ q) c <? 0) eqn:E'; lia.
Qed.

Lemma In_removelast {A} (x : A) xs : In x (removelast xs) -> In x xs.
Proof.
  induction xs as [|a xs IH]; [intros []|].
  destruct xs as [|b xs]; [intros []|].
  intros [->|Hi]; [left; reflexivity | right; apply IH, Hi].
Qed.

Lemma In_firstn {A} n (x : A) xs : In x (firstn n xs) -> In x xs.
Proof.
  intros H. rewrite <- (firstn_skipn n xs). apply in_or_app. left. exact H.
Qed.

(** Another slash on the line. *)
Lemma looksLikeRegex_true s o pre post :
  (1 <= o)%nat -> skipn (o - 1) s = pre ++ x2f :: post -> ~ In x0a pre ->
  looksLikeRegex s o = Some true.
Proof.
  intros Ho E Hn. unfold looksLikeRegex.
  assert (Hlen : length (skipn (o - 1) s) = (length pre + S (length post))%nat)
    by (rewrite E, length_app; reflexivity).
  rewrite length_skipn in Hlen.
  destruct (Z.ltb_spec (Z.of_nat o - 1) 0); [lia|].
  destruct (Z.ltb_spec (Z.of_nat (length s)) (Z.of_nat o - 1)); [lia|].
  cbn [orb]. cbv zeta.
  replace (Z.to_nat (Z.of_nat o - 1)) with (o - 1)%nat by lia.
  rewrite E.
  set (n := if IndexByte (pre ++ x2f :: post) x0a <? 0
            then Z.of_nat (length s) - (Z.of_nat o - 1)
            else IndexByte (pre ++ x2f :: post) x0a).
  assert (Hlt : (length pre < Z.to_nat n)%nat).
  { subst n.
    destruct (IndexByte (pre ++ x2f :: post) x0a <? 0) eqn:E0; [lia|].
    assert (Hn' : ~ In x0a (pre ++ [x2f])).
    { intros Hi. apply in_app_or in Hi. destruct Hi as [Hi|[Hi|[]]];
        [contradiction | discriminate]. }
    pose proof (IndexByte_after (pre ++ [x2f]) x0a post Hn') as Ha.
    rewrite <- app_assoc, length_app in Ha. cbn in Ha. lia. }
  f_equal. apply Z.leb_le, IndexByte_in.
  rewrite firstn_app. apply in_or_app. right.
  destruct (Z.to_nat n - length pre)%nat eqn:En; [lia|]. left. reflexivity.
Qed.

(** No other slash before the end of the line or of the source. *)
Lemma looksLikeRegex_false s o pre tail :
  (1 <= o)%nat -> (o - 1 <= length s)%nat ->
  skipn (o - 1) s = pre ++ tail -> ~ In x2f pre ->
  tail = [] \/ (exists t, tail = x0a :: t) ->
  looksLikeRegex s o = Some false.
Proof.
  intros Ho Hle E Hn Ht. unfold looksLikeRegex.
  assert (Hlen : length (skipn (o - 1) s) = (length pre + length tail)%nat)
    by (rewrite E, length_app; reflexivity).
  rewrite length_skipn in Hlen.
  destruct (Z.ltb_spec (Z.of_nat o - 1) 0); [lia|].
  destruct (Z.ltb_spec (Z.of_nat (length s)) (Z.of_nat o - 1)); [lia|].
  cbn [orb]. cbv zeta.
  replace (Z.to_nat (Z.of_nat o - 1)) with (o - 1)%nat by lia.
  rewrite E.
  set (n := if IndexByte (pre ++ tail) x0a <? 0
            then Z.of_nat (length s) - (Z.of_nat o - 1)
            else IndexByte (pre ++ tail) x0a).
  assert (Hle' : (Z.to_nat n <= length pre)%nat).
  { subst n. destruct Ht as [->|(t & ->)].
    - rewrite app_nil_r in *. cbn in Hlen.
      pose proof (IndexByte_bounds pre x0a).
      destruct (IndexByte pre x0a <? 0); lia.
    - pose proof (IndexByte_le pre x0a t).
      destruct (IndexByte (pre ++ x0a :: t) x0a <? 0) eqn:E0; lia. }
  f_equal. apply Z.leb_gt.
  rewrite IndexByte_notin; [lia|].
  rewrite firstn_app.
  replace (Z.to_nat n - length pre)%nat with 0%nat by lia.
  rewrite firstn_O, app_nil_r. intros Hi. apply Hn. eapply In_firstn, Hi.
Qed.

(** The lexer is inside its source, and when it is at a character the
    byte before the offset is the last byte of that character: the
    character itself if it is an ASCII one. *)
Definition ready (l : Lexer) : Prop :=
  (offset l <= length (src l))%nat /\
  (0 <= ch l ->
   (1 <= offset l)%nat /\
   (ch l < 128 -> byteZ (nth (offset l - 1) (src l) x00) = ch l) /\
   (128 <= ch l -> 128 <= byteZ (nth (offset l - 1) (src l) x00))).

Lemma skipn_cons_nth {A} k (xs : list A) d :
  (k < length xs)%nat -> skipn k xs = nth k xs d :: skipn (S k) xs.
Proof.
  revert xs. induction k as [|k IH]; intros [|x xs] H; cbn in *; try lia.
  - reflexivity.
  - apply IH. lia.
Qed.

Lemma nth_of_skipn {A} k n (xs : list A) d :
  nth n (skipn k xs) d = nth (k + n) xs d.
Proof.
  revert xs. induction k as [|k IH]; intros xs; [reflexivity|].
  destruct xs as [|x xs]; cbn; [destruct n; reflexivity | apply IH].
Qed.

(** The bytes that one call of [next] reads when it finds a
    character: bytes that are not ASCII, and a last byte. *)
Lemma next_bytes l :
  (offset l <= length (src l))%nat -> 0 <= ch (next l) ->
  exists mid b,
    skipn (offset l) (src l) = mid ++ b :: skipn (offset (next l)) (src l) /\
    Forall (fun x => 128 <= byteZ x) mid /\
    offset (next l) = (offset l + length mid + 1)%nat /\
    (ch (next l) < 128 -> byteZ b = ch (next l)) /\
    (128 <= ch (next l) -> 128 <= byteZ b).
Proof.
  intros Ho H0.
  pose proof (DecodeRune_size (skipn (offset l) (src l))) as [Hle Hz].
  pose proof (DecodeRune_bytes (skipn (offset l) (src l))) as Hb.
  destruct (next_cases l)
    as [(_ & Hc & _)|[(_ & Hc & _)|(Hne & Hr & Hc & E & _)]]; [lia | lia |].
  rewrite Hc, E in *.
  destruct (DecodeRune (skipn (offset l) (src l))) as [r size].
  cbn [fst snd] in *. destruct Hb as [H1 H2].
  assert (Hsz : size <> 0%nat) by tauto.
  assert (Esp : skipn (offset l) (src l) =
                firstn size (skipn (offset l) (src l)) ++
                skipn (offset l + size) (src l)).
  { rewrite (Nat.add_comm (offset l)), <- skipn_skipn.
    symmetry. apply firstn_skipn. }
  assert (Hfl : length (firstn size (skipn (offset l) (src l))) = size)
    by (rewrite length_firstn; lia).
  destruct (Nat.eq_dec size 1) as [->|Hn1].
  - destruct (H1 eq_refl Hr) as (b & rest & Ep & Eb).
    exists [], b. rewrite Ep in Esp. cbn [firstn app length] in *.
    split; [rewrite Ep at 1; exact Esp|].
    split; [constructor|]. split; [lia|].
    subst r. split; intros; lia.
  - destruct H2 as [Hr128 Hall]; [lia|].
    assert (Hne' : firstn size (skipn (offset l) (src l)) <> [])
      by (intros E0; rewrite E0 in Hfl; cbn in Hfl; lia).
    destruct (exists_last Hne') as (mid & b & Em).
    rewrite Em in Hall, Hfl, Esp. rewrite length_app in Hfl. cbn in Hfl.
    apply Forall_app in Hall. destruct Hall as [Hmid Hb].
    inversion Hb; subst.
    exists mid, b. rewrite <- app_assoc in Esp.
    split; [exact Esp|]. split; [exact Hmid|]. split; [lia|].
    split; intros; lia.
Qed.

Lemma ready_next l : (offset l <= length (src l))%nat -> ready (next l).
Proof.
  intros Ho. unfold ready. rewrite next_src.
  assert (Hle : (offset (next l) <= length (src l))%nat).
  { pose proof (DecodeRune_size (skipn (offset l) (src l))) as [Hle _].
    rewrite length_skipn in Hle.
    destruct (next_cases l)
      as [(_ & _ & E & _)|[(_ & _ & E & _)|(_ & _ & _ & E & _)]];
      rewrite E; lia. }
  split; [exact Hle|]. intros H0.
  destruct (next_bytes l Ho H0) as (mid & b & Es & _ & Eo & Hlo & Hhi).
  assert (Hb : nth (offset (next l) - 1) (src l) x00 = b).
  { replace (offset (next l) - 1)%nat with (offset l + length mid)%nat by lia.
    rewrite <- nth_of_skipn, Es, app_nth2 by lia.
    rewrite Nat.sub_diag. reflexivity. }
  rewrite Hb. split; [lia|]. split; assumption.
Qed.

Lemma ready_NewLexer s : ready (NewLexer s).
Proof. apply ready_next. cbn. lia. Qed.

Lemma ready_nextN n : forall l, ready l -> ready (nextN n l).
Proof.
  induction n as [|n IH]; intros l H; [exact H|].
  apply IH, ready_next, H.
Qed.

(** The byte before the offset, when the lexer is at a character. *)
Lemma ready_tail l :
  ready l -> 0 <= ch l ->
  skipn (offset l - 1) (src l) =
  nth (offset l - 1) (src l) x00 :: skipn (offset l) (src l).
Proof.
  intros [Ho H] H0. destruct (H H0) as (H1 & _).
  rewrite (skipn_cons_nth (offset l - 1) (src l) x00) by lia.
  replace (S (offset l - 1)) with (offset l) by lia. reflexivity.
Qed.

Lemma src_nextN n : forall l, src (nextN n l) = src l.
Proof.
  induction n as [|n IH]; intros l; [reflexivity|].
  cbn. rewrite IH. apply next_src.
Qed.

(** The bytes from the last byte of the first character of a run to
    the last byte of its last character: the ASCII bytes among them,
    the last one apart, are characters of the run. *)
Lemma run_bytes rs :
  forall y,
    ready y -> ahead rs y = true -> rs <> [] ->
    Forall (fun r => 0 <= r) rs ->
    let z := nextN (length rs - 1) y in
    ready z /\ ch z = last rs 0 /\
    exists P,
      skipn (offset y - 1) (src y) = P ++ skipn (offset z - 1) (src y) /\
      forall b, In b P -> byteZ b < 128 -> In (byteZ b) (removelast rs).
Proof.
  induction rs as [|r0 rs IH]; intros y Hy Ha Hne Hf; [contradiction|].
  cbn [ahead] in Ha. apply andb_true_iff in Ha. destruct Ha as [Hc Ha].
  apply Z.eqb_eq in Hc. inversion Hf as [|? ? H0 Hf']; subst.
  destruct rs as [|r1 rs].
  - cbn. split; [exact Hy|]. split; [reflexivity|].
    exists []. split; [reflexivity | intros b []].
  - assert (Hy' : ready (next y)) by (apply ready_next, Hy).
    destruct (IH (next y) Hy' Ha ltac:(discriminate) Hf')
      as (Hz & Hcz & P' & EP & HP).
    cbn [length Nat.sub] in *. rewrite Nat.sub_0_r in *.
    cbn [nextN]. split; [exact Hz|].
    split; [exact Hcz|].
    assert (H1 : 0 <= ch (next y)).
    { cbn [ahead] in Ha. apply andb_true_iff in Ha. destruct Ha as [Hc1 _].
      apply Z.eqb_eq in Hc1. inversion Hf'; subst. lia. }
    destruct (next_bytes y (proj1 Hy) H1) as (mid & b & Es & Hmid & Eo & _).
    rewrite next_src in EP.
    assert (Et : skipn (offset (next y) - 1) (src y) =
                 b :: skipn (offset (next y)) (src y)).
    { pose proof (ready_tail (next y) Hy' H1) as Et.
      rewrite next_src in Et. rewrite Et. f_equal.
      replace (offset (next y) - 1)%nat with (offset y + length mid)%nat
        by lia.
      rewrite <- nth_of_skipn, Es, app_nth2 by lia.
      rewrite Nat.sub_diag. reflexivity. }
    exists (nth (offset y - 1) (src y) x00 :: mid ++ P').
    split.
    + rewrite (ready_tail y Hy H0), Es. cbn [app]. f_equal.
      rewrite <- app_assoc. f_equal. rewrite <- EP, Et. reflexivity.
    + intros b0 [<-|Hin] Hlt.
      * destruct Hy as [_ Hy]. destruct (Hy H0) as (_ & Hlo & Hhi).
        left. destruct (Z.lt_ge_cases (ch y) 128); [symmetry; auto|].
        specialize (Hhi ltac:(lia)). lia.
      * apply in_app_or in Hin. destruct Hin as [Hin|Hin].
        -- rewrite Forall_forall in Hmid. specialize (Hmid _ Hin). lia.
        -- right. apply (HP b0 Hin Hlt).
Qed.

Section Tables.

(** Modelled from the spec: the maps [unsupportedKeywords] and
    [keywordTokens] of the [token.go] of this version are not among the
    sources; what follows holds whatever they contain. *)
Variable unsupportedKeywords : list rune -> bool.
Variable keywordTokens : list rune -> option Token.

(** The body of the first loop of [Scan]. *)
Definition skipSpaceBody : M unit :=
  c <- getCh ;;
  (if c =? c_backslash then
     next_ ;;
     c1 <- getCh ;;
     (if c1 =? c_cr then next_ else ret tt) ;;
     c2 <- getCh ;;
     if negb (c2 =? c_nl) then
       p <- getPos ;;
       return_ (p, ILLEGAL, Str "expected \n after \ line continuation")
     else ret tt
   else ret tt) ;;
  next_.

Definition skipSpace (fuel : nat) : M unit :=
  while fuel (fun _ l => isSpaceStart (ch l)) (fun _ => skipSpaceBody) tt.

(** Names: keywords and functions. The message of an unsupported
    keyword is the string that [fmt.Sprintf] builds from its format and
    the name: the name between single quotes, then the text. *)
Definition scanName (fuel : nat) (p : Position) (c : rune) : M Result :=
  runes <- while fuel (fun _ l => isNameStart (ch l) || isDigit (ch l))
                 appendCh [c] ;;
  if unsupportedKeywords runes then
    return_ (p, ILLEGAL,
             StringOfRunes ([c_squote] ++ runes
                            ++ runes_of_string "' is not yet implemented"))
  else
    match keywordTokens runes with
    | Some tok => return_ (p, tok, Str "")
    | None => return_ (p, NAME, StringOfRunes runes)
    end.

(** The body of the loop of the case of a double quote. *)
Definition scanStringBody (runes : list rune) : M (list rune) :=
  c <- getCh ;;
  (if c <? 0 then
     p <- getPos ;;
     return_ (p, ILLEGAL, Str "didn't find end quote in string")
   else ret tt) ;;
  (if (c =? c_cr) || (c =? c_nl) then
     p <- getPos ;;
     return_ (p, ILLEGAL, Str "can't have newline in string")
   else ret tt) ;;
  c <- (if c =? c_backslash then
          next_ ;;
          c1 <- getCh ;;
          if (c1 =? c_dquote) || (c1 =? c_backslash) then ret c1
          else if c1 =? c_t then ret c_tab
          else if c1 =? c_r then ret c_cr
          else if c1 =? c_n then ret c_nl
          else
            p <- getPos ;;
            return_ (p, ILLEGAL,
                     Sprintf "invalid string escape \%c" [ArgRune c1])
        else ret c) ;;
  next_ ;;
  ret (runes ++ [c]).

Definition scanString (fuel : nat) : M (Token * GoString) :=
  runes <- while fuel (fun _ l => negb (ch l =? c_dquote))
                 scanStringBody [] ;;
  next_ ;;
  ret (STRING, StringOfRunes runes).

(** [case '/']: a regex if another slash is on the line, a division
    otherwise. The loop of the regex has the body of [scanRegex]. *)
Definition scanSlash (fuel : nat) : M (Token * GoString) :=
  s <- getSrc ;;
  o <- getOffset ;;
  match looksLikeRegex s o with
  | None => panic
  | Some true =>
    runes <- while fuel (fun _ l => negb (ch l =? c_slash))
                   scanRegexBody [] ;;
    next_ ;;
    ret (REGEX, StringOfRunes runes)
  | Some false =>
    t <- choice c_eq DIV DIV_ASSIGN ;; ret (t, Str "")
  end.

(** [switch ch { ... }] *)
Definition scanSwitch (fuel : nat) (c : rune) : M (Token * GoString) :=
  let tok (m : M Token) : M (Token * GoString) :=
      t <- m ;; ret (t, Str "") in
  if c =? c_nl then ret (NEWLINE, Str "")
  else if c =? c_colon then ret (COLON, Str "")
  else if c =? c_comma then ret (COMMA, Str "")
  else if c =? c_slash then scanSlash fuel
  else if c =? c_lbrace then ret (LBRACE, Str "")
  else if c =? c_lbracket then ret (LBRACKET, Str "")
  else if c =? c_lparen then ret (LPAREN, Str "")
  else if c =? c_minus then
    c1 <- getCh ;;
    if c1 =? c_minus then next_ ;; ret (DECR, Str "")
    else if c1 =? c_eq then next_ ;; ret (SUB_ASSIGN, Str "")
    else ret (SUB, Str "")
  else if c =? c_percent then tok (choice c_eq MOD MOD_ASSIGN)
  else if c =? c_plus then
    c1 <- getCh ;;
    if c1 =? c_plus then next_ ;; ret (INCR, Str "")
    else if c1 =? c_eq then next_ ;; ret (ADD_ASSIGN, Str "")
    else ret (ADD, Str "")
  else if c =? c_rbrace then ret (RBRACE, Str "")
  else if c =? c_rbracket then ret (RBRACKET, Str "")
  else if c =? c_rparen then ret (RPAREN, Str "")
  else if c =? c_star then
    c1 <- getCh ;;
    if c1 =? c_star then next_ ;; tok (choice c_eq POW POW_ASSIGN)
    else if c1 =? c_eq then next_ ;; ret (MUL_ASSIGN, Str "")
    else ret (MUL, Str "")
  else if c =? c_eq then tok (choice c_eq ASSIGN EQUALS)
  else if c =? c_caret then tok (choice c_eq POW POW_ASSIGN)
  else if c =? c_bang then
    c1 <- getCh ;;
    if c1 =? c_eq then next_ ;; ret (NOT_EQUALS, Str "")
    else if c1 =? c_tilde then next_ ;; ret (NOT_MATCH, Str "")
    else ret (NOT, Str "")
  else if c =? c_lt then tok (choice c_eq LESS LTE)
  else if c =? c_gt then tok (choice c_eq GREATER GTE)
  else if c =? c_tilde then ret (MATCH, Str "")
  else if c =? c_question then ret (QUESTION, Str "")
  else if c =? c_semi then ret (SEMICOLON, Str "")
  else if c =? c_dollar then ret (DOLLAR, Str "")
  else if c =? c_amp then
    t <- choice c_amp ILLEGAL AND ;;
    if Token_beq t ILLEGAL then
      p <- getPos ;; c1 <- getCh ;;
      return_ (p, ILLEGAL, Sprintf "unexpected %q after '&'" [ArgRune c1])
    else ret (t, Str "")
  else if c =? c_bar then
    t <- choice c_bar ILLEGAL OR ;;
    if Token_beq t ILLEGAL then
      p <- getPos ;; c1 <- getCh ;;
      return_ (p, ILLEGAL, Sprintf "unexpected %q after '|'" [ArgRune c1])
    else ret (t, Str "")
  else if isDigit c || (c =? c_dot) then scanNumber fuel c
  else if c =? c_dquote then scanString fuel
  else ret (ILLEGAL, Sprintf "unexpected %q" [ArgRune c]).

(** The token that starts at the character [c] read at position [p]. *)
Definition tokenAt (fuel : nat) (p : Position) (c : rune) : M Result :=
  if isNameStart c then scanName fuel p c
  else tv <- scanSwitch fuel c ;; return_ (p, fst tv, snd tv).

(** [func (l *Lexer) Scan() (Position, Token, string)] *)
Definition scan (fuel : nat) : M Result :=
  skipSpace fuel ;;
  skipComment fuel ;;
  c <- getCh ;;
  (if c <? 0 then
     e <- getErrorMsg ;;
     p <- getPos ;;
     if negb (isEmpty e) then return_ (p, ILLEGAL, e)
     else return_ (p, EOF, Str "")
   else ret tt) ;;
  p <- getPos ;;
  c <- getCh ;;
  next_ ;;
  tokenAt fuel p c.

Definition Scan (l : Lexer) : option (Result * Lexer) :=
  runMethod (scan (fuelOf l)) l.

(* ----------------------------------------------------------------- *)
(** *** [Scan] at the start of a token *)

Lemma skipSpace_none1 fuel l :
  isSpaceStart (ch l) = false -> skipSpace (S fuel) l = Some (Go tt, l).
Proof. intros H. unfold skipSpace. apply while_exit. exact H. Qed.

Lemma Scan_at1 l :
  isSpaceStart (ch l) = false -> 0 <= ch l -> ch l <> c_hash ->
  Scan l = runMethod (tokenAt (fuelOf l) (pos l) (ch l)) (next l).
Proof.
  intros Hs H0 Hh. unfold Scan, runMethod, scan. unfold fuelOf at 1.
  rewrite (bind_Go _ _ _ _ _ (skipSpace_none1 _ l Hs)).
  rewrite (bind_Go _ _ _ _ _ (skipComment_none _ l Hh)).
  unfold bind at 1. unfold getCh at 1.
  destruct (Z.ltb_spec (ch l) 0); [lia|]. reflexivity.
Qed.

(* ----------------------------------------------------------------- *)
(** *** String literals *)

(** The items of a string literal of this version: after a backslash
    stands one of five characters. *)
Definition itemOk1 (i : Item) : Prop :=
  match i with
  | Plain c =>
    0 <= c /\ c <> c_dquote /\ c <> c_backslash /\ c <> c_cr /\ c <> c_nl
  | Escaped x =>
    x = c_dquote \/ x = c_backslash \/ x = c_t \/ x = c_r \/ x = c_n
  end.

Definition isEscape1 (x : rune) : bool :=
  (x =? c_dquote) || (x =? c_backslash) || (x =? c_t) || (x =? c_r)
  || (x =? c_n).

Lemma scanStringBody1_plain runes l :
  0 <= ch l -> ch l <> c_backslash -> ch l <> c_cr -> ch l <> c_nl ->
  scanStringBody runes l = Some (Go (runes ++ [ch l]), next l).
Proof.
  intros H0 Hb Hr Hn. unfold scanStringBody, bind, getCh, next_, ret.
  destruct (Z.ltb_spec (ch l) 0); [lia|].
  destruct (Z.eqb_spec (ch l) 13); [lia|].
  destruct (Z.eqb_spec (ch l) 10); [lia|].
  destruct (Z.eqb_spec (ch l) 92); [lia|]. reflexivity.
Qed.

Lemma scanStringBody1_escaped runes l :
  ch l = c_backslash -> isEscape1 (ch (next l)) = true ->
  scanStringBody runes l =
  Some (Go (runes ++ [unescape (ch (next l))]), next (next l)).
Proof.
  intros H He. unfold scanStringBody, bind, getCh, next_, ret, unescape.
  rewrite H. cbn [Z.ltb Z.eqb Z.compare Pos.eqb orb].
  unfold isEscape1 in He.
  destruct (Z.eqb_spec (ch (next l)) 34) as [E|]; [rewrite E; reflexivity|].
  destruct (Z.eqb_spec (ch (next l)) 92) as [E|]; [rewrite E; reflexivity|].
  cbn [orb].
  destruct (Z.eqb_spec (ch (next l)) 116); [reflexivity|].
  destruct (Z.eqb_spec (ch (next l)) 114); [reflexivity|].
  destruct (Z.eqb_spec (ch (next l)) 110); [reflexivity|].
  discriminate.
Qed.

Lemma scanStringBody1_bad_escape runes l :
  ch l = c_backslash -> isEscape1 (ch (next l)) = false ->
  scanStringBody runes l =
  Some (Return (pos (next l), ILLEGAL,
                Sprintf "invalid string escape \%c" [ArgRune (ch (next l))]),
        next l).
Proof.
  intros H He. unfold scanStringBody, bind, getCh, getPos, next_, ret,
                 return_.
  rewrite H. cbn [Z.ltb Z.eqb Z.compare Pos.eqb orb].
  unfold isEscape1 in He.
  destruct (Z.eqb_spec (ch (next l)) 34); [discriminate|].
  destruct (Z.eqb_spec (ch (next l)) 92); [discriminate|].
  destruct (Z.eqb_spec (ch (next l)) 116); [discriminate|].
  destruct (Z.eqb_spec (ch (next l)) 114); [discriminate|].
  destruct (Z.eqb_spec (ch (next l)) 110); [discriminate|].
  reflexivity.
Qed.

Lemma itemOk1_nonneg items :
  Forall itemOk1 items -> Forall (fun r => 0 <= r) (srcOf items).
Proof.
  induction 1 as [|i items Hi _ IH]; simpl; [constructor|].
  destruct i; simpl in *; repeat constructor; try lia; auto.
Qed.

Lemma stringLoop1_items items :
  forall runes l fuel,
    Forall itemOk1 items ->
    ahead (srcOf items) l = true ->
    while (length items + fuel) (fun _ l => negb (ch l =? c_dquote))
          scanStringBody runes l =
    while fuel (fun _ l => negb (ch l =? c_dquote)) scanStringBody
          (runes ++ map strVal items) (nextN (length (srcOf items)) l).
Proof.
  induction items as [|i items IH]; intros runes l fuel Hok Ha.
  - simpl. rewrite app_nil_r. reflexivity.
  - inversion Hok as [|? ? Hi Hok']; subst.
    unfold srcOf in Ha. simpl in Ha. rewrite ahead_app in Ha.
    apply andb_true_iff in Ha. destruct Ha as [Hsrc Ha].
    change (length (i :: items) + fuel)%nat
      with (S (length items + fuel)).
    unfold srcOf. simpl flat_map. rewrite length_app, nextN_add.
    change (map strVal (i :: items)) with ([strVal i] ++ map strVal items).
    rewrite app_assoc.
    destruct i as [c|x]; simpl in Hsrc, Hi |- *.
    + apply andb_true_iff in Hsrc. destruct Hsrc as [Hc _].
      apply Z.eqb_eq in Hc. subst c.
      rewrite (while_step _ _ _ _ _ (runes ++ [ch l]) (next l)).
      * apply IH; auto.
      * apply negb_true_iff, Z.eqb_neq. tauto.
      * apply scanStringBody1_plain; tauto.
    + apply andb_true_iff in Hsrc. destruct Hsrc as [Hc Hx].
      apply andb_true_iff in Hx. destruct Hx as [Hx _].
      apply Z.eqb_eq in Hc. apply Z.eqb_eq in Hx. subst x.
      rewrite (while_step _ _ _ _ _ (runes ++ [unescape (ch (next l))])
                          (next (next l))).
      * apply IH; auto.
      * apply negb_true_iff, Z.eqb_neq. lia.
      * apply scanStringBody1_escaped; [auto|].
        unfold isEscape1. lia.
Qed.

Lemma Scan1_string_prefix items l :
  ch l = c_dquote ->
  Forall itemOk1 items ->
  ahead (srcOf items) (next l) = true ->
  exists fuel,
    Scan l =
    runMethod
      (tv <- (runes <- while (S (S fuel))
                             (fun _ l => negb (ch l =? c_dquote))
                             scanStringBody (map strVal items) ;;
              next_ ;; ret (STRING, StringOfRunes runes)) ;;
       return_ (pos l, fst tv, snd tv))
      (nextN (length (srcOf items)) (next l)).
Proof.
  intros H Hok Ha.
  pose proof (ahead_mu _ _ Ha (itemOk1_nonneg _ Hok)) as Hmu.
  pose proof (length_srcOf items) as Hlen.
  assert (H0 : 0 <= ch l) by lia.
  pose proof (next_mu_lt l H0) as Hlt.
  assert (Hfuel : (mu l <= S (length (src l)))%nat)
    by (unfold mu; destruct (0 <=? ch l); lia).
  exists (length (src l) - length items)%nat.
  rewrite Scan_at1 by (rewrite H; (reflexivity || lia)).
  rewrite H. unfold tokenAt. cbn [isNameStart Z.eqb Z.leb Z.compare
    Pos.compare Pos.compare_cont Pos.eqb andb orb].
  unfold scanSwitch. cbn [Z.eqb Pos.eqb isDigit Z.leb Z.compare Pos.compare
    Pos.compare_cont andb orb].
  unfold scanString, runMethod.
  assert (E : while (fuelOf l) (fun _ l => negb (ch l =? c_dquote))
                    scanStringBody [] (next l) =
              while (S (S (length (src l) - length items)))
                    (fun _ l => negb (ch l =? c_dquote)) scanStringBody
                    (map strVal items)
                    (nextN (length (srcOf items)) (next l))).
  { replace (fuelOf l)
      with (length items + S (S (length (src l) - length items)))%nat
      by (unfold fuelOf; lia).
    rewrite (stringLoop1_items items) by auto. reflexivity. }
  rewrite (bind_cong _ _ _ _ _ (bind_cong _ _ _ _ _ E)). reflexivity.
Qed.

(** X13. In the first version, a string literal is double-quoted and knows
    five escapes. With the lexer at a double quote and over a run of
    items (characters other than the double quote, the backslash, the
    carriage return and the newline, and the escapes of the double
    quote, the backslash, [t], [r] and [n]): when the closing quote
    follows, [Scan] returns [STRING] with the characters of the items;
    when a backslash and any other character follow, it returns
    [ILLEGAL] at that character, with the message of an invalid
    escape. *)
Theorem Scan1_string :
  forall (l : Lexer) (items : list Item),
    ch l = c_dquote ->
    Forall itemOk1 items ->
    ahead (srcOf items) (next l) = true ->
    let x := nextN (length (srcOf items)) (next l) in
    (ch x = c_dquote ->
     Scan l = Some ((pos l, STRING, StringOfRunes (map strVal items)),
                    next x)) /\
    (ch x = c_backslash -> isEscape1 (ch (next x)) = false ->
     Scan l = Some ((pos (next x), ILLEGAL,
                     Sprintf "invalid string escape \%c"
                             [ArgRune (ch (next x))]),
                    next x)).
Proof.
  intros l items H Hok Ha x.
  destruct (Scan1_string_prefix items l H Hok Ha) as (fuel & E).
  split.
  - intros Hx. rewrite E. unfold runMethod, bind.
    rewrite while_exit by (fold x; rewrite Hx; reflexivity).
    reflexivity.
  - intros Hx He. rewrite E. unfold runMethod, bind.
    assert (Hc : negb (ch x =? 34) = true) by (rewrite Hx; reflexivity).
    rewrite (while_return _ (fun _ l => negb (ch l =? 34)) _ _ _ _ _ Hc
               (scanStringBody1_bad_escape _ _ Hx He)).
    reflexivity.
Qed.

(* ----------------------------------------------------------------- *)
(** *** Names *)

(** X14. In the first version, with the lexer at a letter or an underscore,
    [Scan] reads the longest run of letters, digits and underscores;
    it returns [ILLEGAL] if the run is one of the keywords that are
    not supported, the token of the keyword if it is another keyword,
    and [NAME] with the run as value otherwise. *)
Theorem Scan1_name :
  forall l : Lexer,
    isNameStart (ch l) = true ->
    exists rest,
      forallb isNameChar rest = true /\
      ahead (ch l :: rest) l = true /\
      isNameChar (ch (nextN (S (length rest)) l)) = false /\
      let name := ch l :: rest in
      Scan l =
      Some (if unsupportedKeywords name then
              (pos l, ILLEGAL,
               StringOfRunes
                 ([c_squote] ++ name
                  ++ runes_of_string "' is not yet implemented"))
            else
              match keywordTokens name with
              | Some tok => (pos l, tok, Str "")
              | None => (pos l, NAME, StringOfRunes name)
              end,
            nextN (S (length rest)) l).
Proof.
  intros l Hn.
  assert (H0 : 0 <= ch l) by auto using isNameStart_nonneg.
  assert (Hs : isSpaceStart (ch l) = false)
    by (unfold isNameStart in Hn; unfold isSpaceStart; lia).
  assert (Hh : ch l <> c_hash) by (unfold isNameStart in Hn; lia).
  rewrite (Scan_at1 l Hs H0 Hh). unfold tokenAt. rewrite Hn.
  unfold scanName, runMethod.
  assert (Hf : (mu (next l) < fuelOf l)%nat)
    by (pose proof (mu_fuelOf l); pose proof (next_mu_le l); lia).
  destruct (nameLoop_run (fuelOf l) [ch l] (next l) Hf)
    as (rest & E & Hd & Ha & Hend).
  exists rest. split; [exact Hd|]. cbn [ahead]. rewrite Z.eqb_refl, Ha.
  split; [reflexivity|]. split; [exact Hend|].
  rewrite (bind_Go _ _ _ _ _ E). cbn [app nextN].
  destruct (unsupportedKeywords (ch l :: rest)); [reflexivity|].
  destruct (keywordTokens (ch l :: rest)); reflexivity.
Qed.

(* ----------------------------------------------------------------- *)
(** *** The tokens the first version does not have *)

(** X15. In the first version a single bar is an error, there being no pipe
    token; a single quote starts nothing; and of two [>] in a row only
    the first is read, as [GREATER]. *)
Theorem Scan1_bar_quote_append :
  forall l : Lexer,
    (ch l = c_bar -> ch (next l) <> c_bar ->
     Scan l = Some ((pos (next l), ILLEGAL,
                     Sprintf "unexpected %q after '|'"
                             [ArgRune (ch (next l))]),
                    next l)) /\
    (ch l = c_squote ->
     Scan l = Some ((pos l, ILLEGAL,
                     Sprintf "unexpected %q" [ArgRune c_squote]),
                    next l)) /\
    (ch l = c_gt -> ch (next l) = c_gt ->
     Scan l = Some ((pos l, GREATER, Str ""), next l)).
Proof.
  intros l. split; [|split].
  - intros H Hn. rewrite Scan_at1 by (rewrite H; (reflexivity || lia)).
    rewrite H. unfold tokenAt, runMethod, scanSwitch.
    cbn [isNameStart Z.eqb Z.leb Z.compare Pos.compare Pos.compare_cont
         Pos.eqb andb orb isDigit negb].
    unfold choice, bind, getCh, getPos, next_, ret, return_.
    destruct (Z.eqb_spec (ch (next l)) 124); [contradiction | reflexivity].
  - intros H. rewrite Scan_at1 by (rewrite H; (reflexivity || lia)).
    rewrite H. reflexivity.
  - intros H Hn. rewrite Scan_at1 by (rewrite H; (reflexivity || lia)).
    rewrite H. unfold tokenAt, runMethod, scanSwitch.
    cbn [isNameStart Z.eqb Z.leb Z.compare Pos.compare Pos.compare_cont
         Pos.eqb andb orb isDigit negb].
    unfold choice, bind, getCh, getPos, next_, ret, return_.
    rewrite Hn. reflexivity.
Qed.

(* ----------------------------------------------------------------- *)
(** *** The slash *)

Lemma Scan1_at_slash l :
  ch l = c_slash ->
  Scan l =
  runMethod (tv <- scanSlash (fuelOf l) ;; return_ (pos l, fst tv, snd tv))
            (next l).
Proof.
  intros H. rewrite Scan_at1 by (rewrite H; (reflexivity || lia)).
  rewrite H. reflexivity.
Qed.

Lemma scanSlash_cases fuel y b :
  looksLikeRegex (src y) (offset y) = Some b ->
  scanSlash fuel y =
  if b then
    (runes <- while fuel (fun _ l => negb (ch l =? c_slash))
                    scanRegexBody [] ;;
     next_ ;; ret (REGEX, StringOfRunes runes)) y
  else (t <- choice c_eq DIV DIV_ASSIGN ;; ret (t, Str "")) y.
Proof.
  intros E. unfold scanSlash. unfold bind at 1 2. unfold getSrc, getOffset.
  rewrite E. destruct b; reflexivity.
Qed.

(** The bytes that the test looks at when a run of characters and then
    an ASCII character [c] are ahead: bytes whose ASCII ones are
    characters of the run, and then the byte of [c]. *)
Lemma slash_line rs y c :
  ready y -> Forall (fun r => 0 <= r) rs -> 0 <= c < 128 ->
  ahead (rs ++ [c]) y = true ->
  (1 <= offset y <= length (src y))%nat /\
  exists P b t,
    skipn (offset y - 1) (src y) = P ++ b :: t /\ byteZ b = c /\
    forall b0, In b0 P -> byteZ b0 < 128 -> In (byteZ b0) rs.
Proof.
  intros Hy Hf Hc Ha.
  assert (Hf' : Forall (fun r => 0 <= r) (rs ++ [c]))
    by (apply Forall_app; split; [exact Hf | repeat constructor; lia]).
  assert (Hne : rs ++ [c] <> []) by (destruct rs; discriminate).
  destruct (run_bytes (rs ++ [c]) y Hy Ha Hne Hf')
    as (Hz & Hcz & P & EP & HP).
  rewrite removelast_last in HP. rewrite last_last in Hcz.
  match type of Hz with ready ?t => set (z := t) in * end.
  assert (H0 : 0 <= ch y).
  { destruct rs as [|r0 rs]; cbn [app ahead] in Ha;
      apply andb_true_iff in Ha; destruct Ha as [Hh _];
      apply Z.eqb_eq in Hh; [lia|].
    inversion Hf as [|? ? Hr0 _]. lia. }
  split; [destruct Hy as [Ho Hy]; destruct (Hy H0); lia|].
  pose proof (ready_tail z Hz ltac:(lia)) as Et.
  assert (Es : src z = src y) by apply src_nextN.
  rewrite Es in Et.
  exists P, (nth (offset z - 1) (src y) x00), (skipn (offset z) (src y)).
  split; [rewrite EP, Et; reflexivity|].
  split; [|exact HP].
  destruct Hz as [_ Hz]. destruct (Hz ltac:(lia)) as (_ & Hlo & _).
  rewrite Es in Hlo. rewrite Hlo by lia. exact Hcz.
Qed.

Lemma Scan1_regex l items :
  ready l -> ch l = c_slash ->
  Forall (itemOk c_slash) items -> ~ In c_nl (srcOf items) ->
  ahead (srcOf items ++ [c_slash]) (next l) = true ->
  Scan l = Some ((pos l, REGEX, StringOfRunes (reValOf items)),
                 next (nextN (length (srcOf items)) (next l))).
Proof.
  intros Hl Hc Hok Hnl Ha. set (y := next l) in *.
  assert (Hy : ready y) by (apply ready_next, Hl).
  assert (H0 : 0 <= ch l) by lia.
  rewrite (Scan1_at_slash l Hc). unfold runMethod. fold y.
  destruct (slash_line (srcOf items) y c_slash Hy
              (itemOk_nonneg _ _ Hok) ltac:(lia) Ha)
    as (Ho & P & b & t & E & Eb & HP).
  apply byteZ_slash in Eb. subst b.
  assert (HnP : ~ In x0a P).
  { intros Hi. apply Hnl. apply (HP x0a Hi). reflexivity. }
  pose proof (looksLikeRegex_true _ _ _ _ (proj1 Ho) E HnP) as EL.
  rewrite (bind_cong _ _ _ _ _ (scanSlash_cases _ _ _ EL)).
  rewrite ahead_app in Ha. apply andb_true_iff in Ha.
  destruct Ha as [Ha Hx]. cbn [ahead] in Hx.
  apply andb_true_iff in Hx. destruct Hx as [Hx _].
  pose proof (ahead_mu _ _ Ha (itemOk_nonneg _ _ Hok)) as Hmu.
  pose proof (length_srcOf items) as Hlen.
  pose proof (next_mu_lt l H0) as Hlt.
  assert (Hfuel : (mu l <= S (length (src l)))%nat)
    by (unfold mu; destruct (0 <=? ch l); lia).
  fold y in Hlt.
  replace (fuelOf l)
    with (length items + S (S (length (src l) - length items)))%nat
    by (unfold fuelOf; lia).
  unfold bind at 1 2.
  rewrite (regexLoop_items items [] y _ Hok Ha).
  rewrite while_exit by (rewrite Hx; reflexivity).
  reflexivity.
Qed.

(** X16. In the first version a slash starts a regex when another slash
    stands on the rest of the line, counted from the character after
    the slash, and is a division otherwise. With the lexer ready at a
    slash: over a run of regex items without a newline and then a
    slash, [Scan] returns [REGEX] with the text of the items; when the
    slash is the last character of the source, [Scan] finds the slash
    itself on the line and returns [ILLEGAL] for the missing end
    slash; and over a run of characters without a slash that a newline
    or the end of the source follows, [Scan] returns [DIV], or
    [DIV_ASSIGN] when the run starts with [=]. *)
Theorem Scan1_slash :
  forall l : Lexer,
    ready l -> ch l = c_slash ->
    let y := next l in
    (forall items,
        Forall (itemOk c_slash) items -> ~ In c_nl (srcOf items) ->
        ahead (srcOf items ++ [c_slash]) y = true ->
        Scan l = Some ((pos l, REGEX, StringOfRunes (reValOf items)),
                       next (nextN (length (srcOf items)) y))) /\
    (ch y < 0 ->
     Scan l = Some ((pos y, ILLEGAL, Str "didn't find end slash in regex"),
                    y)) /\
    (forall rs,
        Forall (fun r => 0 <= r) rs -> ~ In c_slash rs ->
        ahead (rs ++ [c_nl]) y = true \/
        (rs <> [] /\ ahead rs y = true /\
         ch (nextN (length rs) y) < 0 /\
         offset (nextN (length rs) y) = length (src l)) ->
        Scan l = Some (if ch y =? c_eq
                       then ((pos l, DIV_ASSIGN, Str ""), next y)
                       else ((pos l, DIV, Str ""), y))).
Proof.
  intros l Hl Hc y.
  assert (Hy : ready y) by (apply ready_next, Hl).
  assert (H0 : 0 <= ch l) by lia.
  split; [intros items Hok Hnl Ha; apply Scan1_regex; assumption|].
  rewrite (Scan1_at_slash l Hc). unfold runMethod.
  split.
  - intros Hy0.
    assert (Eo : offset y = offset l).
    { subst y.
      pose proof (DecodeRune_nonneg (skipn (offset l) (src l))).
      destruct (next_cases l)
        as [(_ & _ & E & _)|[(_ & _ & E & _)|(_ & _ & E & _)]];
        [exact E | exact E | lia]. }
    assert (E : skipn (offset y - 1) (src y) =
                [] ++ x2f :: skipn (offset l) (src l)).
    { rewrite Eo. unfold y. rewrite next_src, (ready_tail l Hl H0).
      destruct Hl as [_ Hl]. destruct (Hl H0) as (_ & Hlo & _).
      rewrite (byteZ_slash _ (eq_trans (Hlo ltac:(lia)) Hc)). reflexivity. }
    assert (Ho : (1 <= offset y)%nat)
      by (rewrite Eo; destruct Hl as [_ Hl]; destruct (Hl H0); lia).
    pose proof (looksLikeRegex_true _ _ _ _ Ho E ltac:(intros [])) as EL.
    rewrite (bind_cong _ _ _ _ _ (scanSlash_cases _ _ _ EL)).
    unfold bind at 1 2. unfold fuelOf.
    assert (Hcond : negb (ch y =? c_slash) = true)
      by (apply negb_true_iff, Z.eqb_neq; lia).
    rewrite (while_return _ (fun _ l => negb (ch l =? c_slash)) _ _ _ _ _
               Hcond (scanRegexBody_end _ _ Hy0)).
    reflexivity.
  - intros rs Hf Hns Hend.
    assert (EL : looksLikeRegex (src y) (offset y) = Some false).
    { destruct Hend as [Ha|(Hne & Ha & Hx & Hox)].
      - destruct (slash_line rs y c_nl Hy Hf ltac:(lia) Ha)
          as (Ho & P & b & t & E & Eb & HP).
        apply byteZ_newline in Eb. subst b.
        apply (looksLikeRegex_false _ _ P (x0a :: t)); try lia; auto.
        + intros Hi. apply Hns. apply (HP x2f Hi). reflexivity.
        + right. exists t. reflexivity.
      - destruct (run_bytes rs y Hy Ha Hne Hf) as (Hz & Hcz & P & EP & HP).
        match type of Hz with ready ?t => set (z := t) in * end.
        assert (Ex : nextN (length rs) y = next z).
        { destruct rs as [|r rs]; [contradiction|].
          subst z. cbn [length Nat.sub]. rewrite Nat.sub_0_r.
          replace (S (length rs)) with (length rs + 1)%nat by lia.
          rewrite nextN_add. reflexivity. }
        rewrite Ex in Hx, Hox.
        assert (Eo : offset (next z) = offset z).
        { pose proof (DecodeRune_nonneg (skipn (offset z) (src z))).
          destruct (next_cases z)
            as [(_ & _ & E & _)|[(_ & _ & E & _)|(_ & _ & E & _)]];
            [exact E | exact E | lia]. }
        assert (Es : src z = src y) by apply src_nextN.
        assert (Hlast : In (last rs 0) rs).
        { destruct (exists_last Hne) as (rs' & r & ->).
          rewrite last_last. apply in_or_app. right. left. reflexivity. }
        assert (Hz0 : 0 <= ch z).
        { rewrite Hcz. rewrite Forall_forall in Hf. apply Hf, Hlast. }
        pose proof (ready_tail z Hz Hz0) as Et.
        rewrite Es in Et.
        assert (Eend : skipn (offset z) (src y) = []).
        { apply skipn_all2. unfold y. rewrite next_src. lia. }
        rewrite Eend in Et.
        assert (H0y : 0 <= ch y).
        { destruct rs as [|r0 rs]; [contradiction|]. cbn [ahead] in Ha.
          apply andb_true_iff in Ha. destruct Ha as [Hh _].
          apply Z.eqb_eq in Hh. inversion Hf as [|? ? Hr0 _]. lia. }
        assert (Ho : (1 <= offset y <= length (src y))%nat)
          by (destruct Hy as [? Hy]; destruct (Hy H0y); lia).
        apply (looksLikeRegex_false _ _
                 (P ++ [nth (offset z - 1) (src y) x00]) []);
          try lia.
        + rewrite app_nil_r, EP, Et. reflexivity.
        + intros Hi. apply in_app_or in Hi.
          destruct Hi as [Hi|[Hi|[]]].
          * apply Hns. apply In_removelast. apply (HP x2f Hi).
            reflexivity.
          * destruct Hz as [_ Hz]. destruct (Hz Hz0) as (_ & Hlo & Hhi).
            rewrite Es, Hi in Hlo, Hhi.
            change (byteZ x2f) with 47 in Hlo, Hhi.
            apply Hns.
            assert (Hin : In (ch z) rs) by (rewrite Hcz; exact Hlast).
            destruct (Z.lt_ge_cases (ch z) 128) as [Hlt|Hge];
              [rewrite <- (Hlo Hlt) in Hin; exact Hin|].
            specialize (Hhi ltac:(lia)). lia.
        + left. reflexivity. }
    rewrite (bind_cong _ _ _ _ _ (scanSlash_cases _ _ _ EL)).
    unfold choice, bind, getCh, next_, ret, return_.
    destruct (ch y =? c_eq); reflexivity.
Qed.

(* ----------------------------------------------------------------- *)
(** *** [Scan] always returns *)

(** Once a character has been read, the offset is past a byte. *)
Definition past (l : Lexer) : Prop := ready l /\ (1 <= offset l)%nat.

Lemma past_next l : past l -> past (next l).
Proof.
  intros [Hr Ho]. split; [apply ready_next, Hr|].
  pose proof (next_offset_le l). lia.
Qed.

Lemma ready_past l : ready l -> 0 <= ch l -> past l.
Proof.
  intros Hr H0. split; [exact Hr|]. destruct Hr as [_ Hr]. apply Hr, H0.
Qed.

(** The slice expressions of the test are in range. *)
Lemma looksLikeRegex_some s o :
  (1 <= o <= length s)%nat -> exists b, looksLikeRegex s o = Some b.
Proof.
  intros Ho. unfold looksLikeRegex.
  destruct (Z.ltb_spec (Z.of_nat o - 1) 0); [lia|].
  destruct (Z.ltb_spec (Z.of_nat (length s)) (Z.of_nat o - 1)); [lia|].
  cbn [orb]. eexists. reflexivity.
Qed.

Section Returns.
Variable Inv : Lexer -> Prop.
Hypothesis Inv_next : forall l, Inv l -> Inv (next l).

Lemma skipSpace1_reads fuel l :
  Inv l -> (mu l < fuel)%nat ->
  reads Inv (skipSpace fuel) l (fun _ _ => True).
Proof.
  intros Hi Hf. unfold skipSpace. eapply reads_weaken.
  - apply (while_reads Inv (fun _ _ => True)); auto.
    intros [] l0 _ Hi0 Hc. unfold skipSpaceBody.
    apply isSpaceStart_nonneg in Hc.
    pose proof (next_mu_lt l0 Hc).
    pose proof (next_mu_le (next l0)).
    pose proof (next_mu_le (next (next l0))).
    pose proof (next_mu_le (next (next (next l0)))).
    repeat reads_step;
      (apply reads_next; [.. | split; [exact I | lia]]; auto).
  - auto.
Qed.

Lemma scanString1_reads fuel l :
  Inv l -> (mu l < fuel)%nat ->
  reads Inv (scanString fuel) l (fun tv _ => fst tv = STRING).
Proof.
  intros Hi Hf. unfold scanString.
  eapply reads_bind.
  - apply (while_reads Inv (fun _ _ => True)); auto.
    intros runes l0 _ Hi0 _. unfold scanStringBody.
    pose proof (next_mu_le (next l0)).
    repeat reads_step;
      (split; [exact I | pose proof (next_mu_lt l0); lia]).
  - intros runes l1 _ Hi1 Hmu1. cbn beta.
    repeat reads_step. reflexivity.
Qed.

Lemma regexLoop_reads fuel l :
  Inv l -> (mu l < fuel)%nat ->
  reads Inv (runes <- while fuel (fun _ l => negb (ch l =? c_slash))
                            scanRegexBody [] ;;
             next_ ;; ret (REGEX, StringOfRunes runes)) l
        (fun tv _ => fst tv = REGEX).
Proof.
  intros Hi Hf. eapply reads_bind.
  - apply (while_reads Inv (fun _ _ => True)); auto.
    intros runes l0 _ Hi0 _. apply scanRegexBody_reads; auto.
  - intros runes l1 _ Hi1 Hmu1. cbn beta.
    repeat reads_step. reflexivity.
Qed.
End Returns.

Lemma scanSlash_reads fuel l :
  past l -> (mu l < fuel)%nat ->
  reads past (scanSlash fuel) l (fun tv _ => fst tv <> ILLEGAL).
Proof.
  intros Hi Hf.
  destruct (looksLikeRegex_some (src l) (offset l)) as [b E];
    [destruct Hi as [[? _] ?]; lia|].
  unfold reads. rewrite (scanSlash_cases fuel l b E). destruct b.
  - eapply reads_weaken; [apply regexLoop_reads; auto using past_next|].
    cbn beta. intros tv _ ->. discriminate.
  - eapply reads_bind; [apply choice_reads; auto using past_next|].
    intros t l1 [(_ & -> & _)|(_ & -> & _)] Hi1 _; cbn beta;
      apply reads_ret; auto; discriminate.
Qed.

Ltac reads_choice :=
  lazymatch goal with
  | |- reads _ (bind (choice _ _ _) _) _ _ =>
    eapply reads_bind;
    [apply choice_reads; auto using past_next
    | intros ? ? [(? & ? & ?)|(? & ? & ?)] ? ?; subst; cbn beta]
  end.

(** The [switch] ends, without a panic; when it goes on with
    [ILLEGAL], there is a message. *)
Lemma scanSwitch1_reads fuel c l :
  past l -> (mu l < fuel)%nat ->
  reads past (scanSwitch fuel c) l
        (fun tv _ => fst tv = ILLEGAL -> isEmpty (snd tv) = false).
Proof.
  intros Hi Hf. unfold scanSwitch. cbv zeta.
  pose proof past_next as Hn.
  repeat match goal with
         | |- reads _ (if ?b then _ else _) _ _ => destruct b eqn:?
         end;
    try (eapply reads_weaken;
         [first [apply scanNumber_reads | apply scanString1_reads
                | apply scanSlash_reads]; auto
         | intros [t v] l1 Ht; cbn in Ht |- *; intros ->;
           first [discriminate | contradiction]]);
    repeat first [reads_step | reads_choice];
    cbn [fst snd]; intros; try discriminate; auto.
Qed.

(** X17. In the first version [Scan] always returns: its loops end, and the
    slice expressions of the test of the slash are in range, so that
    it does not panic. This holds of a lexer that is ready, as the one
    that [NewLexer] makes of any source is, and [Scan] leaves the lexer
    ready. Unless it returns [EOF] or [ILLEGAL], it has read at least
    one character. *)
Theorem Scan1_returns :
  (forall s : list byte, ready (NewLexer s)) /\
  (forall l : Lexer,
      ready l ->
      exists r l',
        Scan l = Some (r, l') /\ ready l' /\
        (tokOf r = EOF \/ tokOf r = ILLEGAL \/ (mu l' < mu l)%nat)).
Proof.
  split; [exact ready_NewLexer|].
  intros l Hl. pose proof (mu_fuelOf l) as Hf.
  assert (Hrn : forall x, ready x -> ready (next x))
    by (intros x Hx; apply ready_next, Hx).
  set (R := fun (r : Result) (l' : Lexer) =>
              tokOf r = EOF \/ tokOf r = ILLEGAL \/ (mu l' < mu l)%nat).
  assert (Re : forall I r l', early I r -> R r l')
    by (intros I r l' (_ & Ht & _); right; left; exact Ht).
  assert (F : finishes ready (scan (fuelOf l)) l R).
  { unfold scan.
    eapply finishes_bind;
      [apply Re | apply skipSpace1_reads; auto|].
    intros _ l1 _ Hi1 Hmu1. cbn beta.
    eapply finishes_bind;
      [apply Re | apply skipComment_reads; auto; lia|].
    intros _ l2 _ Hi2 Hmu2. cbn beta.
    apply finishes_getCh. cbn beta.
    destruct (Z.ltb_spec (ch l2) 0) as [Hc|Hc].
    - apply finishes_assoc. apply finishes_getErrorMsg. cbn beta.
      apply finishes_assoc. apply finishes_getPos. cbn beta.
      destruct (negb (isEmpty (errorMsg l2)));
        (apply finishes_return_bind; [auto|]); subst R; cbn; auto.
    - apply finishes_ret_bind.
      apply finishes_getPos. cbn beta. apply finishes_getCh. cbn beta.
      apply finishes_next_bind; [auto|].
      pose proof (ready_past l2 Hi2 Hc) as Hp2.
      assert (Hlt : (mu (next l2) < mu l)%nat)
        by (pose proof (next_mu_lt l2 Hc); lia).
      assert (G : finishes past (tokenAt (fuelOf l) (pos l2) (ch l2))
                           (next l2) R).
      { unfold tokenAt. destruct (isNameStart (ch l2)).
        - unfold scanName.
          eapply finishes_bind;
            [apply Re | apply nameLoop_reads;
                        auto using past_next; lia|].
          intros runes l3 _ Hi3 Hmu3. cbn beta.
          assert (HR : forall r, R r l3)
            by (intros r; right; right; lia).
          destruct (unsupportedKeywords runes);
            [apply finishes_return; auto|].
          destruct (keywordTokens runes); apply finishes_return; auto.
        - eapply finishes_bind;
            [apply Re | apply scanSwitch1_reads;
                        auto using past_next; lia|].
          intros tv l3 _ Hi3 Hmu3. cbn beta.
          apply finishes_return; [auto|]. right; right. lia. }
      destruct G as (r & l' & Hm & [Hi' _] & Hmu' & HR).
      exists r, l'. split; [exact Hm|]. split; [exact Hi'|].
      pose proof (next_mu_le l2). split; [lia | exact HR]. }
  destruct F as (r & l' & Hm & Hi' & _ & HR).
  exists r, l'. split; [exact Hm|]. split; [exact Hi' | exact HR].
Qed.

End Tables.

(* ----------------------------------------------------------------- *)
(** *** Examples *)

(** A table of keywords for the examples: the keywords of the second
    version, with [getline] taken as not supported. *)
Definition sampleUnsupported (name : list rune) : bool :=
  if list_eq_dec Z.eq_dec name (runes_of_string "getline")
  then true else false.

(** The source is a string literal of the letter [a], the escape of a
    tab and the letter [b]. *)
Lemma Scan1_string_witness :
  let l := NewLexer [x22; x61; x5c; x74; x62; x22] in
  let items := [Plain 97; Escaped 116; Plain 98] in
  let x := nextN (length (srcOf items)) (next l) in
  ch l = c_dquote /\ Forall itemOk1 items /\
  ahead (srcOf items) (next l) = true /\ ch x = c_dquote /\
  Scan sampleUnsupported keywordTokens l =
  Some ((pos l, STRING, StringOfRunes (map strVal items)), next x).
Proof.
  intros l items x.
  assert (H : ch l = c_dquote) by (vm_compute; reflexivity).
  assert (Hok : Forall itemOk1 items) by (repeat constructor; cbn; lia).
  assert (Ha : ahead (srcOf items) (next l) = true)
    by (vm_compute; reflexivity).
  assert (Hx : ch x = c_dquote) by (vm_compute; reflexivity).
  split; [exact H|]. split; [exact Hok|]. split; [exact Ha|].
  split; [exact Hx|].
  exact (proj1 (Scan1_string sampleUnsupported keywordTokens l items
                             H Hok Ha) Hx).
Defined.

(** The source [getline x]: the name is reported as not supported. *)
Lemma Scan1_name_witness :
  let l := NewLexer (bytes "getline x") in
  isNameStart (ch l) = true /\
  exists rest,
    forallb isNameChar rest = true /\
    ahead (ch l :: rest) l = true /\
    isNameChar (ch (nextN (S (length rest)) l)) = false /\
    let name := ch l :: rest in
    Scan sampleUnsupported keywordTokens l =
    Some (if sampleUnsupported name then
            (pos l, ILLEGAL,
             StringOfRunes
               ([c_squote] ++ name
                ++ runes_of_string "' is not yet implemented"))
          else
            match keywordTokens name with
            | Some tok => (pos l, tok, Str "")
            | None => (pos l, NAME, StringOfRunes name)
            end,
          nextN (S (length rest)) l).
Proof.
  intros l.
  assert (Hn : isNameStart (ch l) = true) by (vm_compute; reflexivity).
  split; [exact Hn|].
  exact (Scan1_name sampleUnsupported keywordTokens l Hn).
Defined.

(** The source [| x]: the bar is an error, reported at the space. *)
Lemma Scan1_bar_quote_append_witness :
  let l := NewLexer (bytes "| x") in
  ch l = c_bar /\ ch (next l) <> c_bar /\
  Scan sampleUnsupported keywordTokens l =
  Some ((pos (next l), ILLEGAL,
         Sprintf "unexpected %q after '|'" [ArgRune (ch (next l))]),
        next l).
Proof.
  intros l.
  assert (H : ch l = c_bar) by (vm_compute; reflexivity).
  assert (Hn : ch (next l) <> c_bar) by (vm_compute; discriminate).
  split; [exact H|]. split; [exact Hn|].
  exact (proj1 (Scan1_bar_quote_append sampleUnsupported keywordTokens l)
               H Hn).
Defined.

(** The source [/a\/b/ c]: a regex of the letter [a], a slash and the
    letter [b]. *)
Lemma Scan1_slash_witness :
  let l := NewLexer (bytes "/a\/b/ c") in
  let items := [Plain 97; Escaped 47; Plain 98] in
  ready l /\ ch l = c_slash /\
  Forall (itemOk c_slash) items /\ ~ In c_nl (srcOf items) /\
  ahead (srcOf items ++ [c_slash]) (next l) = true /\
  Scan sampleUnsupported keywordTokens l =
  Some ((pos l, REGEX, StringOfRunes (reValOf items)),
        next (nextN (length (srcOf items)) (next l))).
Proof.
  intros l items.
  assert (Hr : ready l) by apply ready_NewLexer.
  assert (H : ch l = c_slash) by (vm_compute; reflexivity).
  assert (Hok : Forall (itemOk c_slash) items)
    by (repeat constructor; cbn; lia).
  assert (Hnl : ~ In c_nl (srcOf items))
    by (cbn; intros [E|[E|[E|[E|[]]]]]; discriminate E).
  assert (Ha : ahead (srcOf items ++ [c_slash]) (next l) = true)
    by (vm_compute; reflexivity).
  split; [exact Hr|]. split; [exact H|]. split; [exact Hok|].
  split; [exact Hnl|]. split; [exact Ha|].
  exact (proj1 (Scan1_slash sampleUnsupported keywordTokens l Hr H)
               items Hok Hnl Ha).
Defined.

(** The source [1/2]: the first call of [Scan] returns. *)
Lemma Scan1_returns_witness :
  let l := NewLexer (bytes "1/2") in
  ready l /\
  exists r l',
    Scan sampleUnsupported keywordTokens l = Some (r, l') /\ ready l' /\
    (tokOf r = EOF \/ tokOf r = ILLEGAL \/ (mu l' < mu l)%nat).
Proof.
  intros l.
  assert (Hr : ready l)
    by exact (proj1 (Scan1_returns sampleUnsupported keywordTokens) _).
  split; [exact Hr|].
  exact (proj2 (Scan1_returns sampleUnsupported keywordTokens) l Hr).
Defined.

End V1.

(* ================================================================= *)
(** * [Scan] and [ScanRegex] together *)

(** X18. [ScanRegex] always returns, with [REGEX] or [ILLEGAL], and does
    not change [HadSpace]; and a second call right after it never
    scans a regex: it returns [ILLEGAL], naming the token of the first
    call, at the position where the lexer is, and reads nothing. *)
Theorem ScanRegex_not_twice :
  forall l : Lexer,
    exists r l',
      ScanRegex l = Some (r, l') /\
      (tokOf r = REGEX \/ tokOf r = ILLEGAL) /\
      HadSpace l' = HadSpace l /\
      ScanRegex l' =
      Some ((pos l', ILLEGAL,
             Sprintf "unexpected %s preceding regex" [ArgToken (tokOf r)]),
            set_lastTok l' ILLEGAL).
Proof.
  intros l.
  destruct (ScanRegex_facts (fun _ => True) (fun _ _ => I) l I)
    as (r & l0 & E & _ & _ & Hh & Hf).
  assert (Ht : tokOf r = REGEX \/ tokOf r = ILLEGAL).
  { destruct Hf as [(_ & Ht & _)|(Ht & _)]; auto. }
  exists r, (set_lastTok l0 (tokOf r)).
  split; [exact E|]. split; [exact Ht|]. split; [exact Hh|].
  apply (ScanRegex_misplaced (set_lastTok l0 (tokOf r)));
    cbn [lastTok set_lastTok]; destruct Ht as [-> | ->]; discriminate.
Qed.

(* ----------------------------------------------------------------- *)
(** ** A regex in the two versions *)

Lemma next_set_lastTok l t : next (set_lastTok l t) = set_lastTok (next l) t.
Proof.
  unfold next. cbn. destruct (DecodeRune _) as [r size].
  repeat match goal with
         | |- context [if ?c then _ else _] => destruct c
         end; reflexivity.
Qed.

Lemma nextN_set_lastTok n l t :
  nextN n (set_lastTok l t) = set_lastTok (nextN n l) t.
Proof.
  revert l. induction n as [|n IH]; intros l; simpl; [reflexivity|].
  rewrite next_set_lastTok, IH. reflexivity.
Qed.

Lemma ahead_set_lastTok rs l t : ahead rs (set_lastTok l t) = ahead rs l.
Proof.
  revert l. induction rs as [|r rs IH]; intros l; simpl; [reflexivity|].
  rewrite next_set_lastTok, IH. reflexivity.
Qed.

(** The lexer of the second version, driven by its two methods, is
    ready in the sense of the first. *)
Lemma reachable_ready s l : reachable s l -> V1.ready l.
Proof.
  assert (Hn : forall x, V1.ready x -> V1.ready (next x))
    by (intros x Hx; apply V1.ready_next, Hx).
  induction 1 as [|l c r l' _ IH Hc]; [apply V1.ready_NewLexer|].
  destruct c; cbn in Hc.
  - destruct (Scan_facts V1.ready Hn (fun _ _ H => H) l IH)
      as (r0 & l0 & HS & Hi0 & _).
    rewrite Hc in HS. injection HS as <- ->. exact Hi0.
  - destruct (ScanRegex_facts V1.ready Hn l IH) as (r0 & l0 & HS & Hi0 & _).
    rewrite Hc in HS. injection HS as <- ->. exact Hi0.
Qed.

(** [Scan] at a slash. *)
Lemma Scan_slash l :
  ch l = c_slash ->
  Scan l =
  Some (if ch (next l) =? c_eq
        then ((pos l, DIV_ASSIGN, Str ""),
              set_lastTok (set_hadSpace (next (next l)) false) DIV_ASSIGN)
        else ((pos l, DIV, Str ""),
              set_lastTok (set_hadSpace (next l) false) DIV)).
Proof.
  intros H. rewrite Scan_at by (rewrite H; (reflexivity || lia)).
  rewrite H. unfold tokenAt, runMethod.
  cbn [isNameStart Z.eqb Z.leb Z.compare Pos.compare Pos.compare_cont
       Pos.eqb andb orb scanSwitch isDigit negb].
  unfold choice, bind, getCh, next_, ret, return_.
  rewrite next_set_hadSpace. cbn [ch set_hadSpace].
  destruct (ch (next l) =? c_eq); rewrite ?next_set_hadSpace; reflexivity.
Qed.

(** X19. On a regex that ends on its line the two versions of the lexer
    agree. With the lexer at a slash, over regex items without a
    newline and a closing slash: in the second version [Scan] returns
    [DIV], or [DIV_ASSIGN] when the regex starts with [=], at the
    slash, and [ScanRegex], called next, returns what [Scan] returns in
    the first version: [REGEX] at the position of the slash with the
    text of the items; and both leave the lexer after the closing
    slash. *)
Theorem regex_in_both_versions :
  forall (unsupportedKeywords : list rune -> bool)
         (keywordTokens1 : list rune -> option Token)
         (s : list byte) (l : Lexer) (items : list Item),
    Z.of_nat (length s) < maxInt -> reachable s l ->
    ch l = c_slash ->
    Forall (itemOk c_slash) items -> ~ In c_nl (srcOf items) ->
    ahead (srcOf items ++ [c_slash]) (next l) = true ->
    let r := (pos l, REGEX, StringOfRunes (reValOf items)) in
    let x := next (nextN (length (srcOf items)) (next l)) in
    exists (t : Token) (l1 : Lexer),
      Scan l = Some ((pos l, t, Str ""), l1) /\
      (t = DIV \/ t = DIV_ASSIGN) /\
      ScanRegex l1 = Some (r, set_lastTok (set_hadSpace x false) REGEX) /\
      V1.Scan unsupportedKeywords keywordTokens1 l = Some (r, x).
Proof.
  intros uk kt s l items Hlen Hr Hc Hok Hnl Ha r x. subst r x.
  pose proof (reachable_lexerInv s l Hlen Hr) as [Hpos _].
  pose proof (V1.Scan1_regex uk kt l items (reachable_ready s l Hr) Hc Hok
                             Hnl Ha) as E1.
  pose proof (Scan_slash l Hc) as E2.
  pose proof Ha as Ha'. rewrite ahead_app in Ha'.
  apply andb_true_iff in Ha'. destruct Ha' as [Hit Hx].
  cbn [ahead] in Hx. apply andb_true_iff in Hx. destruct Hx as [Hx _].
  apply Z.eqb_eq in Hx.
  destruct (Z.eqb_spec (ch (next l)) c_eq) as [He|He].
  - (* the regex starts with [=] *)
    destruct items as [|i items'];
      [cbn [srcOf flat_map length nextN] in Hx; lia|].
    destruct i as [c|c]; cbn [srcOf flat_map itemSrc app ahead] in Hit;
      apply andb_true_iff in Hit; destruct Hit as [Hh Hit];
      apply Z.eqb_eq in Hh; [|lia].
    subst c. rewrite He in *. fold (srcOf items') in Hit.
    inversion Hok as [|? ? _ Hok']; subst.
    set (l1 := set_lastTok (set_hadSpace (next (next l)) false) DIV_ASSIGN)
      in *.
    exists DIV_ASSIGN, l1. split; [exact E2|]. split; [auto|].
    split; [|exact E1].
    destruct (regexPos_after_Scan l _ _ _ l1 Hpos E2 (or_intror eq_refl))
      as (_ & Hp & _).
    rewrite (ScanRegex_literal items' l1).
    + rewrite Hp. unfold regexStart, l1.
      cbn [lastTok set_lastTok].
      rewrite nextN_set_lastTok, nextN_set_hadSpace, next_set_lastTok,
        next_set_hadSpace.
      reflexivity.
    + right. reflexivity.
    + exact Hok'.
    + unfold l1. rewrite ahead_set_lastTok, ahead_set_hadSpace. exact Hit.
    + unfold l1. rewrite nextN_set_lastTok, nextN_set_hadSpace.
      exact Hx.
  - set (l1 := set_lastTok (set_hadSpace (next l) false) DIV) in *.
    exists DIV, l1. split; [exact E2|]. split; [auto|].
    split; [|exact E1].
    destruct (regexPos_after_Scan l _ _ _ l1 Hpos E2 (or_introl eq_refl))
      as (_ & Hp & _).
    rewrite (ScanRegex_literal items l1).
    + rewrite Hp. unfold regexStart, l1.
      cbn [lastTok set_lastTok].
      rewrite nextN_set_lastTok, nextN_set_hadSpace, next_set_lastTok,
        next_set_hadSpace.
      reflexivity.
    + left. reflexivity.
    + exact Hok.
    + unfold l1. rewrite ahead_set_lastTok, ahead_set_hadSpace. exact Hit.
    + unfold l1. rewrite nextN_set_lastTok, nextN_set_hadSpace.
      exact Hx.
Qed.

(** The source [/=a/ c]: [Scan] returns [DIV_ASSIGN], and [ScanRegex]
    and the first version return the regex of [=] and the letter
    [a]. *)
Lemma regex_in_both_versions_witness :
  let s := bytes "/=a/ c" in
  let l := NewLexer s in
  let items := [Plain 61; Plain 97] in
  let r := (pos l, REGEX, StringOfRunes (reValOf items)) in
  let x := next (nextN (length (srcOf items)) (next l)) in
  Z.of_nat (length s) < maxInt /\ reachable s l /\ ch l = c_slash /\
  Forall (itemOk c_slash) items /\ ~ In c_nl (srcOf items) /\
  ahead (srcOf items ++ [c_slash]) (next l) = true /\
  exists (t : Token) (l1 : Lexer),
    Scan l = Some ((pos l, t, Str ""), l1) /\
    (t = DIV \/ t = DIV_ASSIGN) /\
    ScanRegex l1 = Some (r, set_lastTok (set_hadSpace x false) REGEX) /\
    V1.Scan V1.sampleUnsupported keywordTokens l = Some (r, x).
Proof.
  intros s l items r x.
  assert (Hlen : Z.of_nat (length s) < maxInt) by (vm_compute; reflexivity).
  assert (Hr : reachable s l) by apply reach_new.
  assert (Hc : ch l = c_slash) by (vm_compute; reflexivity).
  assert (Hok : Forall (itemOk c_slash) items)
    by (repeat constructor; cbn; lia).
  assert (Hnl : ~ In c_nl (srcOf items))
    by (cbn; intros [E|[E|[]]]; discriminate E).
  assert (Ha : ahead (srcOf items ++ [c_slash]) (next l) = true)
    by (vm_compute; reflexivity).
  split; [exact Hlen|]. split; [exact Hr|]. split; [exact Hc|].
  split; [exact Hok|]. split; [exact Hnl|]. split; [exact Ha|].
  exact (regex_in_both_versions V1.sampleUnsupported keywordTokens
                                s l items Hlen Hr Hc Hok Hnl Ha).
Defined.

(* ================================================================= *)
(** * The command-line driver *)

Module CLI.

(** A process goes on or leaves by [os.Exit]. *)
Inductive Proc (A : Type) : Type :=
  | Done (a : A)
  | Exit (code : Z).
Arguments Done {A} a.
Arguments Exit {A} code.

Definition andThen {A B} (m : Proc A) (f : A -> Proc B) : Proc B :=
  match m with
  | Done a => f a
  | Exit c => Exit c
  end.

Notation "x <-- m ;;; k" := (andThen m (fun x => k))
  (at level 61, m at next level, right associativity).
Notation "m ;;; k" := (andThen m (fun _ => k))
  (at level 61, right associativity).

Fixpoint forEach {A} (xs : list A) (f : A -> Proc unit) : Proc unit :=
  match xs with
  | [] => Done tt
  | x :: xs' => f x ;;; forEach xs' f
  end.

(** [func errorExit(format string, args ...interface{})] *)
Definition errorExit {A} : Proc A := Exit 1.

(** A panic that nothing recovers: the Go runtime writes it to the
    standard error and ends the process with status 2. *)
Definition panic {A} : Proc A := Exit 2.

(* ----------------------------------------------------------------- *)
(** *** The command line *)

(** The values of the flags that [main] declares: [-f] and [-v], which
    may be given several times; [-F]; [-d]; [-cpuprofile];
    [-memprofile]. *)
Record Flags : Set := mkFlags {
  progFiles : list string;
  fieldSep : string;
  vars : list string;
  debug : bool;
  cpuprofile : string;
  memprofile : string
}.

(** Their default values. *)
Definition noFlags : Flags := mkFlags [] " " [] false "" "".

(** The flags by name, as [flag.Var], [flag.String] and [flag.Bool]
    register them. *)
Inductive Flag : Set :=
  | FlagF | FlagFS | FlagV | FlagD | FlagCpuprofile | FlagMemprofile.

Definition formal (name : string) : option Flag :=
  if String.eqb name "f" then Some FlagF
  else if String.eqb name "F" then Some FlagFS
  else if String.eqb name "v" then Some FlagV
  else if String.eqb name "d" then Some FlagD
  else if String.eqb name "cpuprofile" then Some FlagCpuprofile
  else if String.eqb name "memprofile" then Some FlagMemprofile
  else None.

(** [flag.Value.Set] for the flags that take a string:
    [multiString.Set] appends, the others replace. None of them
    fails. *)
Definition setValue (fl : Flags) (f : Flag) (v : string) : Flags :=
  match f with
  | FlagF =>
    mkFlags (progFiles fl ++ [v]) (fieldSep fl) (vars fl) (debug fl)
            (cpuprofile fl) (memprofile fl)
  | FlagFS =>
    mkFlags (progFiles fl) v (vars fl) (debug fl)
            (cpuprofile fl) (memprofile fl)
  | FlagV =>
    mkFlags (progFiles fl) (fieldSep fl) (vars fl ++ [v]) (debug fl)
            (cpuprofile fl) (memprofile fl)
  | FlagD => fl
  | FlagCpuprofile =>
    mkFlags (progFiles fl) (fieldSep fl) (vars fl) (debug fl)
            v (memprofile fl)
  | FlagMemprofile =>
    mkFlags (progFiles fl) (fieldSep fl) (vars fl) (debug fl)
            (cpuprofile fl) v
  end.

Definition setDebug (fl : Flags) (b : bool) : Flags :=
  mkFlags (progFiles fl) (fieldSep fl) (vars fl) b
          (cpuprofile fl) (memprofile fl).

(** [strconv.ParseBool], by which a boolean flag reads its value. *)
Definition parseBool (s : string) : option bool :=
  if existsb (String.eqb s) ["1"; "t"; "T"; "TRUE"; "true"; "True"]%string
  then Some true
  else if existsb (String.eqb s)
                  ["0"; "f"; "F"; "FALSE"; "false"; "False"]%string
  then Some false
  else None.

(** The name of a flag and its value, cut at the first [=]. *)
Fixpoint cutAtEquals (s : string) : string * option string :=
  match s with
  | EmptyString => (EmptyString, None)
  | String c s' =>
    if Ascii.eqb c "="
    then (EmptyString, Some s')
    else let '(n, v) := cutAtEquals s' in (String c n, v)
  end.

(** What [parseOne] of the package [flag] sees in one argument. *)
Inductive Arg : Set :=
  | NotAFlag                     (* shorter than 2, or no leading minus *)
  | Terminator                   (* two minus signs alone *)
  | BadSyntax                    (* bad flag syntax *)
  | FlagArg (name : string) (value : option string).

Definition classify (s : string) : Arg :=
  match s with
  | String c0 (String c1 s2) =>
    if negb (Ascii.eqb c0 "-") then NotAFlag
    else
      let twoMinuses := Ascii.eqb c1 "-" in
      if twoMinuses && String.eqb s2 "" then Terminator
      else
        let name := if twoMinuses then s2 else String c1 s2 in
        match name with
        | EmptyString => BadSyntax
        | String n0 name' =>
          if Ascii.eqb n0 "-" || Ascii.eqb n0 "=" then BadSyntax
          else let '(n, v) := cutAtEquals name' in FlagArg (String n0 n) v
        end
  | _ => NotAFlag
  end.

(** How [flag.Parse] ends: it returns, with the values of the flags
    and the arguments that are left, or it exits. *)
Inductive Parsed : Set :=
  | Returned (fl : Flags) (args : list string)
  | FlagExit (code : Z).

(** [flag.Parse()], that is [flag.CommandLine.Parse(os.Args[1:])] with
    the error handling [ExitOnError]: the loop over [parseOne]. A flag
    that is not boolean takes its value after [=] or from the next
    argument. An error ends the process with status 2, but the request
    for help, [-h] or [-help], which ends it with status 0. *)
Fixpoint parse (fl : Flags) (args : list string) : Parsed :=
  match args with
  | [] => Returned fl []
  | s :: rest =>
    match classify s with
    | NotAFlag => Returned fl args
    | Terminator => Returned fl rest
    | BadSyntax => FlagExit 2
    | FlagArg name value =>
      match formal name with
      | None =>
        if String.eqb name "help" || String.eqb name "h"
        then FlagExit 0 else FlagExit 2
      | Some FlagD =>
        match value with
        | Some v =>
          match parseBool v with
          | Some b => parse (setDebug fl b) rest
          | None => FlagExit 2
          end
        | None => parse (setDebug fl true) rest
        end
      | Some f =>
        match value with
        | Some v => parse (setValue fl f v) rest
        | None =>
          match rest with
          | v :: rest' => parse (setValue fl f v) rest'
          | [] => FlagExit 2
          end
        end
      end
    end
  end.

(* ----------------------------------------------------------------- *)
(** *** The outside of the process *)

(** How reading a program file goes. *)
Inductive ReadResult : Set :=
  | ReadOk (content : list byte)
  | OpenFails
  | ReadFails.

(** What [parser.ParseProgram] returns: a program, a [*ParseError]
    with its position and the length of its message, or another
    error. *)
Inductive ParseResult : Set :=
  | Parses
  | SyntaxError (pos : Position) (msgLen : nat)
  | OtherError.

(** What [main] gets from the outside: the command line, and the
    results of the calls of the packages [os], [pprof], [parser] and
    [interp]. *)
Record World : Type := mkWorld {
  argv : list string;                 (* os.Args[1:] *)
  readFile : nat -> ReadResult;
    (* reading the program file of the i-th -f flag; the standard
       input when its name is a minus sign *)
  parseResult : ParseResult;          (* parser.ParseProgram(src) *)
  cpuCreated : bool;                  (* os.Create of the CPU profile *)
  cpuStarted : bool;                  (* pprof.StartCPUProfile(f) *)
  execFails : bool;                   (* p.Exec returns an error *)
  memCreated : bool;                  (* os.Create of the memory profile *)
  memWritten : bool;                  (* pprof.WriteHeapProfile(f) *)
  exitStatus : Z
    (* p.ExitStatus(): the argument of the exit statement the program
       ran, 0 when it ran none *)
}.

(** [len(strings.SplitN(v, "=", 2)) == 2] *)
Fixpoint hasEquals (v : string) : bool :=
  match v with
  | EmptyString => false
  | String c v' => Ascii.eqb c "="%char || hasEquals v'
  end.

(** The loop over [progFiles]: each file is read into the buffer and a
    newline is written after it. *)
Fixpoint readProgFiles (w : World) (i : nat) (files : list string)
         (buf : list byte) : Proc (list byte) :=
  match files with
  | [] => Done buf
  | f :: files' =>
    match readFile w i with
    | ReadOk content =>
      readProgFiles w (S i) files' (buf ++ content ++ [x0a])
    | OpenFails => errorExit
    | ReadFails => errorExit
    end
  end.

(** The program text and the arguments of the program: the text comes
    from the files of the [-f] flags, or else is the first
    argument. *)
Definition source (w : World) (fl : Flags) (args : list string)
  : Proc (list byte * list string) :=
  match progFiles fl with
  | _ :: _ =>
    src <-- readProgFiles w 0 (progFiles fl) [] ;;; Done (src, args)
  | [] =>
    match args with
    | [] => errorExit
    | a :: args' => Done (bytes a, args')
    end
  end.

(** Parsing the program: a [*ParseError] is shown in its source line
    before the process exits. *)
Definition parseProgram (w : World) (src : list byte) : Proc unit :=
  match parseResult w with
  | Parses => Done tt
  | SyntaxError pos msgLen =>
    match snd (showSourceLine src pos (Z.of_nat msgLen)) with
    | Returns => errorExit
    | Panics => panic
    end
  | OtherError => errorExit
  end.

(** A profile is written when the flag is not the empty string. *)
Definition profile (name : string) (created written : bool) : Proc unit :=
  if negb (String.eqb name "") then
    if negb created then errorExit
    else if negb written then errorExit
    else Done tt
  else Done tt.

(** [p.SetVar] for each [-v] flag. *)
Definition setVars (fl : Flags) : Proc unit :=
  forEach (vars fl)
          (fun v => if negb (hasEquals v) then errorExit else Done tt).

(** [func main()]. What it writes to the standard error is left out,
    but for the panic that [showSourceLine] may end in. *)
Definition main (w : World) : Proc unit :=
  match parse noFlags (argv w) with
  | FlagExit c => Exit c
  | Returned fl args =>
    sa <-- source w fl args ;;;
    parseProgram w (fst sa) ;;;
    profile (cpuprofile fl) (cpuCreated w) (cpuStarted w) ;;;
    setVars fl ;;;
    (if execFails w then errorExit else Done tt) ;;;
    profile (memprofile fl) (memCreated w) (memWritten w) ;;;
    Exit (exitStatus w)
  end.

(** The exit status of the process as its parent reads it on a Unix
    system: the low eight bits of the argument of [os.Exit]; 0 when
    [main] returns. *)
Definition status (w : World) : Z :=
  match main w with
  | Exit c => c mod 256
  | Done _ => 0
  end.

(** What [flag.Parse] makes of the command line. *)
Definition commandLine (w : World) : Parsed := parse noFlags (argv w).

(** The steps between parsing and running succeed. *)
Definition setupOk (w : World) (fl : Flags) : Prop :=
  (cpuprofile fl = ""%string \/ (cpuCreated w = true /\ cpuStarted w = true))
  /\ Forall (fun v => hasEquals v = true) (vars fl).

(** The memory profile is not asked for, or is written. *)
Definition memOk (w : World) (fl : Flags) : Prop :=
  memprofile fl = ""%string \/ (memCreated w = true /\ memWritten w = true).

(** The whole run succeeds. *)
Definition succeeds (w : World) : Prop :=
  exists fl args sa,
    commandLine w = Returned fl args /\ source w fl args = Done sa /\
    parseResult w = Parses /\ setupOk w fl /\ execFails w = false /\
    memOk w fl.

(** The parser reports an error at a position with which
    [showSourceLine] panics. *)
Definition showPanics (w : World) : Prop :=
  exists fl args sa pos n,
    commandLine w = Returned fl args /\ source w fl args = Done sa /\
    parseResult w = SyntaxError pos n /\
    snd (showSourceLine (fst sa) pos (Z.of_nat n)) = Panics.

Lemma parse_exit args :
  forall fl c, parse fl args = FlagExit c -> c = 0 \/ c = 2.
Proof.
  remember (length args) as n eqn:Hn.
  assert (Hle : (length args <= n)%nat) by lia. clear Hn.
  revert args Hle.
  induction n as [|n IHn]; intros args Hle fl c;
    (destruct args as [|s rest]; [discriminate|]); [cbn in Hle; lia|].
  assert (IH : forall args' : list string,
             (length args' < length (s :: rest))%nat ->
             forall fl c, parse fl args' = FlagExit c -> c = 0 \/ c = 2)
    by (intros args' Hlt; apply IHn; cbn in *; lia).
  clear IHn Hle.
  cbn [parse]. destruct (classify s) as [| | |name value];
    try discriminate.
  - intros H. injection H as <-. auto.
  - destruct (formal name) as [f|].
    + assert (Hstr : match value with
                     | Some v => parse (setValue fl f v) rest
                     | None =>
                       match rest with
                       | v :: rest' => parse (setValue fl f v) rest'
                       | [] => FlagExit 2
                       end
                     end = FlagExit c -> c = 0 \/ c = 2).
      { destruct value as [v|]; [apply IH; cbn; lia|].
        destruct rest as [|v rest']; [intros H; injection H as <-; auto|].
        apply IH. cbn. lia. }
      destruct f; try exact Hstr.
      destruct value as [v|]; [|apply IH; cbn; lia].
      destruct (parseBool v); [apply IH; cbn; lia|].
      intros H. injection H as <-. auto.
    + destruct (String.eqb name "help" || String.eqb name "h");
        intros H; injection H as <-; auto.
Qed.

Lemma forEach_ok {A} (xs : list A) (f : A -> Proc unit) :
  Forall (fun x => f x = Done tt) xs -> forEach xs f = Done tt.
Proof.
  induction 1 as [|x xs Hx _ IH]; simpl; [reflexivity|].
  rewrite Hx. exact IH.
Qed.

Lemma forEach_cases {A} (xs : list A) (f : A -> Proc unit) :
  (forall x, f x = Done tt \/ f x = Exit 1) ->
  (forEach xs f = Done tt /\ Forall (fun x => f x = Done tt) xs) \/
  forEach xs f = Exit 1.
Proof.
  intros Hf. induction xs as [|x xs IH];
    [left; split; [reflexivity | constructor]|].
  simpl. destruct (Hf x) as [E|E]; rewrite E; simpl; [|right; reflexivity].
  destruct IH as [[E' Hall]|E']; [left | right; exact E'].
  split; [exact E' | constructor; assumption].
Qed.

Lemma setupOk_ok w fl :
  setupOk w fl ->
  profile (cpuprofile fl) (cpuCreated w) (cpuStarted w) = Done tt /\
  setVars fl = Done tt.
Proof.
  intros [Hc Hv]. split.
  - unfold profile. destruct Hc as [-> | [-> ->]]; [reflexivity|].
    destruct (negb (cpuprofile fl =? "")%string); reflexivity.
  - apply forEach_ok. eapply Forall_impl; [|exact Hv].
    intros v Hh. cbn beta. rewrite Hh. reflexivity.
Qed.

Lemma memOk_ok w fl :
  memOk w fl ->
  profile (memprofile fl) (memCreated w) (memWritten w) = Done tt.
Proof.
  unfold profile. intros [-> | [-> ->]]; [reflexivity|].
  destruct (negb (memprofile fl =? "")%string); reflexivity.
Qed.

Lemma profile_cases name created written :
  (profile name created written = Done tt /\
   (name = ""%string \/ (created = true /\ written = true))) \/
  profile name created written = Exit 1.
Proof.
  unfold profile. destruct (String.eqb_spec name ""); cbn [negb].
  - left. auto.
  - destruct created, written; cbn; auto.
Qed.

Lemma setVars_cases fl :
  (setVars fl = Done tt /\ Forall (fun v => hasEquals v = true) (vars fl)) \/
  setVars fl = Exit 1.
Proof.
  unfold setVars.
  destruct (forEach_cases (vars fl)
              (fun v => if negb (hasEquals v) then errorExit else Done tt))
    as [[E Hall]|E].
  - intros v. destruct (hasEquals v); cbn; auto.
  - left. split; [exact E|]. eapply Forall_impl; [|exact Hall].
    intros v. cbn beta. destruct (hasEquals v); [reflexivity|discriminate].
  - right. exact E.
Qed.

Lemma readProgFiles_cases w files :
  forall i buf,
    (exists src, readProgFiles w i files buf = Done src) \/
    readProgFiles w i files buf = Exit 1.
Proof.
  induction files as [|f files IH]; intros i buf; cbn [readProgFiles].
  - left. eexists. reflexivity.
  - destruct (readFile w i); [apply IH | right; reflexivity ..].
Qed.

Lemma source_cases w fl args :
  (exists sa, source w fl args = Done sa) \/ source w fl args = Exit 1.
Proof.
  unfold source. destruct (progFiles fl) as [|f fs].
  - destruct args; [right; reflexivity | left; eexists; reflexivity].
  - destruct (readProgFiles_cases w (f :: fs) 0%nat []) as [[src E]|E];
      rewrite E; [left; eexists; reflexivity | right; reflexivity].
Qed.

(** The process after the command line has been read and the program
    text found. *)
Lemma main_from_source w fl args sa :
  commandLine w = Returned fl args -> source w fl args = Done sa ->
  main w =
  (parseProgram w (fst sa) ;;;
   profile (cpuprofile fl) (cpuCreated w) (cpuStarted w) ;;;
   setVars fl ;;;
   (if execFails w then errorExit else Done tt) ;;;
   profile (memprofile fl) (memCreated w) (memWritten w) ;;;
   Exit (exitStatus w)).
Proof.
  unfold commandLine, main. intros -> ->. reflexivity.
Qed.

End CLI.

(* ================================================================= *)
(** ** C2: exit codes *)

(** A run in which every call to the outside succeeds: the command
    line [args], the result [p] of the parser and the exit status [st]
    of the interpreter. *)
Definition run (args : list string) (p : CLI.ParseResult) (st : Z)
  : CLI.World :=
  CLI.mkWorld args (fun _ => CLI.ReadOk []) p true true false true true st.

(** The command line without any flag or argument. *)
Definition bareCommand : CLI.World := run [] CLI.Parses 0.



